(** * nadine: byte-order conversion, modelled from [nadine.h]

    The C header generates, per numeric type [T], a native-order query, a
    conversion, and a read/write pair.  This development embeds the header's
    functions over byte buffers represented as lists, with every buffer access
    checked, and proves the properties the specification states about them. *)

From Stdlib Require Import ZArith Lia List.
From stdpp Require Import base tactics option list numbers.

(** ** Outcomes of a C call

    A call either returns, or performs an access outside the object it was
    handed (undefined behaviour), or fails to leave a loop within its
    iteration budget. *)

Inductive outcome (A : Type) : Type :=
  | Done (a : A)
  | Undefined
  | Diverged.

Arguments Done {A} a.
Arguments Undefined {A}.
Arguments Diverged {A}.

Definition bind {A B : Type} (m : outcome A) (k : A -> outcome B) : outcome B :=
  match m with
  | Done a => k a
  | Undefined => Undefined
  | Diverged => Diverged
  end.

Notation "'let*' x ':=' m 'in' k" := (bind m (fun x => k))
  (at level 10, x name, m at level 100, k at level 200).

(** ** Byte buffers

    An [unsigned char] array is a list of integers; [load] and [store] are
    the checked array accesses. *)

Definition load (p : list Z) (i : nat) : outcome Z :=
  match p !! i with
  | Some x => Done x
  | None => Undefined
  end.

Definition store (p : list Z) (i : nat) (x : Z) : outcome (list Z) :=
  if decide (i < length p) then Done (<[i:=x]> p) else Undefined.

(** [#define NADINE_I_BSWAP(a, b) do { unsigned char t = a; a = b; b = t; } while (0)]
    applied to [p[i]] and [p[j]]. *)
Definition NADINE_I_BSWAP (p : list Z) (i j : nat) : outcome (list Z) :=
  let* t := load p i in
  let* y := load p j in
  let* p := store p i y in
  store p j t.

(** [nadine_i_memcpy(p, s, n)]: [while (n--) *dst++ = *src++;] with [k]
    the number of bytes already copied. *)
Fixpoint memcpy_loop (n : nat) (dst src : list Z) (k : nat) : outcome (list Z) :=
  match n with
  | O => Done dst
  | S n' =>
      let* x := load src k in
      let* dst := store dst k x in
      memcpy_loop n' dst src (S k)
  end.

Definition nadine_i_memcpy (dst src : list Z) (n : nat) : outcome (list Z) :=
  memcpy_loop n dst src 0.

(** The general two-pointer walk of [nadine_i_memrev]:
    [while (a < b) { NADINE_I_BSWAP( *a, *b); ++a, --b; }]. *)
Fixpoint memrev_loop (fuel : nat) (p : list Z) (a b : nat) : outcome (list Z) :=
  if a <? b then
    match fuel with
    | O => Diverged
    | S fuel' =>
        let* p := NADINE_I_BSWAP p a b in
        memrev_loop fuel' p (S a) (pred b)
    end
  else Done p.

(** [nadine_i_memrev(p, n)].  For [n = 0] the C code forms [&a[n - 1]] with
    [n - 1] wrapped around, a pointer outside the array. *)
Definition nadine_i_memrev (p : list Z) (n : nat) : outcome (list Z) :=
  match n with
  | 1 => Done p
  | 2 => NADINE_I_BSWAP p 0 1
  | 4 =>
      let* p := NADINE_I_BSWAP p 0 3 in
      NADINE_I_BSWAP p 1 2
  | 8 =>
      let* p := NADINE_I_BSWAP p 0 7 in
      let* p := NADINE_I_BSWAP p 1 6 in
      let* p := NADINE_I_BSWAP p 2 5 in
      NADINE_I_BSWAP p 3 4
  | O => Undefined
  | _ => memrev_loop n p 0 (n - 1)
  end.

(** The loop of [nadine_i_byteswap]:
    [while (a < b) { NADINE_I_BSWAP(a[0], a[1]); a += 2; }]. *)
Fixpoint byteswap_loop (fuel : nat) (p : list Z) (a b : nat) : outcome (list Z) :=
  if a <? b then
    match fuel with
    | O => Diverged
    | S fuel' =>
        let* p := NADINE_I_BSWAP p a (a + 1) in
        byteswap_loop fuel' p (a + 2) b
    end
  else Done p.

(** [nadine_i_byteswap(p, n)], with [b = &a[n - 1]]. *)
Definition nadine_i_byteswap (p : list Z) (n : nat) : outcome (list Z) :=
  match n with
  | O => Undefined
  | _ => byteswap_loop n p 0 (n - 1)
  end.

(** [nadine_i_xform(p, n, xf)]:
    [if (xf & 1) nadine_i_memrev(p, n); if (xf & 2) nadine_i_byteswap(p, n);] *)
Definition nadine_i_xform (p : list Z) (n : nat) (xf : Z) : outcome (list Z) :=
  let* p := (if Z.eqb (Z.land xf 1) 0 then Done p else nadine_i_memrev p n) in
  if Z.eqb (Z.land xf 2) 0 then Done p else nadine_i_byteswap p n.

(** ** Reference permutations *)

(** Exchange of each byte [2k] with byte [2k+1]; a trailing unpaired byte
    stays. *)
Fixpoint swap_pairs (l : list Z) : list Z :=
  match l with
  | x :: y :: l' => y :: x :: swap_pairs l'
  | _ => l
  end.

(** The permutation a transform code denotes: reversal for bit 0, then the
    pair swap for bit 1. *)
Definition transform (xf : Z) (l : list Z) : list Z :=
  let l1 := if Z.testbit xf 0 then reverse l else l in
  if Z.testbit xf 1 then swap_pairs l1 else l1.

(** ** Byte orders and build configuration *)

Open Scope Z_scope.

Definition CHAR_BIT : Z := 8.

Definition NADINE_ENDIAN_LITTLE : Z := 0.
Definition NADINE_ENDIAN_BIG : Z := 1.
Definition NADINE_ENDIAN_SWAPCHARS : Z := 2.

(** The preprocessor switches that select between variants of the functions.
    An absent macro is [None].  The byte-reversal macros exist only under
    [#if CHAR_BIT == 8] and the conversion uses them unconditionally, so
    [CHAR_BIT] is fixed above. *)
Record config : Type := {
  UINT_MAX : Z;
  NADINE_NATIVE_ENDIAN_INT : option Z;
  NADINE_NATIVE_ENDIAN_FLOAT : option Z;
  NADINE_I_C99 : bool;
  NADINE_I_WREV8_defined : bool;
  NADINE_I_USE_SHIFT_RW : bool
}.

Definition NADINE_ENDIAN_UNKNOWN (C : config) : Z := UINT_MAX C.

(** The four tags a caller may pass. *)
Definition valid_endian (e : Z) : Prop :=
  e = NADINE_ENDIAN_LITTLE \/ e = NADINE_ENDIAN_BIG \/
  e = Z.lor NADINE_ENDIAN_LITTLE NADINE_ENDIAN_SWAPCHARS \/
  e = Z.lor NADINE_ENDIAN_BIG NADINE_ENDIAN_SWAPCHARS.

(** ** Numeric types

    A type [T] with values in [V]: its size in bytes, the bytes of a value
    ([NADINE_I_TYPE_PUN] followed by [NADINE_I_TYPE_ACCESS], through a union
    or through [nadine_i_memcpy]), and the value held by given bytes
    ([NADINE_I_TYPE_UNPUN]). *)
Record ctype (V : Type) : Type := {
  sizeof : nat;
  type_pun : V -> list Z;
  type_unpun : list Z -> V
}.

Arguments sizeof {V} c.
Arguments type_pun {V} c v.
Arguments type_unpun {V} c p.

(** The rows of the type table: [NADINE_I_IMPL_UI(T, N)],
    [NADINE_I_IMPL_SI(T, N, TU, NU)] and [NADINE_I_IMPL_F(T, N)].  For a
    floating-point type, [two] is the value [(T)2.0] and [ok] tells which
    elements of [V] are values of the type. *)
Inductive scalar : Type :=
  | Unsigned (T : ctype Z)
  | Signed (T TU : ctype Z)
  | Floating (V : Type) (T : ctype V) (two : V) (ok : V -> Prop).

Definition value (s : scalar) : Type :=
  match s with
  | Unsigned _ | Signed _ _ => Z
  | Floating V _ _ _ => V
  end.

Definition size_of (s : scalar) : nat :=
  match s with
  | Unsigned T | Signed T _ => sizeof T
  | Floating _ T _ _ => sizeof T
  end.

Definition is_uchar (b : Z) : Prop := 0 <= b < 2 ^ CHAR_BIT.

Definition width (n : nat) : Z := CHAR_BIT * Z.of_nat n.

(** Conversion of an integer to an integer type of [n] bytes.  For a signed
    type the out-of-range case is taken to wrap in two's complement, which
    is what the compilers the header detects do; likewise a left shift of a
    signed operand keeps the low bits and a right shift of a negative one is
    arithmetic ([Z.shiftl], [Z.shiftr]). *)
Definition int_cast (signed : bool) (n : nat) (x : Z) : Z :=
  if signed
  then (x + 2 ^ (width n - 1)) mod 2 ^ width n - 2 ^ (width n - 1)
  else x mod 2 ^ width n.

Definition int_range (signed : bool) (n : nat) (x : Z) : Prop :=
  if signed
  then - 2 ^ (width n - 1) <= x < 2 ^ (width n - 1)
  else 0 <= x < 2 ^ width n.

(** ** Native-order detection *)

(** The probe shared by both detectors: bytes [0], [sizeof(T) - 1], [1] and
    [sizeof(T) - 2] of [p], answering [first], [last], [first] with pair swap,
    [last] with pair swap.  [sizeof(T) - 2] wraps around when the size is 1. *)
Definition probe (C : config) (p : list Z) (n : nat) (first last : Z) : outcome Z :=
  let* b := load p 0 in
  if negb (b =? 0) then Done first else
  let* b := load p (n - 1) in
  if negb (b =? 0) then Done last else
  let* b := load p 1 in
  if negb (b =? 0) then Done (Z.lor first NADINE_ENDIAN_SWAPCHARS) else
  let* b := (if (2 <=? n)%nat then load p (n - 2) else Undefined) in
  if negb (b =? 0) then Done (Z.lor last NADINE_ENDIAN_SWAPCHARS) else
  Done (NADINE_ENDIAN_UNKNOWN C).

(** [NADINE_I_IMPL_NN_UI(T, N)]: [nadine_endian_native_N] of an integer type. *)
Definition nadine_endian_native_int (C : config) (T : ctype Z) : outcome Z :=
  match NADINE_NATIVE_ENDIAN_INT C with
  | Some e => Done e
  | None => probe C (type_pun T 1) (sizeof T) NADINE_ENDIAN_LITTLE NADINE_ENDIAN_BIG
  end.

(** [NADINE_I_IMPL_NN_F(T, N)]: [nadine_endian_native_N] of a floating type. *)
Definition nadine_endian_native_float (C : config) {V : Type} (T : ctype V) (two : V)
    : outcome Z :=
  match NADINE_NATIVE_ENDIAN_FLOAT C with
  | Some e => Done e
  | None => probe C (type_pun T two) (sizeof T) NADINE_ENDIAN_BIG NADINE_ENDIAN_LITTLE
  end.

(** [NADINE_I_NATIVE_INT(T, N)]: the configured constant; else under C99 a
    compound-literal test of bytes [0] and [sizeof(T) - 1] before calling the
    function; else the function. *)
Definition NADINE_I_NATIVE_INT (C : config) (T : ctype Z) : outcome Z :=
  match NADINE_NATIVE_ENDIAN_INT C with
  | Some e => Done e
  | None =>
      if NADINE_I_C99 C then
        let* b := load (type_pun T 1) 0 in
        if negb (b =? 0) then Done NADINE_ENDIAN_LITTLE else
        let* b := load (type_pun T 1) (sizeof T - 1) in
        if negb (b =? 0) then Done NADINE_ENDIAN_BIG else
        nadine_endian_native_int C T
      else nadine_endian_native_int C T
  end.

(** [NADINE_I_NATIVE_FLOAT(T, N)]; its C99 shortcut tests the last byte first. *)
Definition NADINE_I_NATIVE_FLOAT (C : config) {V : Type} (T : ctype V) (two : V)
    : outcome Z :=
  match NADINE_NATIVE_ENDIAN_FLOAT C with
  | Some e => Done e
  | None =>
      if NADINE_I_C99 C then
        let* b := load (type_pun T two) (sizeof T - 1) in
        if negb (b =? 0) then Done NADINE_ENDIAN_LITTLE else
        let* b := load (type_pun T two) 0 in
        if negb (b =? 0) then Done NADINE_ENDIAN_BIG else
        nadine_endian_native_float C T two
      else nadine_endian_native_float C T two
  end.

Definition nadine_endian_native (C : config) (s : scalar) : outcome Z :=
  match s with
  | Unsigned T | Signed T _ => nadine_endian_native_int C T
  | Floating _ T two _ => nadine_endian_native_float C T two
  end.

(** ** Conversion *)

(** The standard-C word reversals, with [cast] the conversion [(T)]:
    [NADINE_I_WREV2(T, x)], [NADINE_I_WREV4(T, x)], [NADINE_I_WREV8(T, x)].
    The masks keep the operands within the width of the constants' types, so
    no intermediate result wraps.  (Under GCC and Clang the same names expand
    to the [__builtin_bswap] intrinsics instead.) *)
Definition NADINE_I_WREV2 (cast : Z -> Z) (x : Z) : Z :=
  cast (Z.lor (Z.shiftl (Z.land (cast x) 0x00FF) 8)
              (Z.shiftr (Z.land (cast x) 0xFF00) 8)).

Definition NADINE_I_WREV4 (cast : Z -> Z) (x : Z) : Z :=
  cast (Z.lor (Z.lor (Z.lor
          (Z.shiftl (Z.land (cast x) 0x000000FF) 24)
          (Z.shiftl (Z.land (cast x) 0x0000FF00) 8))
          (Z.shiftr (Z.land (cast x) 0x00FF0000) 8))
          (Z.shiftr (Z.land (cast x) 0xFF000000) 24)).

Definition NADINE_I_WREV8 (cast : Z -> Z) (x : Z) : Z :=
  cast (Z.lor (Z.lor (Z.lor (Z.lor (Z.lor (Z.lor (Z.lor
          (Z.shiftl (Z.land (cast x) 0x00000000000000FF) 56)
          (Z.shiftl (Z.land (cast x) 0x000000000000FF00) 40))
          (Z.shiftl (Z.land (cast x) 0x0000000000FF0000) 24))
          (Z.shiftl (Z.land (cast x) 0x00000000FF000000) 8))
          (Z.shiftr (Z.land (cast x) 0x000000FF00000000) 8))
          (Z.shiftr (Z.land (cast x) 0x0000FF0000000000) 24))
          (Z.shiftr (Z.land (cast x) 0x00FF000000000000) 40))
          (Z.shiftr (Z.land (cast x) 0xFF00000000000000) 56)).

(** The [switch (sizeof(T))] of special case #2; [None] when control leaves
    the switch without returning. *)
Definition convert_switch (C : config) (T : ctype Z) (value : Z) : option Z :=
  match sizeof T with
  | 2%nat => Some (NADINE_I_WREV2 (int_cast false (sizeof T)) value)
  | 4%nat => Some (NADINE_I_WREV4 (int_cast false (sizeof T)) value)
  | 8%nat =>
      if NADINE_I_WREV8_defined C
      then Some (NADINE_I_WREV8 (int_cast false (sizeof T)) value)
      else None
  | _ => None
  end.

(** The closing block of every conversion: pun, [nadine_i_xform], unpun. *)
Definition convert_xform {V : Type} (T : ctype V) (xf : Z) (value : V) : outcome V :=
  let* p := nadine_i_xform (type_pun T value) (sizeof T) xf in
  Done (type_unpun T p).

(** [NADINE_I_IMPL_CVT_UI(T, N)]. *)
Definition nadine_convert_ui (C : config) (T : ctype Z) (endian value : Z) : outcome Z :=
  let* native := NADINE_I_NATIVE_INT C T in
  if (native =? endian) || (sizeof T =? 1)%nat then Done value else
  match
    (if (Z.lxor native endian =? 1) && (CHAR_BIT =? 8)
     then convert_switch C T value else None)
  with
  | Some r => Done r
  | None => convert_xform T (Z.lxor native endian) value
  end.

(** [NADINE_I_IMPL_CVT_SI(T, N, TU, NU)]: alias to the unsigned type, convert,
    alias back. *)
Definition nadine_convert_si (C : config) (T TU : ctype Z) (endian value : Z)
    : outcome Z :=
  let u := type_unpun TU (type_pun T value) in
  let* u := nadine_convert_ui C TU endian u in
  Done (type_unpun T (type_pun TU u)).

(** [NADINE_I_IMPL_CVT_F(T, N)]: no early return. *)
Definition nadine_convert_f (C : config) {V : Type} (T : ctype V) (two : V)
    (endian : Z) (value : V) : outcome V :=
  let* native := NADINE_I_NATIVE_FLOAT C T two in
  convert_xform T (Z.lxor native endian) value.

Definition nadine_convert (C : config) (s : scalar) (endian : Z)
    : value s -> outcome (value s) :=
  match s with
  | Unsigned T => nadine_convert_ui C T endian
  | Signed T TU => nadine_convert_si C T TU endian
  | Floating _ T two _ => nadine_convert_f C T two endian
  end.

(** ** Read and write *)

(** [for (i = lo; i < lo + count; ++i) body], for a body that leaves the
    counter and the bound alone. *)
Fixpoint for_loop {S : Type} (body : nat -> S -> outcome S) (lo count : nat) (s : S)
    : outcome S :=
  match count with
  | O => Done s
  | Datatypes.S count' =>
      let* s := body lo s in
      for_loop body (Datatypes.S lo) count' s
  end.

(** [NADINE_I_INDEX(endian, i)], with [n] the enclosing function's local. *)
Definition NADINE_I_INDEX (n : nat) (endian : Z) (i : nat) : nat :=
  Nat.lxor (if Z.land endian 1 =? 0 then i else n - i - 1)
           (if Z.land endian 2 =? 0 then 0 else 1).

(** The shift strategy of [NADINE_I_IMPL_RW_UI(T, N)], reading:
    [v |= (T)(src[NADINE_I_INDEX(endian, i)]) << (CHAR_BIT * i)]. *)
Definition read_shift (signed : bool) (n : nat) (endian : Z) (src : list Z) : outcome Z :=
  for_loop (fun i v =>
      let* b := load src (NADINE_I_INDEX n endian i) in
      Done (int_cast signed n
              (Z.lor v (Z.shiftl (int_cast signed n b) (CHAR_BIT * Z.of_nat i)))))
    0 n 0.

(** The shift strategy, writing:
    [dst[NADINE_I_INDEX(endian, i)] = (unsigned char)(v >> (CHAR_BIT * i))]. *)
Definition write_shift (n : nat) (endian : Z) (dst : list Z) (v : Z) : outcome (list Z) :=
  for_loop (fun i dst =>
      store dst (NADINE_I_INDEX n endian i)
            (Z.shiftr v (CHAR_BIT * Z.of_nat i) mod 2 ^ CHAR_BIT))
    0 n dst.

(** The copy strategy, reading; the local punner starts out as [sizeof(T)]
    bytes that the copy overwrites. *)
Definition read_copy {V : Type} (T : ctype V) (native endian : Z) (s : list Z)
    : outcome V :=
  let* p := nadine_i_memcpy (replicate (sizeof T) 0) s (sizeof T) in
  let* p := nadine_i_xform p (sizeof T) (Z.lxor native endian) in
  Done (type_unpun T p).

(** The copy strategy, writing. *)
Definition write_copy {V : Type} (T : ctype V) (native endian : Z) (d : list Z) (v : V)
    : outcome (list Z) :=
  let* p := nadine_i_xform (type_pun T v) (sizeof T) (Z.lxor native endian) in
  nadine_i_memcpy d p (sizeof T).

(** [NADINE_I_IMPL_RW_UI(T, N)], which [NADINE_I_IMPL_RW_SI] reuses with the
    signed [T]. *)
Definition nadine_read_int (C : config) (signed : bool) (T : ctype Z) (endian : Z)
    (s : list Z) : outcome Z :=
  if NADINE_I_USE_SHIFT_RW C then read_shift signed (sizeof T) endian s
  else
    let* native := NADINE_I_NATIVE_INT C T in
    read_copy T native endian s.

Definition nadine_write_int (C : config) (T : ctype Z) (endian : Z) (d : list Z) (v : Z)
    : outcome (list Z) :=
  if NADINE_I_USE_SHIFT_RW C then write_shift (sizeof T) endian d v
  else
    let* native := NADINE_I_NATIVE_INT C T in
    write_copy T native endian d v.

(** [NADINE_I_IMPL_RW_F(T, N)]. *)
Definition nadine_read_f (C : config) {V : Type} (T : ctype V) (two : V) (endian : Z)
    (s : list Z) : outcome V :=
  let* native := NADINE_I_NATIVE_FLOAT C T two in
  read_copy T native endian s.

Definition nadine_write_f (C : config) {V : Type} (T : ctype V) (two : V) (endian : Z)
    (d : list Z) (v : V) : outcome (list Z) :=
  let* native := NADINE_I_NATIVE_FLOAT C T two in
  write_copy T native endian d v.

Definition nadine_read (C : config) (s : scalar) (endian : Z) (src : list Z)
    : outcome (value s) :=
  match s with
  | Unsigned T => nadine_read_int C false T endian src
  | Signed T _ => nadine_read_int C true T endian src
  | Floating _ T two _ => nadine_read_f C T two endian src
  end.

Definition nadine_write (C : config) (s : scalar) (endian : Z) (dst : list Z)
    : value s -> outcome (list Z) :=
  match s with
  | Unsigned T | Signed T _ => nadine_write_int C T endian dst
  | Floating _ T two _ => nadine_write_f C T two endian dst
  end.

(** ** What the header requires of a type and of the host *)

(** [T] holds exactly the values satisfying [ok], in [sizeof T] bytes none of
    which is padding (the header's static assertions for the integer types):
    punning and unpunning are inverse to each other. *)
Record unpadded {V : Type} (T : ctype V) (ok : V -> Prop) : Prop := {
  pun_length : forall v, ok v -> length (type_pun T v) = sizeof T;
  pun_uchar : forall v, ok v -> Forall is_uchar (type_pun T v);
  unpun_ok : forall p, length p = sizeof T -> Forall is_uchar p -> ok (type_unpun T p);
  unpun_pun : forall v, ok v -> type_unpun T (type_pun T v) = v;
  pun_unpun : forall p,
    length p = sizeof T -> Forall is_uchar p -> type_pun T (type_unpun T p) = p
}.

(** At most one byte of [p] is nonzero. *)
Definition one_hot (p : list Z) : Prop :=
  forall i j x y, p !! i = Some x -> p !! j = Some y -> x <> 0 -> y <> 0 -> i = j.

(** The values of a type. *)
Definition in_range (s : scalar) : value s -> Prop :=
  match s with
  | Unsigned T => int_range false (sizeof T)
  | Signed T _ => int_range true (sizeof T)
  | Floating _ _ _ ok => ok
  end.

(** A supported row of the type table: at least two bytes, an even number of
    them, no padding; a signed type and its unsigned counterpart have the
    same size and store the value 1 alike; 2.0 is a value of a
    floating-point type and only one of its bytes is set, as in IEEE 754. *)
Definition supported (s : scalar) : Prop :=
  (2 <= size_of s)%nat /\ Nat.even (size_of s) = true /\
  match s with
  | Unsigned T => unpadded T (int_range false (sizeof T))
  | Signed T TU =>
      unpadded T (int_range true (sizeof T)) /\
      unpadded TU (int_range false (sizeof TU)) /\
      sizeof TU = sizeof T /\
      type_pun TU 1 = type_pun T 1
  | Floating _ T two ok => unpadded T ok /\ ok two /\ one_hot (type_pun T two)
  end.

(** The [n] bytes of [v] from least to most significant, two's complement
    for a negative [v]. *)
Definition le_bytes (n : nat) (v : Z) : list Z :=
  (fun i : nat => Z.shiftr v (CHAR_BIT * Z.of_nat i) mod 2 ^ CHAR_BIT) <$> seq 0 n.

(** The unsigned integer whose bytes, least significant first, are [l]. *)
Fixpoint le_value (l : list Z) : Z :=
  match l with
  | [] => 0
  | b :: l' => b + 2 ^ CHAR_BIT * le_value l'
  end.

(** The unsigned integer of [n] bytes whose bytes are those of [v] in the
    opposite order. *)
Definition word_reverse (n : nat) (v : Z) : Z :=
  le_value (reverse (le_bytes n v)).

(** Whether the [switch] of special case #2 returns for the size of [T]. *)
Definition switch_returns (C : config) (T : ctype Z) : bool :=
  match sizeof T with
  | 2%nat | 4%nat => true
  | 8%nat => NADINE_I_WREV8_defined C
  | _ => false
  end.

(** The native order a conversion works from: [NADINE_I_NATIVE_INT] of the
    type itself or, for a signed type, of its unsigned counterpart, and
    [NADINE_I_NATIVE_FLOAT] of a floating type. *)
Definition conversion_native (C : config) (s : scalar) : outcome Z :=
  match s with
  | Unsigned T => NADINE_I_NATIVE_INT C T
  | Signed _ TU => NADINE_I_NATIVE_INT C TU
  | Floating _ T two _ => NADINE_I_NATIVE_FLOAT C T two
  end.

(** The configuration [C] with the read/write strategy chosen by [shift]. *)
Definition with_shift_rw (shift : bool) (C : config) : config := {|
  UINT_MAX := UINT_MAX C;
  NADINE_NATIVE_ENDIAN_INT := NADINE_NATIVE_ENDIAN_INT C;
  NADINE_NATIVE_ENDIAN_FLOAT := NADINE_NATIVE_ENDIAN_FLOAT C;
  NADINE_I_C99 := NADINE_I_C99 C;
  NADINE_I_WREV8_defined := NADINE_I_WREV8_defined C;
  NADINE_I_USE_SHIFT_RW := shift
|}.

(** The fast-path macro for a size of 2, 4 or 8 bytes. *)
Definition NADINE_I_WREV (n : nat) : (Z -> Z) -> Z -> Z :=
  match n with
  | 2%nat => NADINE_I_WREV2
  | 4%nat => NADINE_I_WREV4
  | _ => NADINE_I_WREV8
  end.

(** A little-endian 32-bit build with every optional path compiled in. *)
Definition config_le32 : config := {|
  UINT_MAX := 4294967295;
  NADINE_NATIVE_ENDIAN_INT := None;
  NADINE_NATIVE_ENDIAN_FLOAT := None;
  NADINE_I_C99 := true;
  NADINE_I_WREV8_defined := true;
  NADINE_I_USE_SHIFT_RW := true
|}.

(** The same build with the copy strategy for reading and writing. *)
Definition config_copy : config := {|
  UINT_MAX := 4294967295;
  NADINE_NATIVE_ENDIAN_INT := None;
  NADINE_NATIVE_ENDIAN_FLOAT := None;
  NADINE_I_C99 := false;
  NADINE_I_WREV8_defined := true;
  NADINE_I_USE_SHIFT_RW := false
|}.

(** The byte sequence of [v] in byte order [o]: little-endian is least to
    most significant, big-endian the reverse, and the swap-chars flag
    exchanges adjacent pairs. *)
Definition byte_order (o : Z) (n : nat) (v : Z) : list Z :=
  transform o (le_bytes n v).

(** The host stores integer type [T] in byte order [o]. *)
Definition stored_in_order (signed : bool) (T : ctype Z) (o : Z) : Prop :=
  forall v, int_range signed (sizeof T) v -> type_pun T v = byte_order o (sizeof T) v.

(** The integer type of [n] bytes on a host of byte order [o]. *)
Definition host_int (signed : bool) (o : Z) (n : nat) : ctype Z := {|
  sizeof := n;
  type_pun := byte_order o n;
  type_unpun := fun p => int_cast signed n (le_value (transform o p))
|}.

(** The 32-bit floating type on a host of byte order [o], its values
    identified with their IEEE 754 bit patterns; 2.0 is [0x40000000]. *)
Definition host_binary32 (o : Z) : scalar :=
  Floating Z (host_int false o 4) 0x40000000 (int_range false 4).

(** ** A host outside the four orders *)

(** A 64-bit unsigned integer stored as two little-endian 32-bit words, the
    most significant word first: none of the four orders. *)
Definition swap_words (p : list Z) : list Z := drop 4 p ++ take 4 p.

Definition host_words64 : ctype Z := {|
  sizeof := 8;
  type_pun := fun v => swap_words (le_bytes 8 v);
  type_unpun := fun p => int_cast false 8 (le_value (swap_words p))
|}.

(** A PDP-11 build under GCC: [__BYTE_ORDER__ == __ORDER_PDP_ENDIAN__] sets
    [NADINE_NATIVE_ENDIAN_INT] to [NADINE_ENDIAN_BIG | NADINE_ENDIAN_SWAPCHARS];
    [int] has 16 bits. *)
Definition config_pdp : config := {|
  UINT_MAX := 65535;
  NADINE_NATIVE_ENDIAN_INT := Some (Z.lor NADINE_ENDIAN_BIG NADINE_ENDIAN_SWAPCHARS);
  NADINE_NATIVE_ENDIAN_FLOAT := None;
  NADINE_I_C99 := true;
  NADINE_I_WREV8_defined := true;
  NADINE_I_USE_SHIFT_RW := false
|}.

(** ** The [convert_from] and [convert_to] aliases *)

(** [NADINE_I_IMPL_CVTAL(T, N)]: both call the conversion. *)
Definition nadine_convert_from (C : config) (s : scalar) (endian : Z)
    (v : value s) : outcome (value s) :=
  nadine_convert C s endian v.

Definition nadine_convert_to (C : config) (s : scalar) (endian : Z)
    (v : value s) : outcome (value s) :=
  nadine_convert C s endian v.

(** ** The test program, [nadine_test.c]

    Integer values are compared as integers; a floating-point value is its
    IEEE 754 bit pattern, and [==] against 7.0 is equality of patterns.  The
    messages are left out.  Each buffer starts out indeterminate and is
    filled before it is read. *)

(** [verify(line, cond, msg)]: 1 for a failed assertion. *)
Definition verify (cond : bool) : Z := if cond then 0 else 1.

(** [buf[i] == x0 && buf[i + 1] == x1 && ...], evaluated left to right. *)
Fixpoint bytes_equal (buf : list Z) (i : nat) (xs : list Z) : outcome bool :=
  match xs with
  | [] => Done true
  | x :: xs =>
      let* b := load buf i in
      if b =? x then bytes_equal buf (Datatypes.S i) xs else Done false
  end.

(** [buf[i] = x0, buf[i + 1] = x1, ...]. *)
Fixpoint store_bytes (buf : list Z) (i : nat) (xs : list Z) : outcome (list Z) :=
  match xs with
  | [] => Done buf
  | x :: xs =>
      let* buf := store buf i x in
      store_bytes buf (Datatypes.S i) xs
  end.

(** [test_uint16], for [T] the type [uint16_t]. *)
Definition test_uint16 (C : config) (T : ctype Z) : outcome Z :=
  let failed := 0 in
  let vbe := 0x0102 in
  let vle := 0x0201 in
  let buf := replicate (sizeof T) 0 in
  let* buf := nadine_i_memcpy buf (type_pun T vbe) (sizeof T) in
  let* b0 := load buf 0 in
  let* b1 := load buf 1 in
  let big := b0 <? b1 in
  let* failed :=
    if big then
      let* c := nadine_convert_ui C T NADINE_ENDIAN_BIG vbe in
      let failed := failed + verify (c =? vbe) in
      let* c := nadine_convert_ui C T NADINE_ENDIAN_LITTLE vbe in
      Done (failed + verify (c =? vle))
    else
      let* e := nadine_endian_native_int C T in
      let failed := failed + verify (e =? NADINE_ENDIAN_LITTLE) in
      let* c := nadine_convert_ui C T NADINE_ENDIAN_BIG vbe in
      let failed := failed + verify (c =? vle) in
      let* c := nadine_convert_ui C T NADINE_ENDIAN_LITTLE vbe in
      Done (failed + verify (c =? vbe)) in
  let* buf := store_bytes buf 0 [1; 2] in
  let* r := nadine_read_int C false T NADINE_ENDIAN_BIG buf in
  let failed := failed + verify (r =? vbe) in
  let* r := nadine_read_int C false T NADINE_ENDIAN_LITTLE buf in
  let failed := failed + verify (r =? vle) in
  let* buf := nadine_write_int C T NADINE_ENDIAN_BIG buf vbe in
  let* ok := bytes_equal buf 0 [1; 2] in
  let failed := failed + verify ok in
  let* buf := nadine_write_int C T NADINE_ENDIAN_LITTLE buf vbe in
  let* ok := bytes_equal buf 0 [2; 1] in
  Done (failed + verify ok).

(** [test_int16], for [T] the type [int16_t] and [TU] the type [uint16_t]. *)
Definition test_int16 (C : config) (T TU : ctype Z) : outcome Z :=
  let failed := 0 in
  let vbe := 0x0102 in
  let vle := 0x0201 in
  let buf := replicate (sizeof T) 0 in
  let* buf := nadine_i_memcpy buf (type_pun T vbe) (sizeof T) in
  let* b0 := load buf 0 in
  let* b1 := load buf 1 in
  let big := b0 <? b1 in
  let* failed :=
    if big then
      let* e := nadine_endian_native_int C T in
      let failed := failed + verify (e =? NADINE_ENDIAN_BIG) in
      let* c := nadine_convert_si C T TU NADINE_ENDIAN_BIG vbe in
      let failed := failed + verify (c =? vbe) in
      let* c := nadine_convert_si C T TU NADINE_ENDIAN_LITTLE vbe in
      Done (failed + verify (c =? vle))
    else
      let* e := nadine_endian_native_int C T in
      let failed := failed + verify (e =? NADINE_ENDIAN_LITTLE) in
      let* c := nadine_convert_si C T TU NADINE_ENDIAN_BIG vbe in
      let failed := failed + verify (c =? vle) in
      let* c := nadine_convert_si C T TU NADINE_ENDIAN_LITTLE vbe in
      Done (failed + verify (c =? vbe)) in
  let* buf := store_bytes buf 0 [1; 2] in
  let* r := nadine_read_int C true T NADINE_ENDIAN_BIG buf in
  let failed := failed + verify (r =? vbe) in
  let* r := nadine_read_int C true T NADINE_ENDIAN_LITTLE buf in
  let failed := failed + verify (r =? vle) in
  let* buf := nadine_write_int C T NADINE_ENDIAN_BIG buf vbe in
  let* ok := bytes_equal buf 0 [1; 2] in
  let failed := failed + verify ok in
  let* buf := nadine_write_int C T NADINE_ENDIAN_LITTLE buf vbe in
  let* ok := bytes_equal buf 0 [2; 1] in
  Done (failed + verify ok).

(** [test_uint32], for [T] the type [uint32_t]. *)
Definition test_uint32 (C : config) (T : ctype Z) : outcome Z :=
  let failed := 0 in
  let vbe := 0x01020304 in
  let vle := 0x04030201 in
  let buf := replicate (sizeof T) 0 in
  let* buf := nadine_i_memcpy buf (type_pun T vbe) (sizeof T) in
  let* b0 := load buf 0 in
  let* b1 := load buf 1 in
  let big := b0 <? b1 in
  let* ba := load buf 1 in
  let* bb := load buf 2 in
  let straight := if big then ba <? bb else ba >? bb in
  let* failed :=
    if straight then
      if big then
        let* e := nadine_endian_native_int C T in
        let failed := failed + verify (e =? NADINE_ENDIAN_BIG) in
        let* c := nadine_convert_ui C T NADINE_ENDIAN_BIG vbe in
        let failed := failed + verify (c =? vbe) in
        let* c := nadine_convert_ui C T NADINE_ENDIAN_LITTLE vbe in
        Done (failed + verify (c =? vle))
      else
        let* e := nadine_endian_native_int C T in
        let failed := failed + verify (e =? NADINE_ENDIAN_LITTLE) in
        let* c := nadine_convert_ui C T NADINE_ENDIAN_BIG vbe in
        let failed := failed + verify (c =? vle) in
        let* c := nadine_convert_ui C T NADINE_ENDIAN_LITTLE vbe in
        Done (failed + verify (c =? vbe))
    else Done failed in
  let* buf := store_bytes buf 0 [1; 2; 3; 4] in
  let* r := nadine_read_int C false T NADINE_ENDIAN_BIG buf in
  let failed := failed + verify (r =? vbe) in
  let* r := nadine_read_int C false T NADINE_ENDIAN_LITTLE buf in
  let failed := failed + verify (r =? vle) in
  let* buf := nadine_write_int C T NADINE_ENDIAN_BIG buf vbe in
  let* ok := bytes_equal buf 0 [1; 2; 3; 4] in
  let failed := failed + verify ok in
  let* buf := nadine_write_int C T NADINE_ENDIAN_LITTLE buf vbe in
  let* ok := bytes_equal buf 0 [4; 3; 2; 1] in
  let failed := failed + verify ok in
  let* buf := nadine_write_int C T (Z.lor NADINE_ENDIAN_BIG NADINE_ENDIAN_SWAPCHARS) buf vbe in
  let* ok := bytes_equal buf 0 [2; 1; 4; 3] in
  let failed := failed + verify ok in
  let* buf := nadine_write_int C T (Z.lor NADINE_ENDIAN_LITTLE NADINE_ENDIAN_SWAPCHARS) buf vbe in
  let* ok := bytes_equal buf 0 [3; 4; 1; 2] in
  Done (failed + verify ok).

(** [test_int32], for [T] the type [int32_t] and [TU] the type [uint32_t]. *)
Definition test_int32 (C : config) (T TU : ctype Z) : outcome Z :=
  let failed := 0 in
  let vbe := 0x01020304 in
  let vle := 0x04030201 in
  let buf := replicate (sizeof T) 0 in
  let* buf := nadine_i_memcpy buf (type_pun T vbe) (sizeof T) in
  let* b0 := load buf 0 in
  let* b1 := load buf 1 in
  let big := b0 <? b1 in
  let* ba := load buf 1 in
  let* bb := load buf 2 in
  let straight := if big then ba <? bb else ba >? bb in
  let* failed :=
    if straight then
      if big then
        let* e := nadine_endian_native_int C T in
        let failed := failed + verify (e =? NADINE_ENDIAN_BIG) in
        let* c := nadine_convert_si C T TU NADINE_ENDIAN_BIG vbe in
        let failed := failed + verify (c =? vbe) in
        let* c := nadine_convert_si C T TU NADINE_ENDIAN_LITTLE vbe in
        Done (failed + verify (c =? vle))
      else
        let* e := nadine_endian_native_int C T in
        let failed := failed + verify (e =? NADINE_ENDIAN_LITTLE) in
        let* c := nadine_convert_si C T TU NADINE_ENDIAN_BIG vbe in
        let failed := failed + verify (c =? vle) in
        let* c := nadine_convert_si C T TU NADINE_ENDIAN_LITTLE vbe in
        Done (failed + verify (c =? vbe))
    else Done failed in
  let* buf := store_bytes buf 0 [1; 2; 3; 4] in
  let* r := nadine_read_int C true T NADINE_ENDIAN_BIG buf in
  let failed := failed + verify (r =? vbe) in
  let* r := nadine_read_int C true T NADINE_ENDIAN_LITTLE buf in
  let failed := failed + verify (r =? vle) in
  let* buf := nadine_write_int C T NADINE_ENDIAN_BIG buf vbe in
  let* ok := bytes_equal buf 0 [1; 2; 3; 4] in
  let failed := failed + verify ok in
  let* buf := nadine_write_int C T NADINE_ENDIAN_LITTLE buf vbe in
  let* ok := bytes_equal buf 0 [4; 3; 2; 1] in
  let failed := failed + verify ok in
  let* buf := nadine_write_int C T (Z.lor NADINE_ENDIAN_BIG NADINE_ENDIAN_SWAPCHARS) buf vbe in
  let* ok := bytes_equal buf 0 [2; 1; 4; 3] in
  let failed := failed + verify ok in
  let* buf := nadine_write_int C T (Z.lor NADINE_ENDIAN_LITTLE NADINE_ENDIAN_SWAPCHARS) buf vbe in
  let* ok := bytes_equal buf 0 [3; 4; 1; 2] in
  Done (failed + verify ok).

(** [test_uint64], for [T] the type [uint64_t]. *)
Definition test_uint64 (C : config) (T : ctype Z) : outcome Z :=
  let failed := 0 in
  let vbe := 0x0102030405060708 in
  let vle := 0x0807060504030201 in
  let buf := replicate (sizeof T) 0 in
  let* buf := nadine_i_memcpy buf (type_pun T vbe) (sizeof T) in
  let* b0 := load buf 0 in
  let* b1 := load buf 1 in
  let big := b0 <? b1 in
  let* ba := load buf 3 in
  let* bb := load buf 4 in
  let straight := if big then ba <? bb else ba >? bb in
  let* failed :=
    if straight then
      if big then
        let* e := nadine_endian_native_int C T in
        let failed := failed + verify (e =? NADINE_ENDIAN_BIG) in
        let* c := nadine_convert_ui C T NADINE_ENDIAN_BIG vbe in
        let failed := failed + verify (c =? vbe) in
        let* c := nadine_convert_ui C T NADINE_ENDIAN_LITTLE vbe in
        Done (failed + verify (c =? vle))
      else
        let* e := nadine_endian_native_int C T in
        let failed := failed + verify (e =? NADINE_ENDIAN_LITTLE) in
        let* c := nadine_convert_ui C T NADINE_ENDIAN_BIG vbe in
        let failed := failed + verify (c =? vle) in
        let* c := nadine_convert_ui C T NADINE_ENDIAN_LITTLE vbe in
        Done (failed + verify (c =? vbe))
    else Done failed in
  let* buf := store_bytes buf 0 [1; 2; 3; 4; 5; 6; 7; 8] in
  let* r := nadine_read_int C false T NADINE_ENDIAN_BIG buf in
  let failed := failed + verify (r =? vbe) in
  let* r := nadine_read_int C false T NADINE_ENDIAN_LITTLE buf in
  let failed := failed + verify (r =? vle) in
  let* buf := nadine_write_int C T NADINE_ENDIAN_BIG buf vbe in
  let* ok := bytes_equal buf 0 [1; 2; 3; 4; 5; 6; 7; 8] in
  let failed := failed + verify ok in
  let* buf := nadine_write_int C T NADINE_ENDIAN_LITTLE buf vbe in
  let* ok := bytes_equal buf 0 [8; 7; 6; 5; 4; 3; 2; 1] in
  Done (failed + verify ok).

(** [test_int64], for [T] the type [int64_t] and [TU] the type [uint64_t]. *)
Definition test_int64 (C : config) (T TU : ctype Z) : outcome Z :=
  let failed := 0 in
  let vbe := 0x0102030405060708 in
  let vle := 0x0807060504030201 in
  let buf := replicate (sizeof T) 0 in
  let* buf := nadine_i_memcpy buf (type_pun T vbe) (sizeof T) in
  let* b0 := load buf 0 in
  let* b1 := load buf 1 in
  let big := b0 <? b1 in
  let* ba := load buf 3 in
  let* bb := load buf 4 in
  let straight := if big then ba <? bb else ba >? bb in
  let* failed :=
    if straight then
      if big then
        let* e := nadine_endian_native_int C T in
        let failed := failed + verify (e =? NADINE_ENDIAN_BIG) in
        let* c := nadine_convert_si C T TU NADINE_ENDIAN_BIG vbe in
        let failed := failed + verify (c =? vbe) in
        let* c := nadine_convert_si C T TU NADINE_ENDIAN_LITTLE vbe in
        Done (failed + verify (c =? vle))
      else
        let* e := nadine_endian_native_int C T in
        let failed := failed + verify (e =? NADINE_ENDIAN_LITTLE) in
        let* c := nadine_convert_si C T TU NADINE_ENDIAN_BIG vbe in
        let failed := failed + verify (c =? vle) in
        let* c := nadine_convert_si C T TU NADINE_ENDIAN_LITTLE vbe in
        Done (failed + verify (c =? vbe))
    else Done failed in
  let* buf := store_bytes buf 0 [1; 2; 3; 4; 5; 6; 7; 8] in
  let* r := nadine_read_int C true T NADINE_ENDIAN_BIG buf in
  let failed := failed + verify (r =? vbe) in
  let* r := nadine_read_int C true T NADINE_ENDIAN_LITTLE buf in
  let failed := failed + verify (r =? vle) in
  let* buf := nadine_write_int C T NADINE_ENDIAN_BIG buf vbe in
  let* ok := bytes_equal buf 0 [1; 2; 3; 4; 5; 6; 7; 8] in
  let failed := failed + verify ok in
  let* buf := nadine_write_int C T NADINE_ENDIAN_LITTLE buf vbe in
  let* ok := bytes_equal buf 0 [8; 7; 6; 5; 4; 3; 2; 1] in
  Done (failed + verify ok).

(** [test_float], for [T] the type [float]; [val] is 7.0 and [two] is 2.0. *)
Definition test_float (C : config) (T : ctype Z) : outcome Z :=
  let failed := 0 in
  let val := 0x40E00000 in
  let two := 0x40000000 in
  let buf := replicate (sizeof T) 0 in
  let* buf := nadine_i_memcpy buf (type_pun T val) (sizeof T) in
  let* e := nadine_endian_native_float C T two in
  let* failed :=
    if e =? NADINE_ENDIAN_LITTLE then
      let* ok := bytes_equal buf 0 [0x00; 0x00; 0xE0; 0x40] in
      Done (failed + verify ok)
    else if e =? NADINE_ENDIAN_BIG then
      let* ok := bytes_equal buf 0 [0x40; 0xE0; 0x00; 0x00] in
      Done (failed + verify ok)
    else Done failed in
  let* buf := store_bytes buf 0 [0x40; 0xE0; 0x00; 0x00] in
  let* r := nadine_read_f C T two NADINE_ENDIAN_BIG buf in
  let failed := failed + verify (r =? val) in
  let* buf := store_bytes buf 0 [0x00; 0x00; 0xE0; 0x40] in
  let* r := nadine_read_f C T two NADINE_ENDIAN_LITTLE buf in
  let failed := failed + verify (r =? val) in
  let* buf := nadine_write_f C T two NADINE_ENDIAN_BIG buf val in
  let* ok := bytes_equal buf 0 [0x40; 0xE0; 0x00; 0x00] in
  let failed := failed + verify ok in
  let* buf := nadine_write_f C T two NADINE_ENDIAN_LITTLE buf val in
  let* ok := bytes_equal buf 0 [0x00; 0x00; 0xE0; 0x40] in
  Done (failed + verify ok).

(** [test_double], for [T] the type [double]; [val] is 7.0 and [two] is 2.0. *)
Definition test_double (C : config) (T : ctype Z) : outcome Z :=
  let failed := 0 in
  let val := 0x401C000000000000 in
  let two := 0x4000000000000000 in
  let buf := replicate (sizeof T) 0 in
  let* buf := nadine_i_memcpy buf (type_pun T val) (sizeof T) in
  let* e := nadine_endian_native_float C T two in
  let* failed :=
    if e =? NADINE_ENDIAN_LITTLE then
      let* ok := bytes_equal buf 0 [0x00; 0x00; 0x00; 0x00; 0x00; 0x00; 0x1C; 0x40] in
      Done (failed + verify ok)
    else if e =? NADINE_ENDIAN_BIG then
      let* ok := bytes_equal buf 0 [0x40; 0x1C; 0x00; 0x00; 0x00; 0x00; 0x00; 0x00] in
      Done (failed + verify ok)
    else Done failed in
  let* buf := store_bytes buf 0 [0x40; 0x1C; 0x00; 0x00; 0x00; 0x00; 0x00; 0x00] in
  let* r := nadine_read_f C T two NADINE_ENDIAN_BIG buf in
  let failed := failed + verify (r =? val) in
  let* buf := store_bytes buf 0 [0x00; 0x00; 0x00; 0x00; 0x00; 0x00; 0x1C; 0x40] in
  let* r := nadine_read_f C T two NADINE_ENDIAN_LITTLE buf in
  let failed := failed + verify (r =? val) in
  let* buf := nadine_write_f C T two NADINE_ENDIAN_BIG buf val in
  let* ok := bytes_equal buf 0 [0x40; 0x1C; 0x00; 0x00; 0x00; 0x00; 0x00; 0x00] in
  let failed := failed + verify ok in
  let* buf := nadine_write_f C T two NADINE_ENDIAN_LITTLE buf val in
  let* ok := bytes_equal buf 0 [0x00; 0x00; 0x00; 0x00; 0x00; 0x00; 0x1C; 0x40] in
  Done (failed + verify ok).

(** The types the test program uses, as the platform provides them. *)
Record platform : Type := {
  uint16_t : ctype Z;
  int16_t : ctype Z;
  uint32_t : ctype Z;
  int32_t : ctype Z;
  uint64_t : ctype Z;
  int64_t : ctype Z;
  float_t : ctype Z;
  double_t : ctype Z
}.

Definition EXIT_SUCCESS : Z := 0.
Definition EXIT_FAILURE : Z := 1.

(** [main]; [NADINE_FLOAT] is the preprocessor switch around the last two
    tests. *)
Definition main (C : config) (P : platform) (NADINE_FLOAT : bool) : outcome Z :=
  let failed := 0 in
  let* r := test_uint16 C (uint16_t P) in
  let failed := failed + r in
  let* r := test_int16 C (int16_t P) (uint16_t P) in
  let failed := failed + r in
  let* r := test_uint32 C (uint32_t P) in
  let failed := failed + r in
  let* r := test_int32 C (int32_t P) (uint32_t P) in
  let failed := failed + r in
  let* r := test_uint64 C (uint64_t P) in
  let failed := failed + r in
  let* r := test_int64 C (int64_t P) (uint64_t P) in
  let failed := failed + r in
  let* failed :=
    if NADINE_FLOAT then
      let* r := test_float C (float_t P) in
      let failed := failed + r in
      let* r := test_double C (double_t P) in
      Done (failed + r)
    else Done failed in
  Done (if negb (failed =? 0) then EXIT_FAILURE else EXIT_SUCCESS).

(** The types of a platform that stores integers in order [hi] and
    floating-point numbers in order [hf]. *)
Definition host_platform (hi hf : Z) : platform := {|
  uint16_t := host_int false hi 2;
  int16_t := host_int true hi 2;
  uint32_t := host_int false hi 4;
  int32_t := host_int true hi 4;
  uint64_t := host_int false hi 8;
  int64_t := host_int true hi 8;
  float_t := host_int false hf 4;
  double_t := host_int false hf 8
|}.

(** [T] is the exact-width integer type of [n] bytes, signed or not, which
    the host stores without padding in byte order [h]. *)
Definition exact_width (signed : bool) (T : ctype Z) (n : nat) (h : Z) : Prop :=
  sizeof T = n /\ unpadded T (int_range signed n) /\ stored_in_order signed T h.

(** The platform stores the integer types in order [hi] and, as IEEE 754 bit
    patterns, the floating-point types in order [hf]. *)
Definition conforming (P : platform) (hi hf : Z) : Prop :=
  exact_width false (uint16_t P) 2 hi /\ exact_width true (int16_t P) 2 hi /\
  exact_width false (uint32_t P) 4 hi /\ exact_width true (int32_t P) 4 hi /\
  exact_width false (uint64_t P) 8 hi /\ exact_width true (int64_t P) 8 hi /\
  exact_width false (float_t P) 4 hf /\ exact_width false (double_t P) 8 hf.

(** The native order is detected automatically or configured as [h]. *)
Definition int_order_auto_or (C : config) (h : Z) : Prop :=
  NADINE_NATIVE_ENDIAN_INT C = None \/ NADINE_NATIVE_ENDIAN_INT C = Some h.

Definition float_order_auto_or (C : config) (h : Z) : Prop :=
  NADINE_NATIVE_ENDIAN_FLOAT C = None \/ NADINE_NATIVE_ENDIAN_FLOAT C = Some h.

Close Scope Z_scope.

(** * Proofs *)

(** ** The outcome monad *)

Lemma bind_Done {A B : Type} (m : outcome A) (k : A -> outcome B) (b : B) :
  bind m k = Done b <-> exists a, m = Done a /\ k a = Done b.
Proof.
  destruct m as [a| |]; simpl; split.
  - intros H. exists a. auto.
  - intros (a' & Ha & Hk). injection Ha as ->. exact Hk.
  - discriminate.
  - intros (a' & Ha & _). discriminate.
  - discriminate.
  - intros (a' & Ha & _). discriminate.
Qed.

(** ** Checked accesses *)

Lemma load_Done (p : list Z) (i : nat) (x : Z) :
  p !! i = Some x -> load p i = Done x.
Proof. unfold load. intros ->. reflexivity. Qed.

Lemma store_Done (p : list Z) (i : nat) (x : Z) :
  i < length p -> store p i x = Done (<[i:=x]> p).
Proof. unfold store. intros H. rewrite decide_True by exact H. reflexivity. Qed.

(** Swapping the ends of a segment [x :: mid ++ [y]] found after [l1]. *)
Lemma BSWAP_segment (l1 mid l2 : list Z) (x y : Z) :
  NADINE_I_BSWAP (l1 ++ x :: mid ++ y :: l2) (length l1) (length l1 + S (length mid))
  = Done (l1 ++ y :: mid ++ x :: l2).
Proof.
  unfold NADINE_I_BSWAP.
  rewrite (load_Done _ _ x) by (apply list_lookup_middle; reflexivity).
  simpl.
  assert (Hy : (l1 ++ x :: mid ++ y :: l2) !! (length l1 + S (length mid)) = Some y).
  { rewrite lookup_app_r by lia.
    replace (length l1 + S (length mid) - length l1) with (S (length mid)) by lia.
    simpl. apply list_lookup_middle. reflexivity. }
  rewrite (load_Done _ _ y Hy). simpl.
  rewrite store_Done by (rewrite length_app; simpl; lia). simpl.
  rewrite store_Done
    by (rewrite length_insert, length_app; simpl; rewrite length_app; simpl; lia).
  f_equal.
  replace (length l1) with (length l1 + 0) at 2 by lia.
  rewrite insert_app_r. simpl.
  rewrite insert_app_r. simpl. f_equal. f_equal.
  replace (length mid) with (length mid + 0) by lia.
  rewrite insert_app_r. reflexivity.
Qed.

(** ** Reversal: the two-pointer walk and the special cases *)

Lemma memrev_loop_segment (fuel : nat) :
  forall l1 mid l2 : list Z,
    length mid <= 2 * fuel + 1 ->
    memrev_loop fuel (l1 ++ mid ++ l2) (length l1) (length l1 + length mid - 1)
    = Done (l1 ++ reverse mid ++ l2).
Proof.
  induction fuel as [|fuel IH]; intros l1 mid l2 Hfuel.
  - destruct mid as [|x [|y mid]]; simpl in Hfuel; try lia; simpl.
    + destruct (length l1 <? length l1 + 0 - 1) eqn:E; [|reflexivity].
      apply Nat.ltb_lt in E. lia.
    + destruct (length l1 <? length l1 + 1 - 1) eqn:E; [|reflexivity].
      apply Nat.ltb_lt in E. lia.
  - destruct mid as [|x mid].
    { simpl. destruct (length l1 <? length l1 + 0 - 1) eqn:E; [|reflexivity].
      apply Nat.ltb_lt in E. lia. }
    destruct mid as [|y mid _] using rev_ind.
    { simpl. destruct (length l1 <? length l1 + 1 - 1) eqn:E; [|reflexivity].
      apply Nat.ltb_lt in E. lia. }
    simpl length in *. rewrite length_app in *. simpl length in *.
    cbn [memrev_loop].
    destruct (length l1 <? length l1 + S (length mid + 1) - 1) eqn:E;
      [|apply Nat.ltb_ge in E; lia].
    replace (length l1 + S (length mid + 1) - 1) with (length l1 + S (length mid)) by lia.
    replace ((x :: mid ++ [y]) ++ l2) with (x :: mid ++ y :: l2)
      by (simpl; rewrite <- app_assoc; reflexivity).
    rewrite BSWAP_segment. cbn [bind].
    specialize (IH (l1 ++ [y]) mid (x :: l2)).
    rewrite length_app in IH. simpl length in IH.
    replace (S (length l1)) with (length l1 + 1) by lia.
    replace (Init.Nat.pred (length l1 + S (length mid)))
      with (length l1 + 1 + length mid - 1) by lia.
    replace (l1 ++ y :: mid ++ x :: l2) with ((l1 ++ [y]) ++ mid ++ x :: l2)
      by (rewrite <- app_assoc; reflexivity).
    rewrite IH by lia.
    f_equal. rewrite reverse_cons, reverse_snoc.
    rewrite <- !app_assoc. reflexivity.
Qed.

(** The walk started by [nadine_i_memrev] reverses the first [n] bytes, for
    every [n], the special-cased ones included. *)
Lemma memrev_loop_reverse (p rest : list Z) (n : nat) :
  length p = n ->
  memrev_loop n (p ++ rest) 0 (n - 1) = Done (reverse p ++ rest).
Proof.
  intros <-.
  apply (memrev_loop_segment (length p) [] p rest). lia.
Qed.

Lemma nadine_i_memrev_reverse (p rest : list Z) (n : nat) :
  length p = n -> 1 <= n ->
  nadine_i_memrev (p ++ rest) n = Done (reverse p ++ rest).
Proof.
  intros Hlen Hn.
  destruct n as [|[|[|[|[|[|[|[|[|n]]]]]]]]]; try lia;
    try (apply memrev_loop_reverse; exact Hlen).
  - destruct p as [|a [|]]; try discriminate. reflexivity.
  - destruct p as [|a [|b [|]]]; try discriminate. reflexivity.
  - destruct p as [|a [|b [|c [|d [|]]]]]; try discriminate. reflexivity.
  - destruct p as [|a [|b [|c [|d [|e [|f [|g [|h [|]]]]]]]]]; try discriminate.
    reflexivity.
Qed.

(** ** Pair swap *)

Lemma byteswap_loop_segment (fuel : nat) :
  forall l1 mid l2 : list Z,
    length mid <= 2 * fuel + 1 ->
    byteswap_loop fuel (l1 ++ mid ++ l2) (length l1) (length l1 + length mid - 1)
    = Done (l1 ++ swap_pairs mid ++ l2).
Proof.
  induction fuel as [|fuel IH]; intros l1 mid l2 Hfuel.
  - destruct mid as [|x [|y mid]]; simpl in Hfuel; try lia; simpl.
    + destruct (length l1 <? length l1 + 0 - 1) eqn:E; [|reflexivity].
      apply Nat.ltb_lt in E. lia.
    + destruct (length l1 <? length l1 + 1 - 1) eqn:E; [|reflexivity].
      apply Nat.ltb_lt in E. lia.
  - destruct mid as [|x [|y mid]].
    { simpl. destruct (length l1 <? length l1 + 0 - 1) eqn:E; [|reflexivity].
      apply Nat.ltb_lt in E. lia. }
    { simpl. destruct (length l1 <? length l1 + 1 - 1) eqn:E; [|reflexivity].
      apply Nat.ltb_lt in E. lia. }
    simpl length in *. cbn [byteswap_loop].
    destruct (length l1 <? length l1 + S (S (length mid)) - 1) eqn:E;
      [|apply Nat.ltb_ge in E; lia].
    pose proof (BSWAP_segment l1 [] (mid ++ l2) x y) as Hswap.
    simpl in Hswap. simpl app.
    rewrite Hswap. cbn [bind].
    specialize (IH (l1 ++ [y; x]) mid l2).
    rewrite length_app in IH. simpl length in IH.
    replace (length l1 + S (S (length mid)) - 1)
      with (length l1 + 2 + length mid - 1) by lia.
    replace (l1 ++ y :: x :: mid ++ l2) with ((l1 ++ [y; x]) ++ mid ++ l2)
      by (rewrite <- app_assoc; reflexivity).
    rewrite IH by lia.
    rewrite <- app_assoc. reflexivity.
Qed.

Lemma nadine_i_byteswap_swap_pairs (p rest : list Z) (n : nat) :
  length p = n -> 1 <= n ->
  nadine_i_byteswap (p ++ rest) n = Done (swap_pairs p ++ rest).
Proof.
  intros <- Hn. unfold nadine_i_byteswap.
  destruct (length p) as [|n] eqn:E; [lia|]. rewrite <- E.
  apply (byteswap_loop_segment (length p) [] p rest). lia.
Qed.

(** ** The transform *)

Lemma land_pow2_eqb (x k : Z) :
  (0 <= k)%Z -> (Z.land x (2 ^ k) =? 0)%Z = negb (Z.testbit x k).
Proof.
  intros Hk. destruct (Z.testbit x k) eqn:E; simpl.
  - apply Z.eqb_neq. intros H.
    assert (Hb : Z.testbit (Z.land x (2 ^ k)) k = true).
    { rewrite Z.land_spec, E, Z.pow2_bits_true by lia. reflexivity. }
    rewrite H, Z.bits_0 in Hb. discriminate.
  - apply Z.eqb_eq. apply Z.bits_inj'. intros i Hi.
    rewrite Z.land_spec, Z.bits_0, Z.pow2_bits_eqb by lia.
    destruct (Z.eqb_spec k i) as [->|]; [rewrite E; reflexivity|apply andb_false_r].
Qed.

Lemma land_1_eqb (x : Z) : (Z.land x 1 =? 0)%Z = negb (Z.testbit x 0).
Proof. apply (land_pow2_eqb x 0). lia. Qed.

Lemma land_2_eqb (x : Z) : (Z.land x 2 =? 0)%Z = negb (Z.testbit x 1).
Proof. apply (land_pow2_eqb x 1). lia. Qed.

Lemma length_swap_pairs (l : list Z) : length (swap_pairs l) = length l.
Proof.
  assert (H : forall l : list Z,
             length (swap_pairs l) = length l /\
             forall x, length (swap_pairs (x :: l)) = length (x :: l)).
  { clear l. induction l as [|y l [IH1 IH2]]; split; try reflexivity.
    - apply IH2.
    - intros x. simpl. rewrite IH1. reflexivity. }
  apply H.
Qed.

Lemma length_transform (xf : Z) (l : list Z) : length (transform xf l) = length l.
Proof.
  unfold transform.
  destruct (Z.testbit xf 0), (Z.testbit xf 1);
    rewrite ?length_swap_pairs, ?length_reverse; reflexivity.
Qed.

(** [nadine_i_xform] applies exactly the permutation its code denotes to the
    first [n] bytes and leaves the rest alone. *)
Lemma nadine_i_xform_transform (p rest : list Z) (n : nat) (xf : Z) :
  length p = n -> 1 <= n ->
  nadine_i_xform (p ++ rest) n xf = Done (transform xf p ++ rest).
Proof.
  intros Hlen Hn. unfold nadine_i_xform, transform.
  rewrite land_1_eqb, land_2_eqb.
  destruct (Z.testbit xf 0), (Z.testbit xf 1); cbn [negb bind];
    rewrite ?nadine_i_memrev_reverse by assumption; cbn [bind];
    try reflexivity;
    apply nadine_i_byteswap_swap_pairs;
    rewrite ?length_reverse; assumption.
Qed.

Lemma nadine_i_xform_exact (p : list Z) (n : nat) (xf : Z) :
  length p = n -> 1 <= n ->
  nadine_i_xform p n xf = Done (transform xf p).
Proof.
  intros Hlen Hn.
  pose proof (nadine_i_xform_transform p [] n xf Hlen Hn) as H.
  rewrite !app_nil_r in H. exact H.
Qed.

(** Lists of even length, two elements at a time. *)
Lemma even_list_ind (P : list Z -> Prop) :
  P [] ->
  (forall x y l, Nat.even (length l) = true -> P l -> P (x :: y :: l)) ->
  forall l, Nat.even (length l) = true -> P l.
Proof.
  intros Hnil Hcons.
  assert (H : forall l : list Z,
             (Nat.even (length l) = true -> P l) /\
             (forall x, Nat.even (length (x :: l)) = true -> P (x :: l))).
  { induction l as [|y l [IH1 IH2]]; split.
    - intros _. exact Hnil.
    - intros x Hx. discriminate.
    - apply IH2.
    - intros x Hx. apply Hcons; [exact Hx|]. apply IH1. exact Hx. }
  intros l. apply H.
Qed.

Lemma swap_pairs_involutive (l : list Z) : swap_pairs (swap_pairs l) = l.
Proof.
  assert (H : forall l : list Z,
             swap_pairs (swap_pairs l) = l /\
             forall x, swap_pairs (swap_pairs (x :: l)) = x :: l).
  { clear l. induction l as [|y l [IH1 IH2]]; split; try reflexivity.
    - apply IH2.
    - intros x. simpl. rewrite IH1. reflexivity. }
  apply H.
Qed.

Lemma swap_pairs_app (l1 l2 : list Z) :
  Nat.even (length l1) = true ->
  swap_pairs (l1 ++ l2) = swap_pairs l1 ++ swap_pairs l2.
Proof.
  intros H. revert l1 H. apply (even_list_ind (fun l1 => _)).
  - reflexivity.
  - intros x y l _ IH. simpl. rewrite IH. reflexivity.
Qed.

(** On an even length the reversal and the pair swap commute. *)
Lemma reverse_swap_pairs (l : list Z) :
  Nat.even (length l) = true ->
  reverse (swap_pairs l) = swap_pairs (reverse l).
Proof.
  revert l. apply (even_list_ind (fun l => _)).
  - reflexivity.
  - intros x y l Hl IH. simpl.
    rewrite !reverse_cons, IH, <- !app_assoc. simpl.
    rewrite swap_pairs_app by (rewrite length_reverse; exact Hl).
    reflexivity.
Qed.

(** On an even length, transforms compose by exclusive or of their codes. *)
Lemma transform_compose (a b : Z) (l : list Z) :
  Nat.even (length l) = true ->
  transform a (transform b l) = transform (Z.lxor a b) l.
Proof.
  intros H. unfold transform. rewrite !Z.lxor_spec.
  destruct (Z.testbit a 0), (Z.testbit a 1), (Z.testbit b 0), (Z.testbit b 1);
    simpl;
    rewrite ?reverse_swap_pairs by (rewrite ?length_reverse; assumption);
    rewrite ?reverse_involutive, ?swap_pairs_involutive;
    rewrite ?reverse_swap_pairs by (rewrite ?length_reverse; assumption);
    rewrite ?reverse_involutive, ?swap_pairs_involutive;
    reflexivity.
Qed.

Lemma transform_0 (l : list Z) : transform 0 l = l.
Proof. reflexivity. Qed.

Lemma transform_involutive (xf : Z) (l : list Z) :
  Nat.even (length l) = true ->
  transform xf (transform xf l) = l.
Proof.
  intros H. rewrite transform_compose by assumption.
  rewrite Z.lxor_nilpotent. reflexivity.
Qed.

Lemma swap_pairs_Permutation (l : list Z) : swap_pairs l ≡ₚ l.
Proof.
  assert (H : forall l : list Z,
             swap_pairs l ≡ₚ l /\ forall x, swap_pairs (x :: l) ≡ₚ x :: l).
  { clear l. induction l as [|y l [IH1 IH2]]; split; try reflexivity.
    - apply IH2.
    - intros x. simpl. rewrite IH1. apply Permutation_swap. }
  apply H.
Qed.

Lemma Forall_transform (P : Z -> Prop) (xf : Z) (l : list Z) :
  Forall P l -> Forall P (transform xf l).
Proof.
  intros H. unfold transform.
  assert (H1 : Forall P (if Z.testbit xf 0 then reverse l else l)).
  { destruct (Z.testbit xf 0); [apply Forall_reverse|]; exact H. }
  destruct (Z.testbit xf 1); [|exact H1].
  rewrite swap_pairs_Permutation. exact H1.
Qed.

(** The pair swap by index: bytes [2k] and [2k+1] trade places. *)
Lemma swap_pairs_lookup (k : nat) :
  forall l : list Z,
    2 * k + 1 < length l ->
    swap_pairs l !! (2 * k) = l !! (2 * k + 1) /\
    swap_pairs l !! (2 * k + 1) = l !! (2 * k).
Proof.
  induction k as [|k IH]; intros l Hl.
  - destruct l as [|x [|y l]]; simpl in Hl; try lia. split; reflexivity.
  - destruct l as [|x [|y l]]; simpl in Hl; try lia.
    replace (2 * S k) with (S (S (2 * k))) by lia.
    simpl swap_pairs. simpl lookup. apply IH. lia.
Qed.

(** A trailing unpaired byte stays where it is. *)
Lemma swap_pairs_lookup_last (l : list Z) :
  Nat.odd (length l) = true ->
  swap_pairs l !! (length l - 1) = l !! (length l - 1).
Proof.
  assert (H : forall l : list Z,
    (Nat.odd (length l) = true ->
     swap_pairs l !! (length l - 1) = l !! (length l - 1)) /\
    (forall x, Nat.odd (length (x :: l)) = true ->
     swap_pairs (x :: l) !! (length (x :: l) - 1) = (x :: l) !! (length (x :: l) - 1))).
  { clear l. induction l as [|y l [IH1 IH2]]; split.
    - discriminate.
    - reflexivity.
    - apply IH2.
    - intros x Hx. simpl length in *.
      assert (Hl : Nat.odd (length l) = true).
      { rewrite !Nat.odd_succ in Hx. rewrite <- Nat.negb_even.
        rewrite Nat.even_succ in Hx. rewrite <- Nat.negb_even in Hx.
        destruct (Nat.even (length l)); [discriminate|reflexivity]. }
      specialize (IH1 Hl).
      destruct l as [|z l]; [discriminate|].
      simpl length in *.
      replace (S (S (S (length l))) - 1) with (S (S (S (length l) - 1))) by lia.
      simpl swap_pairs in *. exact IH1. }
  apply H.
Qed.

(** C7: on a span of [n >= 1] bytes [nadine_i_xform] returns, and its result
    is the span reversed end to end exactly when bit 0 of the code is set,
    then pair-swapped (byte [2k] exchanged with byte [2k+1]) exactly when bit
    1 is set, the reversal first; the reversal that [nadine_i_memrev]
    performs, special-cased for 1, 2, 4 and 8 bytes, is the one the general
    two-pointer walk performs on the same span. *)
Theorem xform_realizes_code (p : list Z) (n : nat) (xf : Z) :
  length p = n -> 1 <= n ->
  nadine_i_xform p n xf =
    Done (let r := if Z.testbit xf 0 then reverse p else p in
          if Z.testbit xf 1 then swap_pairs r else r) /\
  nadine_i_memrev p n = Done (reverse p) /\
  memrev_loop n p 0 (n - 1) = nadine_i_memrev p n /\
  (forall q k, length q = n -> 2 * k + 1 < n ->
     swap_pairs q !! (2 * k) = q !! (2 * k + 1) /\
     swap_pairs q !! (2 * k + 1) = q !! (2 * k)).
Proof.
  intros Hlen Hn.
  pose proof (nadine_i_memrev_reverse p [] n Hlen Hn) as Hrev.
  pose proof (memrev_loop_reverse p [] n Hlen) as Hloop.
  rewrite !app_nil_r in Hrev, Hloop.
  split; [|split; [|split]].
  - apply nadine_i_xform_exact; assumption.
  - exact Hrev.
  - rewrite Hrev. exact Hloop.
  - intros q k Hq Hk. apply swap_pairs_lookup. lia.
Qed.

Lemma xform_realizes_code_witness :
  length [1; 2; 3; 4]%Z = 4 /\ 1 <= 4 /\
  nadine_i_xform [1; 2; 3; 4]%Z 4 3 = Done [3; 4; 1; 2]%Z.
Proof.
  split; [reflexivity|]. split; [repeat constructor|].
  exact (proj1 (xform_realizes_code [1; 2; 3; 4]%Z 4 3 eq_refl
                  (le_S _ _ (le_S _ _ (le_S _ _ (le_n 1)))))).
Defined.

(** C10: for every span length [n >= 1], even or odd, [nadine_i_byteswap]
    returns within any iteration budget of at least [n / 2], reads and
    writes only bytes [0 .. n-1] (a buffer of exactly [n] bytes suffices and
    bytes beyond the span keep their values), exchanges bytes [2k] and [2k+1]
    of every pair lying inside the span, and leaves the last byte of an
    odd-length span, hence all of a one-byte span, unchanged. *)
Theorem byteswap_total_in_bounds (p rest : list Z) (n : nat) :
  length p = n -> 1 <= n ->
  exists q : list Z,
    nadine_i_byteswap (p ++ rest) n = Done (q ++ rest) /\
    (forall fuel, n <= 2 * fuel + 1 ->
       byteswap_loop fuel (p ++ rest) 0 (n - 1) = Done (q ++ rest)) /\
    length q = n /\
    (forall k, 2 * k + 1 < n ->
       q !! (2 * k) = p !! (2 * k + 1) /\ q !! (2 * k + 1) = p !! (2 * k)) /\
    (Nat.odd n = true -> q !! (n - 1) = p !! (n - 1)).
Proof.
  intros Hlen Hn. exists (swap_pairs p).
  split; [apply nadine_i_byteswap_swap_pairs; assumption|].
  split.
  { intros fuel Hfuel. subst n.
    apply (byteswap_loop_segment fuel [] p rest). exact Hfuel. }
  split; [rewrite length_swap_pairs; exact Hlen|].
  subst n. split.
  - intros k Hk. apply swap_pairs_lookup. exact Hk.
  - apply swap_pairs_lookup_last.
Qed.

Lemma byteswap_total_in_bounds_witness :
  length [1; 2; 3]%Z = 3 /\ 1 <= 3 /\
  exists q : list Z,
    nadine_i_byteswap ([1; 2; 3]%Z ++ [9]%Z) 3 = Done (q ++ [9]%Z) /\
    q !! 2 = Some 3%Z.
Proof.
  split; [reflexivity|]. split; [repeat constructor|].
  destruct (byteswap_total_in_bounds [1; 2; 3]%Z [9]%Z 3 eq_refl
              (le_S _ _ (le_S _ _ (le_n 1)))) as (q & Hq & _ & _ & _ & Hodd).
  exists q. split; [exact Hq|]. exact (Hodd eq_refl).
Defined.

(** ** Bytes of an integer *)

Local Open Scope Z_scope.

Lemma le_bytes_S (n : nat) (v : Z) :
  le_bytes (S n) v = v mod 2 ^ CHAR_BIT :: le_bytes n (Z.shiftr v CHAR_BIT).
Proof.
  unfold le_bytes. simpl seq. rewrite fmap_cons. f_equal.
  rewrite <- fmap_S_seq, <- list_fmap_compose.
  apply list_fmap_ext. intros i x _. simpl.
  rewrite Z.shiftr_shiftr by (unfold CHAR_BIT; lia).
  do 2 f_equal. unfold CHAR_BIT. lia.
Qed.

Lemma length_le_bytes (n : nat) (v : Z) : length (le_bytes n v) = n.
Proof. unfold le_bytes. rewrite length_fmap, length_seq. reflexivity. Qed.

Lemma le_bytes_uchar (n : nat) (v : Z) : Forall is_uchar (le_bytes n v).
Proof.
  unfold le_bytes. apply Forall_fmap, Forall_forall. intros i _. simpl.
  unfold is_uchar. apply Z.mod_pos_bound. unfold CHAR_BIT. lia.
Qed.

Lemma width_S (n : nat) : width (S n) = CHAR_BIT + width n.
Proof. unfold width. lia. Qed.

Lemma width_nonneg (n : nat) : 0 <= width n.
Proof. unfold width, CHAR_BIT. lia. Qed.

Lemma le_value_le_bytes (n : nat) :
  forall v, le_value (le_bytes n v) = v mod 2 ^ width n.
Proof.
  induction n as [|n IH]; intros v.
  - simpl. unfold width. simpl. rewrite Z.mod_1_r. reflexivity.
  - rewrite le_bytes_S. simpl le_value. rewrite IH.
    rewrite width_S, Z.pow_add_r by (pose proof (width_nonneg n); unfold CHAR_BIT; lia).
    rewrite Z.rem_mul_r by (pose proof (width_nonneg n); unfold CHAR_BIT; lia).
    rewrite Z.shiftr_div_pow2 by (unfold CHAR_BIT; lia). reflexivity.
Qed.

Lemma le_value_range (l : list Z) :
  Forall is_uchar l -> 0 <= le_value l < 2 ^ width (length l).
Proof.
  induction 1 as [|b l Hb _ IH]; simpl le_value.
  - unfold width. simpl. lia.
  - simpl length. rewrite width_S, Z.pow_add_r
      by (pose proof (width_nonneg (length l)); unfold CHAR_BIT; lia).
    unfold is_uchar in Hb. nia.
Qed.

Lemma le_bytes_le_value (l : list Z) :
  Forall is_uchar l -> le_bytes (length l) (le_value l) = l.
Proof.
  induction 1 as [|b l Hb _ IH]; [reflexivity|].
  simpl length. rewrite le_bytes_S. simpl le_value.
  unfold is_uchar in Hb.
  rewrite Z.shiftr_div_pow2 by (unfold CHAR_BIT; lia).
  f_equal.
  - rewrite (Z.mul_comm (2 ^ CHAR_BIT)), Z.mod_add by (unfold CHAR_BIT; lia).
    apply Z.mod_small. exact Hb.
  - rewrite (Z.mul_comm (2 ^ CHAR_BIT)), Z.div_add by (unfold CHAR_BIT; lia).
    rewrite Z.div_small by exact Hb. exact IH.
Qed.

(** The bytes depend on the value modulo [2 ^ width n] only. *)
Lemma le_bytes_mod (n : nat) :
  forall v, le_bytes n (v mod 2 ^ width n) = le_bytes n v.
Proof.
  intros v.
  rewrite <- (le_value_le_bytes n v).
  rewrite <- (length_le_bytes n v) at 1.
  apply le_bytes_le_value, le_bytes_uchar.
Qed.

Lemma le_value_app (l1 l2 : list Z) :
  le_value (l1 ++ l2) = le_value l1 + 2 ^ width (length l1) * le_value l2.
Proof.
  induction l1 as [|b l1 IH]; simpl app; simpl le_value.
  - change (2 ^ width (length (@nil Z))) with 1. lia.
  - rewrite IH. simpl length.
    rewrite width_S, Z.pow_add_r
      by (pose proof (width_nonneg (length l1)); unfold CHAR_BIT; lia).
    ring.
Qed.

(** ** Integer conversions *)

Lemma pow_width_pos (n : nat) : 0 < 2 ^ width n.
Proof. apply Z.pow_pos_nonneg; [lia|apply width_nonneg]. Qed.

Lemma pow_width_half (n : nat) :
  (1 <= n)%nat -> 2 ^ width n = 2 * 2 ^ (width n - 1).
Proof.
  intros Hn. rewrite <- Z.pow_succ_r by (unfold width, CHAR_BIT; lia).
  f_equal. lia.
Qed.

Lemma int_cast_id (signed : bool) (n : nat) (v : Z) :
  (1 <= n)%nat -> int_range signed n v -> int_cast signed n v = v.
Proof.
  intros Hn. unfold int_range, int_cast. destruct signed; intros Hv.
  - pose proof (pow_width_half n Hn). rewrite Z.mod_small; lia.
  - apply Z.mod_small. exact Hv.
Qed.

Lemma int_cast_range (signed : bool) (n : nat) (x : Z) :
  (1 <= n)%nat -> int_range signed n (int_cast signed n x).
Proof.
  intros Hn. unfold int_range, int_cast.
  pose proof (pow_width_pos n). destruct signed.
  - pose proof (pow_width_half n Hn).
    pose proof (Z.mod_pos_bound (x + 2 ^ (width n - 1)) (2 ^ width n)). lia.
  - apply Z.mod_pos_bound. assumption.
Qed.

Lemma int_cast_mod (signed : bool) (n : nat) (x : Z) :
  int_cast signed n x mod 2 ^ width n = x mod 2 ^ width n.
Proof.
  unfold int_cast. pose proof (pow_width_pos n). destruct signed.
  - rewrite <- Zminus_mod_idemp_l, Z.mod_mod by lia.
    rewrite Zminus_mod_idemp_l. f_equal. lia.
  - apply Z.mod_mod. lia.
Qed.

Lemma int_cast_mod_l (signed : bool) (n : nat) (x : Z) :
  (1 <= n)%nat -> int_cast signed n (x mod 2 ^ width n) = int_cast signed n x.
Proof.
  intros Hn. unfold int_cast. pose proof (pow_width_pos n). destruct signed.
  - rewrite Zplus_mod_idemp_l. reflexivity.
  - apply Z.mod_mod. lia.
Qed.

Lemma le_bytes_int_cast (signed : bool) (n : nat) (x : Z) :
  le_bytes n (int_cast signed n x) = le_bytes n x.
Proof.
  rewrite <- (le_bytes_mod n (int_cast signed n x)), int_cast_mod.
  apply le_bytes_mod.
Qed.

(** ** The word reversals *)

Lemma land_byte_mask (x k : Z) :
  0 <= k -> Z.land x (255 * 2 ^ k) = (Z.shiftr x k mod 256) * 2 ^ k.
Proof.
  intros Hk. apply Z.bits_inj'. intros i Hi.
  rewrite Z.land_spec.
  rewrite <- !Z.shiftl_mul_pow2 by lia.
  destruct (Z.ltb_spec i k).
  - rewrite !Z.shiftl_spec_low by lia. apply andb_false_r.
  - rewrite !Z.shiftl_spec by lia.
    change 255 with (Z.ones 8). change 256 with (2 ^ 8).
    rewrite Z.testbit_ones_nonneg, Z.testbit_mod_pow2 by lia.
    rewrite Z.shiftr_spec by lia.
    replace (i - k + k) with i by lia. apply andb_comm.
Qed.

Lemma lor_disjoint (k hi lo : Z) :
  0 <= k -> 0 <= lo < 2 ^ k -> hi mod 2 ^ k = 0 -> Z.lor hi lo = hi + lo.
Proof.
  intros Hk Hlo Hhi.
  rewrite <- Z.add_lor_land.
  assert (H : Z.land hi lo = 0); [|rewrite H; lia].
  apply Z.bits_inj'. intros i Hi. rewrite Z.land_spec, Z.bits_0.
  destruct (Z.ltb_spec i k).
  - rewrite <- (Z.mod_pow2_bits_low hi k i) by lia. rewrite Hhi, Z.bits_0. reflexivity.
  - rewrite <- (Z.mod_small lo (2 ^ k)) by lia.
    rewrite Z.mod_pow2_bits_high by lia. apply andb_false_r.
Qed.


Ltac byte_atoms v :=
  change (CHAR_BIT * Z.of_nat 0) with 0; change (CHAR_BIT * Z.of_nat 1) with 8;
  change (CHAR_BIT * Z.of_nat 2) with 16; change (CHAR_BIT * Z.of_nat 3) with 24;
  change (CHAR_BIT * Z.of_nat 4) with 32; change (CHAR_BIT * Z.of_nat 5) with 40;
  change (CHAR_BIT * Z.of_nat 6) with 48; change (CHAR_BIT * Z.of_nat 7) with 56;
  change (2 ^ CHAR_BIT) with 256;
  rewrite ?Z.shiftl_mul_pow2, ?Z.shiftr_div_pow2 by lia;
  repeat match goal with
  | |- context [(v / 2 ^ ?k) mod 256] =>
      let B := fresh "B" in
      let HB := fresh "HB" in
      pose proof (Z.mod_pos_bound (v / 2 ^ k) 256 eq_refl) as HB;
      generalize dependent ((v / 2 ^ k) mod 256); intros B HB
  end.

Ltac pow_consts :=
  repeat match goal with
  | |- context [2 ^ (Zpos ?p)] =>
      let c := eval vm_compute in (2 ^ (Zpos p)) in
      change (2 ^ (Zpos p)) with c
  end;
  change (2 ^ 0) with 1.

Lemma WREV4_bytes (v : Z) :
  0 <= v < 2 ^ 32 ->
  NADINE_I_WREV4 (int_cast false 4) v = le_value (reverse (le_bytes 4 v)).
Proof.
  intros Hv. unfold NADINE_I_WREV4.
  assert (Hc : int_cast false 4 v = v) by (apply Z.mod_small; exact Hv).
  rewrite Hc. clear Hc.
  change 0x000000FF with (255 * 2 ^ 0).
  change 0x0000FF00 with (255 * 2 ^ 8).
  change 0x00FF0000 with (255 * 2 ^ 16).
  change 0xFF000000 with (255 * 2 ^ 24).
  rewrite !land_byte_mask by lia.
  unfold le_bytes. simpl fmap. unfold reverse. simpl rev_append. simpl le_value.
  byte_atoms v.
  rewrite (lor_disjoint 24 (_ * _)) by (pow_consts; Z.div_mod_to_equations; lia).
  rewrite (lor_disjoint 16 (_ + _)) by (pow_consts; Z.div_mod_to_equations; lia).
  rewrite (lor_disjoint 8 (_ + _)) by (pow_consts; Z.div_mod_to_equations; lia).
  pow_consts.
  unfold int_cast. change (width 4) with 32.
  rewrite Z.mod_small by (pow_consts; Z.div_mod_to_equations; lia).
  Z.div_mod_to_equations; lia.
Qed.

Lemma WREV2_bytes (v : Z) :
  0 <= v < 2 ^ 16 ->
  NADINE_I_WREV2 (int_cast false 2) v = le_value (reverse (le_bytes 2 v)).
Proof.
  intros Hv. unfold NADINE_I_WREV2.
  assert (Hc : int_cast false 2 v = v) by (apply Z.mod_small; exact Hv).
  rewrite Hc. clear Hc.
  change 0x00FF with (255 * 2 ^ 0).
  change 0xFF00 with (255 * 2 ^ 8).
  rewrite !land_byte_mask by lia.
  unfold le_bytes. simpl fmap. unfold reverse. simpl rev_append. simpl le_value.
  byte_atoms v.
  rewrite (lor_disjoint 8 (_ * _)) by (pow_consts; Z.div_mod_to_equations; lia).
  unfold int_cast. change (width 2) with 16.
  rewrite Z.mod_small by (pow_consts; Z.div_mod_to_equations; lia).
  Z.div_mod_to_equations; lia.
Qed.

Lemma WREV8_bytes (v : Z) :
  0 <= v < 2 ^ 64 ->
  NADINE_I_WREV8 (int_cast false 8) v = le_value (reverse (le_bytes 8 v)).
Proof.
  intros Hv. unfold NADINE_I_WREV8.
  assert (Hc : int_cast false 8 v = v) by (apply Z.mod_small; exact Hv).
  rewrite Hc. clear Hc.
  change 0x00000000000000FF with (255 * 2 ^ 0).
  change 0x000000000000FF00 with (255 * 2 ^ 8).
  change 0x0000000000FF0000 with (255 * 2 ^ 16).
  change 0x00000000FF000000 with (255 * 2 ^ 24).
  change 0x000000FF00000000 with (255 * 2 ^ 32).
  change 0x0000FF0000000000 with (255 * 2 ^ 40).
  change 0x00FF000000000000 with (255 * 2 ^ 48).
  change 0xFF00000000000000 with (255 * 2 ^ 56).
  rewrite !land_byte_mask by lia.
  unfold le_bytes. simpl fmap. unfold reverse. simpl rev_append. simpl le_value.
  byte_atoms v.
  rewrite (lor_disjoint 56 (_ * _)) by (pow_consts; Z.div_mod_to_equations; lia).
  rewrite (lor_disjoint 48 (_ + _)) by (pow_consts; Z.div_mod_to_equations; lia).
  rewrite (lor_disjoint 40 (_ + _)) by (pow_consts; Z.div_mod_to_equations; lia).
  rewrite (lor_disjoint 32 (_ + _)) by (pow_consts; Z.div_mod_to_equations; lia).
  rewrite (lor_disjoint 24 (_ + _)) by (pow_consts; Z.div_mod_to_equations; lia).
  rewrite (lor_disjoint 16 (_ + _)) by (pow_consts; Z.div_mod_to_equations; lia).
  rewrite (lor_disjoint 8 (_ + _)) by (pow_consts; Z.div_mod_to_equations; lia).
  unfold int_cast. change (width 8) with 64.
  rewrite Z.mod_small by (pow_consts; Z.div_mod_to_equations; lia).
  Z.div_mod_to_equations; lia.
Qed.

Local Close Scope Z_scope.

(** ** Native-order detection *)

Lemma probe_cascade (C : config) (p : list Z) (n : nat) (first last b0 bl b1 bl2 : Z) :
  2 <= n ->
  p !! 0 = Some b0 -> p !! (n - 1) = Some bl ->
  p !! 1 = Some b1 -> p !! (n - 2) = Some bl2 ->
  probe C p n first last =
    Done (if negb (b0 =? 0)%Z then first
          else if negb (bl =? 0)%Z then last
          else if negb (b1 =? 0)%Z then Z.lor first NADINE_ENDIAN_SWAPCHARS
          else if negb (bl2 =? 0)%Z then Z.lor last NADINE_ENDIAN_SWAPCHARS
          else NADINE_ENDIAN_UNKNOWN C).
Proof.
  intros Hn H0 Hl H1 Hl2. unfold probe.
  rewrite (load_Done _ _ _ H0), (load_Done _ _ _ Hl), (load_Done _ _ _ H1),
          (load_Done _ _ _ Hl2).
  destruct (2 <=? n) eqn:E; [|apply Nat.leb_gt in E; lia].
  cbn [bind].
  destruct (negb (b0 =? 0)%Z); [reflexivity|].
  destruct (negb (bl =? 0)%Z); [reflexivity|].
  destruct (negb (b1 =? 0)%Z); [reflexivity|].
  destruct (negb (bl2 =? 0)%Z); reflexivity.
Qed.

Lemma probe_total (C : config) (p : list Z) (n : nat) (first last : Z) :
  length p = n -> 2 <= n -> exists r, probe C p n first last = Done r.
Proof.
  intros Hlen Hn.
  destruct (lookup_lt_is_Some_2 p 0) as [b0 H0]; [lia|].
  destruct (lookup_lt_is_Some_2 p (n - 1)) as [bl Hl]; [lia|].
  destruct (lookup_lt_is_Some_2 p 1) as [b1 H1]; [lia|].
  destruct (lookup_lt_is_Some_2 p (n - 2)) as [bl2 Hl2]; [lia|].
  eexists. apply (probe_cascade C p n first last b0 bl b1 bl2); assumption.
Qed.

(** The macro that the conversions use agrees with the query function. *)
Lemma NADINE_I_NATIVE_INT_eq (C : config) (T : ctype Z) :
  NADINE_I_NATIVE_INT C T = nadine_endian_native_int C T.
Proof.
  unfold NADINE_I_NATIVE_INT, nadine_endian_native_int.
  destruct (NADINE_NATIVE_ENDIAN_INT C); [reflexivity|].
  destruct (NADINE_I_C99 C); [|reflexivity].
  unfold probe.
  destruct (load (type_pun T 1%Z) 0) as [b0| |]; cbn [bind]; try reflexivity.
  destruct (negb (b0 =? 0)%Z); [reflexivity|].
  destruct (load (type_pun T 1%Z) (sizeof T - 1)) as [bl| |]; cbn [bind];
    try reflexivity.
  destruct (negb (bl =? 0)%Z); reflexivity.
Qed.

(** For a floating type the macro tests the last byte first; it agrees with
    the function because only one byte of 2.0 is set. *)
Lemma NADINE_I_NATIVE_FLOAT_eq (C : config) {V : Type} (T : ctype V) (two : V) :
  length (type_pun T two) = sizeof T -> 2 <= sizeof T ->
  one_hot (type_pun T two) ->
  NADINE_I_NATIVE_FLOAT C T two = nadine_endian_native_float C T two.
Proof.
  intros Hlen Hn Hot.
  unfold NADINE_I_NATIVE_FLOAT, nadine_endian_native_float.
  destruct (NADINE_NATIVE_ENDIAN_FLOAT C); [reflexivity|].
  destruct (NADINE_I_C99 C); [|reflexivity].
  destruct (lookup_lt_is_Some_2 (type_pun T two) 0) as [b0 H0]; [lia|].
  destruct (lookup_lt_is_Some_2 (type_pun T two) (sizeof T - 1)) as [bl Hl]; [lia|].
  unfold probe.
  rewrite (load_Done _ _ _ H0), (load_Done _ _ _ Hl). cbn [bind].
  destruct (Z.eqb_spec bl 0) as [->|Hbl]; cbn [negb].
  - destruct (Z.eqb_spec b0 0) as [->|Hb0]; reflexivity.
  - destruct (Z.eqb_spec b0 0) as [->|Hb0]; cbn [negb]; [reflexivity|].
    pose proof (Hot _ _ _ _ H0 Hl Hb0 Hbl). lia.
Qed.

Lemma nadine_endian_native_int_total (C : config) (T : ctype Z) :
  length (type_pun T 1%Z) = sizeof T -> 2 <= sizeof T ->
  exists r, nadine_endian_native_int C T = Done r.
Proof.
  intros Hlen Hn. unfold nadine_endian_native_int.
  destruct (NADINE_NATIVE_ENDIAN_INT C) as [e|]; [exists e; reflexivity|].
  apply probe_total; assumption.
Qed.

Lemma nadine_endian_native_float_total (C : config) {V : Type} (T : ctype V) (two : V) :
  length (type_pun T two) = sizeof T -> 2 <= sizeof T ->
  exists r, nadine_endian_native_float C T two = Done r.
Proof.
  intros Hlen Hn. unfold nadine_endian_native_float.
  destruct (NADINE_NATIVE_ENDIAN_FLOAT C) as [e|]; [exists e; reflexivity|].
  apply probe_total; assumption.
Qed.

(** C6: without a configured constant, the integer detector probes the
    bytes of the value 1 of a type of at least two bytes and returns
    little-endian when byte [0] is nonzero; failing that, big-endian when
    byte [sizeof(T) - 1] is nonzero; failing that, little with swap-chars
    when byte [1] is nonzero; failing that, big with swap-chars when byte
    [sizeof(T) - 2] is nonzero; and the unknown sentinel otherwise.  It
    always returns, and what it returns is one of these five values. *)
Theorem native_int_detection (C : config) (T : ctype Z) :
  NADINE_NATIVE_ENDIAN_INT C = None ->
  length (type_pun T 1%Z) = sizeof T -> 2 <= sizeof T ->
  exists b0 bl b1 bl2 r : Z,
    type_pun T 1%Z !! 0 = Some b0 /\
    type_pun T 1%Z !! (sizeof T - 1) = Some bl /\
    type_pun T 1%Z !! 1 = Some b1 /\
    type_pun T 1%Z !! (sizeof T - 2) = Some bl2 /\
    nadine_endian_native_int C T = Done r /\
    (b0 <> 0%Z -> r = NADINE_ENDIAN_LITTLE) /\
    (b0 = 0%Z -> bl <> 0%Z -> r = NADINE_ENDIAN_BIG) /\
    (b0 = 0%Z -> bl = 0%Z -> b1 <> 0%Z ->
       r = Z.lor NADINE_ENDIAN_LITTLE NADINE_ENDIAN_SWAPCHARS) /\
    (b0 = 0%Z -> bl = 0%Z -> b1 = 0%Z -> bl2 <> 0%Z ->
       r = Z.lor NADINE_ENDIAN_BIG NADINE_ENDIAN_SWAPCHARS) /\
    (b0 = 0%Z -> bl = 0%Z -> b1 = 0%Z -> bl2 = 0%Z ->
       r = NADINE_ENDIAN_UNKNOWN C) /\
    (valid_endian r \/ r = NADINE_ENDIAN_UNKNOWN C).
Proof.
  intros Hcfg Hlen Hn.
  destruct (lookup_lt_is_Some_2 (type_pun T 1%Z) 0) as [b0 H0]; [lia|].
  destruct (lookup_lt_is_Some_2 (type_pun T 1%Z) (sizeof T - 1)) as [bl Hl]; [lia|].
  destruct (lookup_lt_is_Some_2 (type_pun T 1%Z) 1) as [b1 H1]; [lia|].
  destruct (lookup_lt_is_Some_2 (type_pun T 1%Z) (sizeof T - 2)) as [bl2 Hl2]; [lia|].
  exists b0, bl, b1, bl2. eexists.
  do 4 (split; [eassumption|]).
  split.
  { unfold nadine_endian_native_int. rewrite Hcfg.
    apply (probe_cascade C _ _ _ _ b0 bl b1 bl2); assumption. }
  unfold valid_endian.
  destruct (Z.eqb_spec b0 0), (Z.eqb_spec bl 0), (Z.eqb_spec b1 0),
           (Z.eqb_spec bl2 0); cbn [negb];
    repeat split; intros; try congruence; auto.
Qed.

Lemma native_int_detection_witness :
  nadine_endian_native_int config_le32 (host_int false 3 4) = Done 3%Z.
Proof.
  destruct (native_int_detection config_le32
    (host_int false 3 4) eq_refl eq_refl (le_S _ _ (le_S _ _ (le_n 2))))
    as (b0 & bl & b1 & bl2 & r & H0 & Hl & H1 & Hl2 & Hr & _ & _ & _ & Hpdp & _).
  rewrite Hr. f_equal.
  vm_compute in H0, Hl, H1, Hl2.
  injection H0 as <-. injection Hl as <-. injection H1 as <-. injection Hl2 as <-.
  apply Hpdp; [reflexivity|reflexivity|reflexivity|discriminate].
Defined.

(** ** Conversion *)

Lemma le_bytes_le_value_n (n : nat) (l : list Z) :
  length l = n -> Forall is_uchar l -> le_bytes n (le_value l) = l.
Proof. intros <-. apply le_bytes_le_value. Qed.

Lemma word_reverse_range (n : nat) (v : Z) :
  int_range false n (word_reverse n v).
Proof.
  unfold word_reverse, int_range.
  pose proof (le_value_range (reverse (le_bytes n v))) as H.
  rewrite length_reverse, length_le_bytes in H.
  apply H, Forall_reverse, le_bytes_uchar.
Qed.

Lemma word_reverse_involutive (n : nat) (v : Z) :
  int_range false n v -> word_reverse n (word_reverse n v) = v.
Proof.
  intros Hv. unfold word_reverse.
  rewrite le_bytes_le_value_n.
  - rewrite reverse_involutive, le_value_le_bytes. apply Z.mod_small. exact Hv.
  - rewrite length_reverse. apply length_le_bytes.
  - apply Forall_reverse, le_bytes_uchar.
Qed.

(** What the [switch] of special case #2 returns. *)
Lemma convert_switch_spec (C : config) (T : ctype Z) (v : Z) :
  int_range false (sizeof T) v ->
  convert_switch C T v =
    if switch_returns C T then Some (word_reverse (sizeof T) v) else None.
Proof.
  intros Hv. unfold convert_switch, switch_returns.
  destruct (sizeof T) as [|[|[|[|[|[|[|[|[|n]]]]]]]]]; try reflexivity.
  - f_equal. apply WREV2_bytes. exact Hv.
  - f_equal. apply WREV4_bytes. exact Hv.
  - destruct (NADINE_I_WREV8_defined C); [|reflexivity].
    f_equal. apply WREV8_bytes. exact Hv.
Qed.

Lemma convert_xform_Done {V : Type} (T : ctype V) (ok : V -> Prop) (xf : Z) (v : V) :
  unpadded T ok -> 1 <= sizeof T -> ok v ->
  convert_xform T xf v = Done (type_unpun T (transform xf (type_pun T v))).
Proof.
  intros HT Hn Hv. unfold convert_xform.
  rewrite nadine_i_xform_exact; [reflexivity| |exact Hn].
  apply (pun_length T ok HT). exact Hv.
Qed.

(** The closing block of a conversion undoes itself. *)
Lemma convert_xform_twice {V : Type} (T : ctype V) (ok : V -> Prop) (xf : Z) (v : V) :
  unpadded T ok -> 1 <= sizeof T -> Nat.even (sizeof T) = true -> ok v ->
  exists w, convert_xform T xf v = Done w /\ ok w /\ convert_xform T xf w = Done v.
Proof.
  intros HT Hn Heven Hv.
  pose proof (pun_length T ok HT v Hv) as Hlen.
  pose proof (pun_uchar T ok HT v Hv) as Hbytes.
  assert (Hlen' : length (transform xf (type_pun T v)) = sizeof T)
    by (rewrite length_transform; exact Hlen).
  assert (Hbytes' : Forall is_uchar (transform xf (type_pun T v)))
    by (apply Forall_transform; exact Hbytes).
  exists (type_unpun T (transform xf (type_pun T v))).
  split; [apply (convert_xform_Done T ok); assumption|].
  split; [apply (unpun_ok T ok HT); assumption|].
  rewrite (convert_xform_Done T ok) by (try apply (unpun_ok T ok HT); assumption).
  rewrite (pun_unpun T ok HT) by assumption.
  rewrite transform_involutive by (rewrite Hlen; exact Heven).
  rewrite (unpun_pun T ok HT) by assumption. reflexivity.
Qed.

(** The unsigned conversion as a function of the native order. *)
Lemma nadine_convert_ui_twice (C : config) (T : ctype Z) (native o v : Z) :
  unpadded T (int_range false (sizeof T)) ->
  2 <= sizeof T -> Nat.even (sizeof T) = true ->
  NADINE_I_NATIVE_INT C T = Done native ->
  int_range false (sizeof T) v ->
  exists w, nadine_convert_ui C T o v = Done w /\
            int_range false (sizeof T) w /\
            nadine_convert_ui C T o w = Done v.
Proof.
  intros HT Hn Heven Hnat Hv. unfold nadine_convert_ui. rewrite Hnat. cbn [bind].
  destruct ((native =? o)%Z || (sizeof T =? 1)) eqn:Eid.
  { exists v. auto. }
  destruct ((Z.lxor native o =? 1)%Z && (CHAR_BIT =? 8)%Z) eqn:Efast.
  - destruct (switch_returns C T) eqn:Esw.
    + exists (word_reverse (sizeof T) v).
      rewrite !convert_switch_spec, Esw
        by (try apply word_reverse_range; assumption).
      split; [reflexivity|]. split; [apply word_reverse_range|].
      rewrite word_reverse_involutive by assumption. reflexivity.
    + destruct (convert_xform_twice T _ (Z.lxor native o) v HT ltac:(lia) Heven Hv)
        as (w & Hw1 & Hw2 & Hw3).
      exists w. rewrite !convert_switch_spec, Esw by assumption. auto.
  - destruct (convert_xform_twice T _ (Z.lxor native o) v HT ltac:(lia) Heven Hv)
      as (w & Hw1 & Hw2 & Hw3).
    exists w. auto.
Qed.

Lemma nadine_convert_ui_native (C : config) (T : ctype Z) (native v : Z) :
  NADINE_I_NATIVE_INT C T = Done native ->
  nadine_convert_ui C T native v = Done v.
Proof.
  intros Hnat. unfold nadine_convert_ui. rewrite Hnat. cbn [bind].
  rewrite Z.eqb_refl. reflexivity.
Qed.

(** A signed type and its unsigned counterpart are detected alike. *)
Lemma native_int_signed (C : config) (T TU : ctype Z) :
  sizeof TU = sizeof T -> type_pun TU 1%Z = type_pun T 1%Z ->
  nadine_endian_native_int C TU = nadine_endian_native_int C T.
Proof.
  intros Hsize Hone. unfold nadine_endian_native_int. rewrite Hsize, Hone.
  reflexivity.
Qed.

Lemma conversion_native_eq (C : config) (s : scalar) :
  supported s -> conversion_native C s = nadine_endian_native C s.
Proof.
  destruct s as [T|T TU|V T two ok]; simpl; intros (Hn & Heven & Hs).
  - apply NADINE_I_NATIVE_INT_eq.
  - destruct Hs as (HT & HTU & Hsize & Hone).
    rewrite NADINE_I_NATIVE_INT_eq. apply native_int_signed; assumption.
  - destruct Hs as (HT & Htwo & Hot).
    apply NADINE_I_NATIVE_FLOAT_eq; [|exact Hn|exact Hot].
    apply (pun_length T _ HT). exact Htwo.
Qed.

(** ** The integer types of a host are supported *)

Lemma host_int_unpadded (signed : bool) (o : Z) (n : nat) :
  1 <= n -> Nat.even n = true ->
  unpadded (host_int signed o n) (int_range signed n).
Proof.
  intros Hn Heven. constructor; simpl.
  - intros v _. unfold byte_order. rewrite length_transform. apply length_le_bytes.
  - intros v _. apply Forall_transform, le_bytes_uchar.
  - intros p _ _. apply int_cast_range. exact Hn.
  - intros v Hv. unfold byte_order.
    rewrite transform_involutive by (rewrite length_le_bytes; exact Heven).
    rewrite le_value_le_bytes, int_cast_mod_l by exact Hn.
    apply int_cast_id; assumption.
  - intros p Hlen Hp. unfold byte_order.
    rewrite le_bytes_int_cast.
    rewrite le_bytes_le_value_n
      by (try apply Forall_transform; rewrite ?length_transform; assumption).
    apply transform_involutive. rewrite Hlen. exact Heven.
Qed.

Lemma host_unsigned_supported (o : Z) (n : nat) :
  2 <= n -> Nat.even n = true -> supported (Unsigned (host_int false o n)).
Proof.
  intros Hn Heven. split; [exact Hn|]. split; [exact Heven|].
  apply (host_int_unpadded false o n); [lia|exact Heven].
Qed.

Lemma host_signed_supported (o : Z) (n : nat) :
  2 <= n -> Nat.even n = true ->
  supported (Signed (host_int true o n) (host_int false o n)).
Proof.
  intros Hn Heven. split; [exact Hn|]. split; [exact Heven|].
  split; [apply (host_int_unpadded true o n); [lia|exact Heven]|].
  split; [apply (host_int_unpadded false o n); [lia|exact Heven]|].
  split; reflexivity.
Qed.

Lemma host_binary32_supported (o : Z) : supported (host_binary32 o).
Proof.
  split; [repeat constructor|]. split; [reflexivity|].
  split; [apply (host_int_unpadded false o 4); [repeat constructor|reflexivity]|].
  split; [split; [discriminate|reflexivity]|].
  simpl type_pun. unfold byte_order, transform.
  destruct (Z.testbit o 0), (Z.testbit o 1);
    intros i j x y Hi Hj Hx Hy;
    destruct i as [|[|[|[|i]]]]; try discriminate Hi; injection Hi as <-;
    try (exfalso; apply Hx; reflexivity);
    destruct j as [|[|[|[|j]]]]; try discriminate Hj; injection Hj as <-;
    try (exfalso; apply Hy; reflexivity);
    reflexivity.
Qed.

(** ** Identity on the native order, and involution *)

(** C5: for every supported type, integer or floating-point, and every
    value [v] of it, when the native-order query answers an order that is not
    the unknown sentinel, converting [v] to that order returns [v] itself. *)
Theorem convert_native_identity (C : config) (s : scalar) (native : Z) (v : value s) :
  supported s -> in_range s v ->
  nadine_endian_native C s = Done native ->
  native <> NADINE_ENDIAN_UNKNOWN C ->
  nadine_convert C s native v = Done v.
Proof.
  intros Hs Hv Hnat _.
  rewrite <- (conversion_native_eq C s Hs) in Hnat.
  destruct s as [T|T TU|V T two ok]; simpl in *.
  - apply nadine_convert_ui_native. exact Hnat.
  - destruct Hs as (Hn & Heven & HT & HTU & Hsize & Hone). simpl in Hn, Heven.
    unfold nadine_convert_si.
    rewrite nadine_convert_ui_native by exact Hnat. cbn [bind].
    rewrite (pun_unpun TU _ HTU).
    + rewrite (unpun_pun T _ HT) by exact Hv. reflexivity.
    + rewrite Hsize. apply (pun_length T _ HT). exact Hv.
    + apply (pun_uchar T _ HT). exact Hv.
  - destruct Hs as (Hn & Heven & HT & Htwo & Hot). simpl in Hn, Heven.
    unfold nadine_convert_f. rewrite Hnat. cbn [bind].
    rewrite (convert_xform_Done T _ _ v HT) by (try exact Hv; lia).
    rewrite Z.lxor_nilpotent, transform_0, (unpun_pun T _ HT) by exact Hv.
    reflexivity.
Qed.

Lemma convert_native_identity_witness :
  nadine_convert config_le32 (host_binary32 0) 0 0x40E00000%Z = Done 0x40E00000%Z.
Proof.
  apply (convert_native_identity config_le32 (host_binary32 0) 0 0x40E00000%Z).
  - apply host_binary32_supported.
  - split; [discriminate|reflexivity].
  - reflexivity.
  - discriminate.
Defined.

(** C1: for every supported type, every valid order tag [o] and every value
    [v], when the native order is known the conversion returns a value of
    the type, and converting that value again with the same tag returns
    [v]. *)
Theorem convert_involution (C : config) (s : scalar) (o native : Z) (v : value s) :
  supported s -> valid_endian o -> in_range s v ->
  nadine_endian_native C s = Done native ->
  native <> NADINE_ENDIAN_UNKNOWN C ->
  exists w : value s,
    nadine_convert C s o v = Done w /\ in_range s w /\
    nadine_convert C s o w = Done v.
Proof.
  intros Hs _ Hv Hnat _.
  rewrite <- (conversion_native_eq C s Hs) in Hnat.
  destruct s as [T|T TU|V T two ok]; simpl in *.
  - destruct Hs as (Hn & Heven & HT). simpl in Hn, Heven.
    apply (nadine_convert_ui_twice C T native); assumption.
  - destruct Hs as (Hn & Heven & HT & HTU & Hsize & Hone). simpl in Hn, Heven.
    pose proof (pun_length T _ HT v Hv) as Hlen.
    pose proof (pun_uchar T _ HT v Hv) as Hbytes.
    rewrite <- Hsize in Hlen, Hn, Heven.
    destruct (nadine_convert_ui_twice C TU native o
                (type_unpun TU (type_pun T v)) HTU Hn Heven Hnat)
      as (u & Hu1 & Hu2 & Hu3).
    { apply (unpun_ok TU _ HTU); assumption. }
    pose proof (pun_length TU _ HTU u Hu2) as Hlenu.
    pose proof (pun_uchar TU _ HTU u Hu2) as Hbytesu.
    rewrite Hsize in Hlenu.
    exists (type_unpun T (type_pun TU u)).
    unfold nadine_convert_si. rewrite Hu1. cbn [bind].
    split; [reflexivity|]. split; [apply (unpun_ok T _ HT); assumption|].
    rewrite (pun_unpun T _ HT) by assumption.
    rewrite (unpun_pun TU _ HTU) by assumption.
    rewrite Hu3. cbn [bind].
    rewrite (pun_unpun TU _ HTU) by assumption.
    rewrite (unpun_pun T _ HT) by assumption. reflexivity.
  - destruct Hs as (Hn & Heven & HT & Htwo & Hot). simpl in Hn, Heven.
    unfold nadine_convert_f. rewrite Hnat. cbn [bind].
    apply (convert_xform_twice T _ _ v HT); [lia|exact Heven|exact Hv].
Qed.

Lemma convert_involution_witness :
  exists w : Z,
    nadine_convert config_le32 (Unsigned (host_int false 0 4)) 3 16909060%Z = Done w /\
    nadine_convert config_le32 (Unsigned (host_int false 0 4)) 3 w = Done 16909060%Z.
Proof.
  destruct (convert_involution config_le32 (Unsigned (host_int false 0 4)) 3 0
              16909060%Z) as (w & Hw1 & _ & Hw2).
  - apply host_unsigned_supported; [repeat constructor|reflexivity].
  - right. right. right. reflexivity.
  - split; [discriminate|reflexivity].
  - reflexivity.
  - discriminate.
  - exists w. split; assumption.
Defined.

(** ** The index function of the shift strategy *)

Lemma lxor_1_even (i : nat) : Nat.even i = true -> Nat.lxor i 1 = i + 1.
Proof.
  intros H. apply Nat.even_spec in H. destruct H as [k ->].
  apply Nat.bits_inj. intros j. rewrite Nat.lxor_spec.
  replace (2 * k + 1) with (2 * k + 1) by lia.
  destruct j as [|j].
  - rewrite Nat.testbit_even_0. rewrite Nat.testbit_odd_0. reflexivity.
  - rewrite Nat.testbit_even_succ, Nat.testbit_odd_succ by lia.
    change 1 with (2 * 0 + 1) at 1. rewrite Nat.testbit_odd_succ by lia.
    rewrite Nat.bits_0. apply xorb_false_r.
Qed.

Lemma lxor_1_odd (i : nat) : Nat.odd i = true -> Nat.lxor i 1 = i - 1.
Proof.
  intros H. apply Nat.odd_spec in H. destruct H as [k ->].
  replace (2 * k + 1 - 1) with (2 * k) by lia.
  apply Nat.bits_inj. intros j. rewrite Nat.lxor_spec.
  destruct j as [|j].
  - rewrite Nat.testbit_even_0. rewrite Nat.testbit_odd_0. reflexivity.
  - rewrite Nat.testbit_even_succ, Nat.testbit_odd_succ by lia.
    change 1 with (2 * 0 + 1) at 1. rewrite Nat.testbit_odd_succ by lia.
    rewrite Nat.bits_0. apply xorb_false_r.
Qed.

Lemma even_odd_false (i : nat) : Nat.even i = false -> Nat.odd i = true.
Proof. intros H. rewrite <- Nat.negb_even, H. reflexivity. Qed.

(** The index function in arithmetic form. *)
Lemma NADINE_I_INDEX_eq (n : nat) (e : Z) (i : nat) :
  NADINE_I_INDEX n e i =
    let j := if Z.testbit e 0 then n - i - 1 else i in
    if Z.testbit e 1 then (if Nat.even j then j + 1 else j - 1) else j.
Proof.
  unfold NADINE_I_INDEX. rewrite land_1_eqb, land_2_eqb.
  destruct (Z.testbit e 0), (Z.testbit e 1); cbn [negb];
    rewrite ?Nat.lxor_0_r; try reflexivity.
  - destruct (Nat.even (n - i - 1)) eqn:E;
      [apply lxor_1_even|apply lxor_1_odd, even_odd_false]; exact E.
  - destruct (Nat.even i) eqn:E;
      [apply lxor_1_even|apply lxor_1_odd, even_odd_false]; exact E.
Qed.

Lemma even_sub_pred (n i : nat) :
  Nat.even n = true -> i < n -> Nat.even (n - i - 1) = negb (Nat.even i).
Proof.
  intros Hn Hi.
  replace n with ((n - i - 1) + 1 + i) in Hn by lia.
  rewrite !Nat.even_add in Hn. simpl in Hn.
  destruct (Nat.even (n - i - 1)), (Nat.even i); simpl in *; congruence.
Qed.

Lemma even_lt_succ (n i : nat) :
  Nat.even n = true -> Nat.even i = true -> i < n -> i + 1 < n.
Proof.
  intros Hn Hi Hlt. destruct (Nat.eq_dec (i + 1) n) as [E|E]; [|lia].
  rewrite <- E, Nat.even_add, Hi in Hn. discriminate.
Qed.

Lemma odd_pos (i : nat) : Nat.even i = false -> 1 <= i.
Proof. destruct i; [discriminate|lia]. Qed.

Lemma even_succ_false (i : nat) : Nat.even i = true -> Nat.even (i + 1) = false.
Proof. intros H. rewrite Nat.even_add, H. reflexivity. Qed.

Lemma even_pred_true (i : nat) : Nat.even i = false -> Nat.even (i - 1) = true.
Proof.
  intros H. pose proof (odd_pos i H).
  replace i with ((i - 1) + 1) in H by lia.
  rewrite Nat.even_add in H. destruct (Nat.even (i - 1)); [reflexivity|discriminate].
Qed.

(** For an even size every index stays inside the value. *)
Lemma NADINE_I_INDEX_lt (n : nat) (e : Z) (i : nat) :
  Nat.even n = true -> i < n -> NADINE_I_INDEX n e i < n.
Proof.
  intros Hn Hi. rewrite NADINE_I_INDEX_eq. cbv zeta.
  pose proof (even_sub_pred n i Hn Hi) as Hp.
  destruct (Z.testbit e 0), (Z.testbit e 1); try lia.
  - destruct (Nat.even (n - i - 1)) eqn:E; [|lia].
    apply even_lt_succ; [assumption..|lia].
  - destruct (Nat.even i) eqn:E; [|lia].
    apply even_lt_succ; assumption.
Qed.

(** For an even size the index function is its own inverse. *)
Lemma NADINE_I_INDEX_involutive (n : nat) (e : Z) (i : nat) :
  Nat.even n = true -> i < n -> NADINE_I_INDEX n e (NADINE_I_INDEX n e i) = i.
Proof.
  intros Hn Hi.
  pose proof (NADINE_I_INDEX_lt n e i Hn Hi) as Hlt.
  revert Hlt. rewrite !NADINE_I_INDEX_eq. cbv zeta.
  pose proof (even_sub_pred n i Hn Hi) as Hp.
  destruct (Z.testbit e 0), (Z.testbit e 1); try lia.
  - destruct (Nat.even (n - i - 1)) eqn:E; intros Hlt.
    + rewrite (even_sub_pred n _ Hn Hlt), (even_succ_false _ E). simpl.
      pose proof (even_lt_succ _ _ Hn E ltac:(lia)). lia.
    + rewrite (even_sub_pred n _ Hn Hlt), (even_pred_true _ E). simpl.
      pose proof (odd_pos _ E). lia.
  - destruct (Nat.even i) eqn:E; intros Hlt.
    + rewrite (even_succ_false _ E). lia.
    + rewrite (even_pred_true _ E). pose proof (odd_pos _ E). lia.
Qed.

Lemma swap_pairs_lookup_index (l : list Z) (i : nat) :
  Nat.even (length l) = true -> i < length l ->
  swap_pairs l !! i = l !! (if Nat.even i then i + 1 else i - 1).
Proof.
  intros Hl Hi. destruct (Nat.even i) eqn:E.
  - pose proof (even_lt_succ _ _ Hl E Hi) as Hlt.
    apply Nat.even_spec in E. destruct E as [k ->].
    apply (swap_pairs_lookup k l). lia.
  - apply even_odd_false, Nat.odd_spec in E. destruct E as [k ->].
    replace (2 * k + 1 - 1) with (2 * k) by lia.
    apply (swap_pairs_lookup k l). lia.
Qed.

(** The transform by index: byte [i] of the result is byte
    [NADINE_I_INDEX(code, i)] of the argument. *)
Lemma transform_lookup (e : Z) (l : list Z) (i : nat) :
  Nat.even (length l) = true -> i < length l ->
  transform e l !! i = l !! NADINE_I_INDEX (length l) e i.
Proof.
  intros Hl Hi.
  pose proof (NADINE_I_INDEX_involutive (length l) e i Hl Hi) as Hinv.
  pose proof (NADINE_I_INDEX_lt (length l) e i Hl Hi) as Hlt.
  revert Hinv Hlt.
  rewrite !NADINE_I_INDEX_eq. unfold transform. cbv zeta.
  pose proof (even_sub_pred _ i Hl Hi) as Hp.
  destruct (Z.testbit e 0), (Z.testbit e 1); intros Hinv Hlt.
  - rewrite swap_pairs_lookup_index by (rewrite ?length_reverse; assumption).
    destruct (Nat.even i) eqn:E; simpl in Hp; rewrite Hp in *.
    + pose proof (even_lt_succ _ _ Hl E Hi).
      rewrite reverse_lookup by lia. f_equal. lia.
    + pose proof (odd_pos _ E).
      rewrite reverse_lookup by lia. f_equal. lia.
  - rewrite reverse_lookup by lia. f_equal. lia.
  - apply swap_pairs_lookup_index; assumption.
  - reflexivity.
Qed.

(** ** Loops over buffers *)

(** A loop that keeps an invariant and whose body always returns, returns
    with the invariant. *)
Lemma for_loop_invariant {S : Type} (Inv : nat -> S -> Prop)
    (body : nat -> S -> outcome S) (count : nat) :
  forall (lo : nat) (s : S),
    Inv lo s ->
    (forall i s, lo <= i < lo + count -> Inv i s ->
       exists s', body i s = Done s' /\ Inv (Datatypes.S i) s') ->
    exists s', for_loop body lo count s = Done s' /\ Inv (lo + count) s'.
Proof.
  induction count as [|count IH]; intros lo s Hinv Hbody.
  - exists s. rewrite Nat.add_0_r. auto.
  - destruct (Hbody lo s ltac:(lia) Hinv) as (s1 & Hs1 & Hinv1).
    destruct (IH (Datatypes.S lo) s1 Hinv1) as (s2 & Hs2 & Hinv2).
    { intros i s' Hi. apply Hbody. lia. }
    exists s2. simpl. rewrite Hs1. cbn [bind].
    replace (lo + Datatypes.S count) with (Datatypes.S lo + count) by lia. auto.
Qed.

Lemma memcpy_loop_spec (src : list Z) (n : nat) :
  forall (k : nat) (dst : list Z),
    k + n <= length dst -> k + n <= length src ->
    memcpy_loop n dst src k
    = Done (take k dst ++ take n (drop k src) ++ drop (k + n) dst).
Proof.
  induction n as [|n IH]; intros k dst Hdst Hsrc.
  - simpl. rewrite Nat.add_0_r, take_drop. reflexivity.
  - destruct (lookup_lt_is_Some_2 src k) as [x Hx]; [lia|].
    simpl memcpy_loop. rewrite (load_Done _ _ _ Hx). cbn [bind].
    rewrite store_Done by lia. cbn [bind].
    rewrite IH by (rewrite ?length_insert; lia).
    f_equal.
    rewrite (take_S_r (<[k:=x]> dst) k x)
      by (apply list_lookup_insert_eq; lia).
    rewrite take_insert_ge by lia.
    rewrite drop_insert_lt by lia.
    rewrite (drop_S src x k Hx). simpl take.
    rewrite <- app_assoc. simpl.
    replace (Datatypes.S (k + n)) with (k + Datatypes.S n) by lia. reflexivity.
Qed.

(** [nadine_i_memcpy] overwrites the first [n] bytes of the destination with
    the first [n] bytes of the source. *)
Lemma nadine_i_memcpy_spec (dst src : list Z) (n : nat) :
  n <= length dst -> n <= length src ->
  nadine_i_memcpy dst src n = Done (take n src ++ drop n dst).
Proof.
  intros Hdst Hsrc. unfold nadine_i_memcpy.
  rewrite memcpy_loop_spec by lia. reflexivity.
Qed.

Lemma le_bytes_lookup (n : nat) (v : Z) (i : nat) :
  i < n ->
  le_bytes n v !! i = Some (Z.shiftr v (CHAR_BIT * Z.of_nat i) mod 2 ^ CHAR_BIT)%Z.
Proof.
  intros Hi. unfold le_bytes.
  rewrite list_lookup_fmap, lookup_seq_lt by exact Hi. reflexivity.
Qed.

(** The shift strategy writes the value in the requested order into the
    first [n] bytes and nothing else. *)
Lemma write_shift_spec (n : nat) (e : Z) (d rest : list Z) (v : Z) :
  Nat.even n = true -> length d = n ->
  write_shift n e (d ++ rest) v = Done (byte_order e n v ++ rest).
Proof.
  intros Hn Hd. unfold write_shift.
  set (body := fun (i : nat) (dst : list Z) =>
    store dst (NADINE_I_INDEX n e i)
      (Z.shiftr v (CHAR_BIT * Z.of_nat i) mod 2 ^ CHAR_BIT)%Z).
  set (Inv := fun (k : nat) (buf : list Z) =>
    length buf = length (d ++ rest) /\
    forall j, buf !! j =
      if decide (j < n /\ NADINE_I_INDEX n e j < k)
      then le_bytes n v !! NADINE_I_INDEX n e j
      else (d ++ rest) !! j).
  destruct (for_loop_invariant Inv body n 0 (d ++ rest)) as (buf & Hbuf & Hlen & Hlook).
  - split; [reflexivity|]. intros j.
    rewrite decide_False by lia. reflexivity.
  - intros i buf [_ Hi] [Hlen Hlook]. simpl in Hi.
    pose proof (NADINE_I_INDEX_lt n e i Hn Hi) as Hidx.
    exists (<[NADINE_I_INDEX n e i := (Z.shiftr v (CHAR_BIT * Z.of_nat i)
                                        mod 2 ^ CHAR_BIT)%Z]> buf).
    split; [|split].
    + unfold body. apply store_Done. rewrite Hlen, length_app. lia.
    + rewrite length_insert. exact Hlen.
    + intros j. destruct (decide (j = NADINE_I_INDEX n e i)) as [->|Hne].
      * rewrite list_lookup_insert_eq by (rewrite Hlen, length_app; lia).
        rewrite NADINE_I_INDEX_involutive by assumption.
        rewrite decide_True by lia.
        rewrite le_bytes_lookup by exact Hi. reflexivity.
      * rewrite list_lookup_insert_ne by congruence. rewrite Hlook.
        destruct (decide (j < n)) as [Hj|Hj].
        -- assert (NADINE_I_INDEX n e j <> i).
           { intros <-. apply Hne.
             rewrite NADINE_I_INDEX_involutive by assumption. reflexivity. }
           destruct (decide (NADINE_I_INDEX n e j < i)).
           ++ rewrite !decide_True by lia. reflexivity.
           ++ rewrite !decide_False by lia. reflexivity.
        -- rewrite !decide_False by lia. reflexivity.
  - rewrite Hbuf. f_equal. apply list_eq. intros j. rewrite Hlook.
    assert (Hbo : length (byte_order e n v) = n)
      by (unfold byte_order; rewrite length_transform; apply length_le_bytes).
    destruct (decide (j < n)) as [Hj|Hj].
    + pose proof (NADINE_I_INDEX_lt n e j Hn Hj).
      rewrite decide_True by (simpl; lia).
      rewrite lookup_app_l by lia.
      unfold byte_order.
      rewrite transform_lookup by (rewrite length_le_bytes; assumption).
      rewrite length_le_bytes. reflexivity.
    + rewrite decide_False by lia.
      rewrite !lookup_app_r by lia. rewrite Hd, Hbo. reflexivity.
Qed.

Local Open Scope Z_scope.

(** A value that fits in fewer bytes than the type has is in range, signed
    or not. *)
Lemma int_range_small (signed : bool) (n k : nat) (x : Z) :
  (k < n)%nat -> 0 <= x < 2 ^ width k -> int_range signed n x.
Proof.
  intros Hk Hx.
  assert (H1 : 2 ^ width k <= 2 ^ (width n - 1))
    by (apply Z.pow_le_mono_r; unfold width, CHAR_BIT; lia).
  assert (H2 : 2 ^ (width n - 1) <= 2 ^ width n)
    by (apply Z.pow_le_mono_r; unfold width, CHAR_BIT; lia).
  unfold int_range. destruct signed; lia.
Qed.

Lemma uchar_small (b : Z) : is_uchar b -> 0 <= b < 2 ^ width 1.
Proof. unfold is_uchar, width. intros H. exact H. Qed.

(** Adding a byte above the bytes already assembled. *)
Lemma lor_next_byte (l : list Z) (b : Z) :
  Forall is_uchar l -> is_uchar b ->
  Z.lor (le_value l) (Z.shiftl b (CHAR_BIT * Z.of_nat (length l)))
  = le_value (l ++ [b]).
Proof.
  intros Hl Hb.
  pose proof (le_value_range l Hl) as Hr. fold (width (length l)).
  rewrite Z.lor_comm.
  rewrite (lor_disjoint (width (length l))).
  - rewrite le_value_app. simpl le_value.
    rewrite Z.shiftl_mul_pow2 by apply width_nonneg. ring.
  - apply width_nonneg.
  - exact Hr.
  - rewrite Z.shiftl_mul_pow2 by apply width_nonneg.
    apply Z.mod_mul. pose proof (pow_width_pos (length l)). lia.
Qed.

(** The shift strategy reads the value whose bytes, in the requested order,
    are the first [n] bytes of the source. *)
Lemma read_shift_spec (signed : bool) (n : nat) (e : Z) (src : list Z) :
  (2 <= n)%nat -> Nat.even n = true -> (n <= length src)%nat ->
  Forall is_uchar (take n src) ->
  read_shift signed n e src
  = Done (int_cast signed n (le_value (transform e (take n src)))).
Proof.
  intros Hn Heven Hsrc Hbytes. unfold read_shift.
  set (L := transform e (take n src)).
  assert (HlenT : length (take n src) = n) by (rewrite length_take; lia).
  assert (HlenL : length L = n) by (unfold L; rewrite length_transform; exact HlenT).
  assert (HL : Forall is_uchar L) by (apply Forall_transform; exact Hbytes).
  set (body := fun (i : nat) (v : Z) =>
    let* b := load src (NADINE_I_INDEX n e i) in
    Done (int_cast signed n
            (Z.lor v (Z.shiftl (int_cast signed n b) (CHAR_BIT * Z.of_nat i))))).
  set (Inv := fun (k : nat) (acc : Z) =>
    acc = int_cast signed n (le_value (take k L))).
  destruct (for_loop_invariant Inv body n 0 0) as (r & Hr & Hinv).
  - unfold Inv. rewrite take_0. simpl le_value.
    symmetry. apply int_cast_id; [lia|].
    apply (int_range_small signed n 0); [lia|]. unfold width. simpl. lia.
  - intros i acc [_ Hi] Hacc. simpl in Hi. unfold Inv in *.
    pose proof (NADINE_I_INDEX_lt n e i Heven Hi) as Hidx.
    destruct (lookup_lt_is_Some_2 L i) as [b Hb]; [lia|].
    assert (Hsrcb : src !! NADINE_I_INDEX n e i = Some b).
    { rewrite <- (lookup_take_lt src n) by exact Hidx.
      pose proof (transform_lookup e (take n src) i) as Ht.
      rewrite HlenT in Ht. rewrite <- Ht by assumption. exact Hb. }
    assert (Hbu : is_uchar b) by (apply (proj1 (Forall_lookup _ _) HL i b Hb)).
    assert (HTi : Forall is_uchar (take i L)) by (apply Forall_take; exact HL).
    assert (Hleni : length (take i L) = i) by (rewrite length_take; lia).
    exists (int_cast signed n (le_value (take (S i) L))).
    split; [|reflexivity].
    unfold body. rewrite (load_Done _ _ _ Hsrcb). cbn [bind]. f_equal.
    rewrite Hacc.
    rewrite (int_cast_id signed n (le_value (take i L))); [|lia|].
    2:{ apply (int_range_small signed n i); [lia|].
        pose proof (le_value_range (take i L) HTi) as Hr.
        rewrite Hleni in Hr. exact Hr. }
    rewrite (int_cast_id signed n b); [|lia|].
    2:{ apply (int_range_small signed n 1); [lia|]. apply uchar_small. exact Hbu. }
    pose proof (lor_next_byte (take i L) b HTi Hbu) as Hnext.
    rewrite Hleni in Hnext. rewrite Hnext.
    rewrite (take_S_r L i b Hb). reflexivity.
  - rewrite Hr. unfold Inv in Hinv. rewrite Hinv. simpl.
    rewrite take_ge by lia. reflexivity.
Qed.

Local Close Scope Z_scope.

Lemma read_shift_returns (signed : bool) (n : nat) (e : Z) (src : list Z) :
  Nat.even n = true -> n <= length src ->
  exists r, read_shift signed n e src = Done r.
Proof.
  intros Heven Hsrc. unfold read_shift.
  match goal with
  | |- context [for_loop ?body 0 n 0%Z] =>
      destruct (for_loop_invariant (fun _ _ => True) body n 0 0%Z) as (r & Hr & _)
  end.
  - exact I.
  - intros i acc [_ Hi] _. simpl in Hi.
    pose proof (NADINE_I_INDEX_lt n e i Heven Hi) as Hidx.
    destruct (lookup_lt_is_Some_2 src (NADINE_I_INDEX n e i)) as [b Hb]; [lia|].
    rewrite (load_Done _ _ _ Hb). cbn [bind]. eauto.
  - exists r. exact Hr.
Qed.

(** The copy strategy, reading and writing. *)
Lemma read_copy_spec {V : Type} (T : ctype V) (native e : Z) (s : list Z) :
  1 <= sizeof T -> sizeof T <= length s ->
  read_copy T native e s
  = Done (type_unpun T (transform (Z.lxor native e) (take (sizeof T) s))).
Proof.
  intros Hn Hs. unfold read_copy.
  rewrite nadine_i_memcpy_spec by (rewrite ?length_replicate; lia). cbn [bind].
  rewrite drop_ge by (rewrite length_replicate; lia). rewrite app_nil_r.
  rewrite nadine_i_xform_exact by (rewrite ?length_take; lia).
  reflexivity.
Qed.

Lemma write_copy_spec {V : Type} (T : ctype V) (ok : V -> Prop) (native e : Z)
    (d rest : list Z) (v : V) :
  unpadded T ok -> ok v -> 1 <= sizeof T -> length d = sizeof T ->
  write_copy T native e (d ++ rest) v
  = Done (transform (Z.lxor native e) (type_pun T v) ++ rest).
Proof.
  intros HT Hv Hn Hd. unfold write_copy.
  pose proof (pun_length T ok HT v Hv) as Hlen.
  rewrite nadine_i_xform_exact by assumption. cbn [bind].
  rewrite nadine_i_memcpy_spec
    by (rewrite ?length_app, ?length_transform; lia).
  rewrite take_ge by (rewrite length_transform; lia).
  rewrite drop_app_length' by (symmetry; exact Hd). reflexivity.
Qed.

(** ** Round trip through memory *)

Lemma copy_roundtrip {V : Type} (T : ctype V) (ok : V -> Prop) (native o : Z)
    (v : V) (buf : list Z) :
  unpadded T ok -> 1 <= sizeof T -> Nat.even (sizeof T) = true -> ok v ->
  length buf = sizeof T ->
  exists buf',
    write_copy T native o buf v = Done buf' /\ length buf' = sizeof T /\
    read_copy T native o buf' = Done v.
Proof.
  intros HT Hn Heven Hv Hbuf.
  pose proof (pun_length T ok HT v Hv) as Hlen.
  exists (transform (Z.lxor native o) (type_pun T v)).
  rewrite <- (app_nil_r buf).
  rewrite (write_copy_spec T ok) by assumption. rewrite app_nil_r.
  split; [reflexivity|]. split; [rewrite length_transform; exact Hlen|].
  rewrite read_copy_spec by (rewrite ?length_transform; lia).
  rewrite take_ge by (rewrite length_transform; lia).
  rewrite transform_involutive by (rewrite Hlen; exact Heven).
  rewrite (unpun_pun T ok HT) by exact Hv. reflexivity.
Qed.

Lemma shift_roundtrip (signed : bool) (n : nat) (o v : Z) (buf : list Z) :
  2 <= n -> Nat.even n = true -> int_range signed n v -> length buf = n ->
  exists buf',
    write_shift n o buf v = Done buf' /\ length buf' = n /\
    read_shift signed n o buf' = Done v.
Proof.
  intros Hn Heven Hv Hbuf.
  assert (Hlen : length (byte_order o n v) = n)
    by (unfold byte_order; rewrite length_transform; apply length_le_bytes).
  exists (byte_order o n v).
  rewrite <- (app_nil_r buf).
  rewrite write_shift_spec by assumption. rewrite app_nil_r.
  split; [reflexivity|]. split; [exact Hlen|].
  rewrite read_shift_spec; try assumption; try lia.
  - rewrite take_ge by lia. unfold byte_order.
    rewrite transform_involutive by (rewrite length_le_bytes; exact Heven).
    rewrite le_value_le_bytes, int_cast_mod_l by lia.
    rewrite int_cast_id by (try assumption; lia). reflexivity.
  - rewrite take_ge by lia. apply Forall_transform, le_bytes_uchar.
Qed.

Lemma int_roundtrip (C : config) (signed : bool) (T : ctype Z) (o native v : Z)
    (buf : list Z) :
  unpadded T (int_range signed (sizeof T)) ->
  2 <= sizeof T -> Nat.even (sizeof T) = true ->
  int_range signed (sizeof T) v ->
  nadine_endian_native_int C T = Done native ->
  length buf = sizeof T ->
  exists buf',
    nadine_write_int C T o buf v = Done buf' /\ length buf' = sizeof T /\
    nadine_read_int C signed T o buf' = Done v.
Proof.
  intros HT Hn Heven Hv Hnat Hbuf.
  unfold nadine_write_int, nadine_read_int.
  destruct (NADINE_I_USE_SHIFT_RW C).
  - apply shift_roundtrip; assumption.
  - rewrite NADINE_I_NATIVE_INT_eq, Hnat. cbn [bind].
    apply (copy_roundtrip T _ native o v buf HT); try assumption. lia.
Qed.

(** C2: for every supported type, every valid order tag [o] and every value
    [v], when the native order is known, writing [v] under [o] into a buffer
    of [sizeof(T)] bytes returns, and reading the written buffer under [o]
    returns exactly [v]. *)
Theorem write_read_roundtrip (C : config) (s : scalar) (o native : Z) (v : value s)
    (buf : list Z) :
  supported s -> valid_endian o -> in_range s v ->
  nadine_endian_native C s = Done native ->
  native <> NADINE_ENDIAN_UNKNOWN C ->
  length buf = size_of s ->
  exists buf',
    nadine_write C s o buf v = Done buf' /\ length buf' = size_of s /\
    nadine_read C s o buf' = Done v.
Proof.
  intros Hs _ Hv Hnat _ Hbuf.
  destruct s as [T|T TU|V T two ok]; simpl in *.
  - destruct Hs as (Hn & Heven & HT). simpl in Hn, Heven.
    apply (int_roundtrip C false T o native); assumption.
  - destruct Hs as (Hn & Heven & HT & _). simpl in Hn, Heven.
    apply (int_roundtrip C true T o native); assumption.
  - destruct Hs as (Hn & Heven & HT & Htwo & Hot). simpl in Hn, Heven.
    unfold nadine_write_f, nadine_read_f.
    rewrite NADINE_I_NATIVE_FLOAT_eq, Hnat;
      [|apply (pun_length T _ HT); exact Htwo|exact Hn|exact Hot].
    cbn [bind].
    apply (copy_roundtrip T _ native o v buf HT); try assumption. lia.
Qed.

Lemma write_read_roundtrip_witness :
  exists buf',
    nadine_write config_copy (Signed (host_int true 1 2) (host_int false 1 2)) 2
      [0; 0]%Z (-2)%Z = Done buf' /\
    nadine_read config_copy (Signed (host_int true 1 2) (host_int false 1 2)) 2 buf'
      = Done (-2)%Z.
Proof.
  destruct (write_read_roundtrip config_copy
              (Signed (host_int true 1 2) (host_int false 1 2)) 2 1 (-2)%Z [0; 0]%Z)
    as (buf' & Hw & _ & Hr).
  - apply host_signed_supported; [repeat constructor|reflexivity].
  - right. right. left. reflexivity.
  - split; [discriminate|reflexivity].
  - reflexivity.
  - discriminate.
  - reflexivity.
  - exists buf'. split; assumption.
Defined.

(** ** The two strategies agree *)

Lemma lxor_cancel_l (a b : Z) : Z.lxor a (Z.lxor a b) = b.
Proof. rewrite <- Z.lxor_assoc, Z.lxor_nilpotent, Z.lxor_0_l. reflexivity. Qed.

Lemma lxor_cancel_r (a b : Z) : Z.lxor (Z.lxor a b) a = b.
Proof. rewrite (Z.lxor_comm (Z.lxor a b) a). apply lxor_cancel_l. Qed.

(** On a host that stores [T] in order [o], unpunning decodes order [o]. *)
Lemma unpun_stored (signed : bool) (T : ctype Z) (o : Z) (p : list Z) :
  unpadded T (int_range signed (sizeof T)) ->
  1 <= sizeof T -> Nat.even (sizeof T) = true ->
  stored_in_order signed T o ->
  length p = sizeof T -> Forall is_uchar p ->
  type_unpun T p = int_cast signed (sizeof T) (le_value (transform o p)).
Proof.
  intros HT Hn Heven Hst Hlen Hp.
  set (v := int_cast signed (sizeof T) (le_value (transform o p))).
  assert (Hv : int_range signed (sizeof T) v) by (apply int_cast_range; exact Hn).
  assert (Hpun : type_pun T v = p).
  { rewrite (Hst v Hv). unfold byte_order, v.
    rewrite le_bytes_int_cast.
    rewrite le_bytes_le_value_n
      by (try apply Forall_transform; rewrite ?length_transform; assumption).
    apply transform_involutive. rewrite Hlen. exact Heven. }
  rewrite <- Hpun at 1. apply (unpun_pun T _ HT). exact Hv.
Qed.

Lemma NADINE_I_NATIVE_INT_with_shift_rw (b : bool) (C : config) (T : ctype Z) :
  NADINE_I_NATIVE_INT (with_shift_rw b C) T = NADINE_I_NATIVE_INT C T.
Proof. reflexivity. Qed.

(** C3: for every supported integer type, stored by the host in its native
    order, every valid order tag, every value and every buffer of at least
    [sizeof(T)] bytes, the shift-and-mask strategy and the
    copy-then-transform strategy (transform code native XOR target) both
    return, store the same bytes when writing and return the same value when
    reading. *)
Theorem shift_copy_equivalent (C : config) (signed : bool) (T : ctype Z)
    (o native v : Z) (src dst : list Z) :
  unpadded T (int_range signed (sizeof T)) ->
  2 <= sizeof T -> Nat.even (sizeof T) = true ->
  valid_endian o -> valid_endian native ->
  NADINE_I_NATIVE_INT C T = Done native ->
  stored_in_order signed T native ->
  int_range signed (sizeof T) v ->
  sizeof T <= length dst ->
  sizeof T <= length src -> Forall is_uchar src ->
  (exists d,
     nadine_write_int (with_shift_rw true C) T o dst v = Done d /\
     nadine_write_int (with_shift_rw false C) T o dst v = Done d) /\
  (exists r,
     nadine_read_int (with_shift_rw true C) signed T o src = Done r /\
     nadine_read_int (with_shift_rw false C) signed T o src = Done r).
Proof.
  intros HT Hn Heven _ _ Hnat Hst Hv Hdst Hsrc Hbytes.
  unfold nadine_write_int, nadine_read_int. simpl NADINE_I_USE_SHIFT_RW.
  rewrite !NADINE_I_NATIVE_INT_with_shift_rw, Hnat. cbn [bind].
  split.
  - assert (Hlen : length (take (sizeof T) dst) = sizeof T)
      by (rewrite length_take; lia).
    pose proof (take_drop (sizeof T) dst) as Hd.
    set (d1 := take (sizeof T) dst) in *. set (d2 := drop (sizeof T) dst) in *.
    rewrite <- Hd.
    exists (byte_order o (sizeof T) v ++ d2).
    rewrite write_shift_spec by assumption.
    rewrite (write_copy_spec T _ native o _ _ v HT) by (try assumption; lia).
    split; [reflexivity|].
    rewrite (Hst v Hv). unfold byte_order.
    rewrite transform_compose by (rewrite length_le_bytes; exact Heven).
    rewrite lxor_cancel_r. reflexivity.
  - assert (Hlen : length (take (sizeof T) src) = sizeof T)
      by (rewrite length_take; lia).
    assert (Htake : Forall is_uchar (take (sizeof T) src))
      by (apply Forall_take; exact Hbytes).
    exists (int_cast signed (sizeof T)
              (le_value (transform o (take (sizeof T) src)))).
    rewrite read_shift_spec by assumption.
    rewrite read_copy_spec by lia.
    split; [reflexivity|].
    rewrite (unpun_stored signed T native)
      by (try apply Forall_transform; rewrite ?length_transform;
          try assumption; lia).
    rewrite transform_compose by (rewrite Hlen; exact Heven).
    rewrite lxor_cancel_l. reflexivity.
Qed.

Lemma shift_copy_equivalent_witness :
  exists d,
    nadine_write_int (with_shift_rw true config_le32) (host_int true 0 4) 3
      [0; 0; 0; 0]%Z (-2)%Z = Done d /\
    nadine_write_int (with_shift_rw false config_le32) (host_int true 0 4) 3
      [0; 0; 0; 0]%Z (-2)%Z = Done d.
Proof.
  destruct (shift_copy_equivalent config_le32 true (host_int true 0 4) 3 0 (-2)%Z
              [1; 2; 3; 4]%Z [0; 0; 0; 0]%Z) as [Hw _].
  - apply (host_int_unpadded true 0 4); [repeat constructor|reflexivity].
  - repeat constructor.
  - reflexivity.
  - right. right. right. reflexivity.
  - left. reflexivity.
  - reflexivity.
  - intros v _. reflexivity.
  - split; [discriminate|reflexivity].
  - repeat constructor.
  - repeat constructor.
  - repeat constructor; discriminate.
  - exact Hw.
Defined.

(** ** The concrete byte layouts of a 32-bit value *)

(** C4: on every host order and with either strategy, writing the 32-bit
    value 0x01020304 into a 4-byte buffer stores [04 03 02 01] for little,
    [01 02 03 04] for big, [02 01 04 03] for big with swap-chars (PDP-11)
    and [03 04 01 02] for little with swap-chars (Honeywell 316). *)
Theorem write_0x01020304 (C : config) (T : ctype Z) (native : Z) (buf : list Z) :
  sizeof T = 4 -> valid_endian native ->
  NADINE_I_NATIVE_INT C T = Done native ->
  type_pun T 0x01020304%Z = byte_order native 4 0x01020304%Z ->
  length buf = 4 ->
  nadine_write_int C T NADINE_ENDIAN_LITTLE buf 0x01020304%Z
    = Done [0x04; 0x03; 0x02; 0x01]%Z /\
  nadine_write_int C T NADINE_ENDIAN_BIG buf 0x01020304%Z
    = Done [0x01; 0x02; 0x03; 0x04]%Z /\
  nadine_write_int C T (Z.lor NADINE_ENDIAN_BIG NADINE_ENDIAN_SWAPCHARS) buf 0x01020304%Z
    = Done [0x02; 0x01; 0x04; 0x03]%Z /\
  nadine_write_int C T (Z.lor NADINE_ENDIAN_LITTLE NADINE_ENDIAN_SWAPCHARS) buf 0x01020304%Z
    = Done [0x03; 0x04; 0x01; 0x02]%Z.
Proof.
  intros Hsize Hvalid Hnat Hpun Hbuf.
  destruct buf as [|a [|b [|c [|d [|]]]]]; try discriminate.
  unfold nadine_write_int.
  destruct (NADINE_I_USE_SHIFT_RW C).
  - rewrite Hsize. repeat split; reflexivity.
  - rewrite Hnat. cbn [bind]. unfold write_copy. rewrite Hpun, Hsize.
    destruct Hvalid as [->|[->|[->| ->]]]; repeat split; reflexivity.
Qed.

Lemma write_0x01020304_witness :
  nadine_write_int config_copy (host_int false 3 4)
    (Z.lor NADINE_ENDIAN_LITTLE NADINE_ENDIAN_SWAPCHARS) [0; 0; 0; 0]%Z 0x01020304%Z
  = Done [0x03; 0x04; 0x01; 0x02]%Z.
Proof.
  apply (write_0x01020304 config_copy (host_int false 3 4) 3 [0; 0; 0; 0]%Z).
  - reflexivity.
  - right. right. right. reflexivity.
  - reflexivity.
  - reflexivity.
  - reflexivity.
Defined.

(** ** The fast path of the conversion *)

Lemma NADINE_I_WREV_bytes (n : nat) (v : Z) :
  n = 2 \/ n = 4 \/ n = 8 -> int_range false n v ->
  NADINE_I_WREV n (int_cast false n) v = word_reverse n v.
Proof.
  intros [->|[->| ->]] Hv; unfold NADINE_I_WREV.
  - apply WREV2_bytes. exact Hv.
  - apply WREV4_bytes. exact Hv.
  - apply WREV8_bytes. exact Hv.
Qed.

(** Reversing the stored bytes of a value stores its word reversal. *)
Lemma unpun_reverse_pun (T : ctype Z) (native v : Z) :
  unpadded T (int_range false (sizeof T)) ->
  1 <= sizeof T -> Nat.even (sizeof T) = true ->
  stored_in_order false T native ->
  int_range false (sizeof T) v ->
  type_unpun T (reverse (type_pun T v)) = word_reverse (sizeof T) v.
Proof.
  intros HT Hn Heven Hst Hv.
  pose proof (pun_length T _ HT v Hv) as Hlen.
  pose proof (pun_uchar T _ HT v Hv) as Hbytes.
  rewrite (unpun_stored false T native)
    by (try apply Forall_reverse; rewrite ?length_reverse; assumption).
  change (reverse (type_pun T v)) with (transform 1 (type_pun T v)).
  rewrite (Hst v Hv). unfold byte_order.
  rewrite !transform_compose by (rewrite ?length_transform, length_le_bytes; exact Heven).
  rewrite lxor_cancel_r.
  change (le_value (transform 1 (le_bytes (sizeof T) v)))
    with (word_reverse (sizeof T) v).
  apply int_cast_id; [exact Hn|]. apply word_reverse_range.
Qed.

(** C8: for an unsigned type of 2, 4 or 8 bytes stored in its native order,
    when native XOR target is exactly 1 the shift-and-mask formula for the
    size computes the value obtained by punning, reversing the bytes end to
    end with [nadine_i_memrev] and unpunning; the general block of the
    conversion computes it too, and it is what [nadine_convert_N] returns
    whether or not the [switch] returns. *)
Theorem fast_path_equals_general (C : config) (T : ctype Z) (native o v : Z) :
  unpadded T (int_range false (sizeof T)) ->
  sizeof T = 2 \/ sizeof T = 4 \/ sizeof T = 8 ->
  valid_endian o -> valid_endian native ->
  NADINE_I_NATIVE_INT C T = Done native ->
  stored_in_order false T native ->
  Z.lxor native o = 1%Z ->
  int_range false (sizeof T) v ->
  (let* p := nadine_i_memrev (type_pun T v) (sizeof T) in Done (type_unpun T p))
    = Done (NADINE_I_WREV (sizeof T) (int_cast false (sizeof T)) v) /\
  convert_xform T (Z.lxor native o) v
    = Done (NADINE_I_WREV (sizeof T) (int_cast false (sizeof T)) v) /\
  nadine_convert_ui C T o v
    = Done (NADINE_I_WREV (sizeof T) (int_cast false (sizeof T)) v).
Proof.
  intros HT Hsize _ _ Hnat Hst Hxf Hv.
  assert (Hn : 1 <= sizeof T) by lia.
  assert (Heven : Nat.even (sizeof T) = true)
    by (destruct Hsize as [->|[->| ->]]; reflexivity).
  pose proof (pun_length T _ HT v Hv) as Hlen.
  rewrite (NADINE_I_WREV_bytes _ v Hsize Hv).
  pose proof (unpun_reverse_pun T native v HT Hn Heven Hst Hv) as Hrev.
  assert (Hgen : convert_xform T (Z.lxor native o) v
                 = Done (word_reverse (sizeof T) v)).
  { rewrite (convert_xform_Done T _ _ v HT Hn Hv), Hxf. f_equal. exact Hrev. }
  split; [|split].
  - pose proof (nadine_i_memrev_reverse (type_pun T v) [] (sizeof T) Hlen Hn) as Hm.
    rewrite !app_nil_r in Hm. rewrite Hm. cbn [bind]. f_equal. exact Hrev.
  - exact Hgen.
  - unfold nadine_convert_ui. rewrite Hnat. cbn [bind].
    assert (Hne : (native =? o)%Z = false).
    { apply Z.eqb_neq. intros ->. rewrite Z.lxor_nilpotent in Hxf. discriminate. }
    assert (Hn1 : (sizeof T =? 1) = false)
      by (destruct Hsize as [->|[->| ->]]; reflexivity).
    rewrite Hne, Hn1, Hxf. cbn [orb andb Z.eqb Pos.eqb CHAR_BIT].
    rewrite convert_switch_spec by exact Hv.
    destruct (switch_returns C T); [reflexivity|].
    rewrite <- Hxf. exact Hgen.
Qed.

Lemma fast_path_equals_general_witness :
  nadine_convert_ui config_le32 (host_int false 0 4) 1 0x01020304%Z = Done 0x04030201%Z.
Proof.
  apply (fast_path_equals_general config_le32 (host_int false 0 4) 0 1 0x01020304%Z).
  - apply (host_int_unpadded false 0 4); [repeat constructor|reflexivity].
  - right. left. reflexivity.
  - right. left. reflexivity.
  - left. reflexivity.
  - reflexivity.
  - intros v _. reflexivity.
  - reflexivity.
  - split; [discriminate|reflexivity].
Defined.

(** ** Every access stays inside the buffer *)

Lemma for_loop_ext {S : Type} (body1 body2 : nat -> S -> outcome S) (count : nat) :
  forall (lo : nat) (s : S),
    (forall i s, lo <= i < lo + count -> body1 i s = body2 i s) ->
    for_loop body1 lo count s = for_loop body2 lo count s.
Proof.
  induction count as [|count IH]; intros lo s Hext; [reflexivity|].
  simpl. rewrite Hext by lia.
  destruct (body2 lo s) as [s'| |]; cbn [bind]; try reflexivity.
  apply IH. intros i s'' Hi. apply Hext. lia.
Qed.

(** The shift strategy reads nothing beyond the first [n] bytes. *)
Lemma read_shift_frame (signed : bool) (n : nat) (e : Z) (src rest : list Z) :
  Nat.even n = true -> length src = n ->
  read_shift signed n e (src ++ rest) = read_shift signed n e src.
Proof.
  intros Heven Hsrc. unfold read_shift. apply for_loop_ext.
  intros i acc [_ Hi]. simpl in Hi.
  pose proof (NADINE_I_INDEX_lt n e i Heven Hi) as Hidx.
  unfold load. rewrite lookup_app_l by lia. reflexivity.
Qed.

Lemma read_int_in_bounds (C : config) (signed : bool) (T : ctype Z) (o native : Z)
    (src rest : list Z) :
  2 <= sizeof T -> Nat.even (sizeof T) = true ->
  nadine_endian_native_int C T = Done native ->
  length src = sizeof T ->
  (exists r, nadine_read_int C signed T o src = Done r) /\
  nadine_read_int C signed T o (src ++ rest) = nadine_read_int C signed T o src.
Proof.
  intros Hn Heven Hnat Hsrc. unfold nadine_read_int.
  destruct (NADINE_I_USE_SHIFT_RW C).
  - split; [apply read_shift_returns; [assumption|lia]|].
    apply read_shift_frame; assumption.
  - rewrite NADINE_I_NATIVE_INT_eq, Hnat. cbn [bind].
    rewrite !read_copy_spec by (rewrite ?length_app; lia).
    rewrite take_app_length' by (symmetry; exact Hsrc).
    rewrite take_ge by lia. eauto.
Qed.

Lemma write_int_in_bounds (C : config) (signed : bool) (T : ctype Z) (o native v : Z)
    (dst rest : list Z) :
  unpadded T (int_range signed (sizeof T)) ->
  2 <= sizeof T -> Nat.even (sizeof T) = true ->
  int_range signed (sizeof T) v ->
  nadine_endian_native_int C T = Done native ->
  length dst = sizeof T ->
  exists d, length d = sizeof T /\
    nadine_write_int C T o dst v = Done d /\
    nadine_write_int C T o (dst ++ rest) v = Done (d ++ rest).
Proof.
  intros HT Hn Heven Hv Hnat Hdst. unfold nadine_write_int.
  destruct (NADINE_I_USE_SHIFT_RW C).
  - exists (byte_order o (sizeof T) v).
    split; [unfold byte_order; rewrite length_transform; apply length_le_bytes|].
    split; [|apply write_shift_spec; assumption].
    rewrite <- (app_nil_r dst), write_shift_spec, app_nil_r by assumption.
    reflexivity.
  - rewrite NADINE_I_NATIVE_INT_eq, Hnat. cbn [bind].
    exists (transform (Z.lxor native o) (type_pun T v)).
    split; [rewrite length_transform; apply (pun_length T _ HT); exact Hv|].
    split; [|apply (write_copy_spec T _ native o dst rest v HT); try assumption; lia].
    rewrite <- (app_nil_r dst).
    rewrite (write_copy_spec T _ native o dst [] v HT) by (try assumption; lia).
    rewrite app_nil_r. reflexivity.
Qed.

(** C9: for every supported type and every valid order tag, the index
    function of the shift strategy stays below [sizeof(T)] for every
    [i < sizeof(T)]; reading from a source of exactly [sizeof(T)] bytes
    returns, and bytes placed after the source do not change what is read;
    writing into a destination of exactly [sizeof(T)] bytes returns, and
    bytes placed after the destination are left as they were.  No read or
    write therefore uses an index outside [0, sizeof(T)). *)
Theorem read_write_in_bounds (C : config) (s : scalar) (o native : Z) (v : value s)
    (src dst rest : list Z) :
  supported s -> valid_endian o -> in_range s v ->
  nadine_endian_native C s = Done native ->
  native <> NADINE_ENDIAN_UNKNOWN C ->
  length src = size_of s -> length dst = size_of s ->
  (forall i, i < size_of s -> NADINE_I_INDEX (size_of s) o i < size_of s) /\
  (exists r, nadine_read C s o src = Done r) /\
  nadine_read C s o (src ++ rest) = nadine_read C s o src /\
  (exists d, length d = size_of s /\
     nadine_write C s o dst v = Done d /\
     nadine_write C s o (dst ++ rest) v = Done (d ++ rest)).
Proof.
  intros Hs _ Hv Hnat _ Hsrc Hdst.
  assert (Hread : (exists r, nadine_read C s o src = Done r) /\
                  nadine_read C s o (src ++ rest) = nadine_read C s o src).
  { destruct s as [T|T TU|V T two ok]; simpl in *.
    - destruct Hs as (Hn & Heven & HT). simpl in Hn, Heven.
      apply (read_int_in_bounds C false T o native); assumption.
    - destruct Hs as (Hn & Heven & HT & _). simpl in Hn, Heven.
      apply (read_int_in_bounds C true T o native); assumption.
    - destruct Hs as (Hn & Heven & HT & Htwo & Hot). simpl in Hn, Heven.
      unfold nadine_read_f.
      rewrite NADINE_I_NATIVE_FLOAT_eq, Hnat;
        [|apply (pun_length T _ HT); exact Htwo|exact Hn|exact Hot].
      cbn [bind].
      rewrite !read_copy_spec by (rewrite ?length_app; lia).
      rewrite take_app_length' by (symmetry; exact Hsrc).
      rewrite take_ge by lia. eauto. }
  assert (Hwrite : exists d, length d = size_of s /\
                     nadine_write C s o dst v = Done d /\
                     nadine_write C s o (dst ++ rest) v = Done (d ++ rest)).
  { destruct s as [T|T TU|V T two ok]; simpl in *.
    - destruct Hs as (Hn & Heven & HT). simpl in Hn, Heven.
      apply (write_int_in_bounds C false T o native); assumption.
    - destruct Hs as (Hn & Heven & HT & _). simpl in Hn, Heven.
      apply (write_int_in_bounds C true T o native); assumption.
    - destruct Hs as (Hn & Heven & HT & Htwo & Hot). simpl in Hn, Heven.
      unfold nadine_write_f.
      rewrite NADINE_I_NATIVE_FLOAT_eq, Hnat;
        [|apply (pun_length T _ HT); exact Htwo|exact Hn|exact Hot].
      cbn [bind].
      exists (transform (Z.lxor native o) (type_pun T v)).
      split; [rewrite length_transform; apply (pun_length T _ HT); exact Hv|].
      split; [|apply (write_copy_spec T _ native o dst rest v HT); try assumption; lia].
      rewrite <- (app_nil_r dst).
      rewrite (write_copy_spec T _ native o dst [] v HT) by (try assumption; lia).
      rewrite app_nil_r. reflexivity. }
  destruct Hread as [Hr1 Hr2].
  split; [|split; [exact Hr1|split; [exact Hr2|exact Hwrite]]].
  intros i Hi. destruct Hs as (_ & Heven & _).
  apply NADINE_I_INDEX_lt; assumption.
Qed.

Lemma read_write_in_bounds_witness :
  (forall i, i < 2 -> NADINE_I_INDEX 2 3 i < 2) /\
  exists r,
    nadine_read config_le32 (Unsigned (host_int false 0 2)) 3 [1; 2]%Z = Done r.
Proof.
  destruct (read_write_in_bounds config_le32 (Unsigned (host_int false 0 2)) 3 0
              258%Z [1; 2]%Z [0; 0]%Z [7]%Z) as (Hidx & Hr & _).
  - apply host_unsigned_supported; [repeat constructor|reflexivity].
  - right. right. right. reflexivity.
  - split; [discriminate|reflexivity].
  - reflexivity.
  - discriminate.
  - reflexivity.
  - reflexivity.
  - split; assumption.
Defined.

(** ** The detector recognises each of the four host orders *)

Lemma le_bytes_one_lookup (n j : nat) :
  j < n -> le_bytes n 1 !! j = Some (if decide (j = 0) then 1%Z else 0%Z).
Proof.
  intros Hj. rewrite le_bytes_lookup by exact Hj. f_equal.
  destruct (decide (j = 0)) as [->|Hne]; [reflexivity|].
  rewrite Z.shiftr_div_pow2 by (unfold CHAR_BIT; lia).
  rewrite Z.div_small; [reflexivity|].
  split; [lia|]. apply Z.pow_gt_1; unfold CHAR_BIT; lia.
Qed.

Lemma NADINE_I_INDEX_zero (n : nat) (e : Z) (i : nat) :
  Nat.even n = true -> 2 <= n -> i < n ->
  NADINE_I_INDEX n e i = 0 <-> i = NADINE_I_INDEX n e 0.
Proof.
  intros Heven Hn Hi. split.
  - intros H. rewrite <- H. symmetry. apply NADINE_I_INDEX_involutive; assumption.
  - intros ->. apply NADINE_I_INDEX_involutive; [assumption|lia].
Qed.

(** Where the one set byte of the value 1 lies in byte order [h]. *)
Lemma byte_order_one_lookup (h : Z) (n i : nat) :
  Nat.even n = true -> 2 <= n -> i < n ->
  byte_order h n 1 !! i
  = Some (if decide (i = NADINE_I_INDEX n h 0) then 1%Z else 0%Z).
Proof.
  intros Heven Hn Hi. unfold byte_order.
  pose proof (transform_lookup h (le_bytes n 1) i) as Ht.
  rewrite length_le_bytes in Ht. rewrite Ht by assumption.
  rewrite le_bytes_one_lookup by (apply NADINE_I_INDEX_lt; assumption).
  f_equal.
  pose proof (NADINE_I_INDEX_zero n h i Heven Hn Hi) as Hz.
  destruct (decide (NADINE_I_INDEX n h i = 0)), (decide (i = NADINE_I_INDEX n h 0));
    tauto.
Qed.

Lemma NADINE_I_INDEX_of_zero (n : nat) (h : Z) :
  Nat.even n = true -> 2 <= n -> valid_endian h ->
  NADINE_I_INDEX n h 0 =
    if (h =? 0)%Z then 0 else if (h =? 1)%Z then n - 1
    else if (h =? 2)%Z then 1 else n - 2.
Proof.
  intros Heven Hn Hh. rewrite NADINE_I_INDEX_eq. cbv zeta.
  pose proof (even_sub_pred n 0 Heven ltac:(lia)) as Hp. simpl in Hp.
  destruct Hh as [->|[->|[->| ->]]]; simpl; try reflexivity; try lia.
  rewrite Hp. lia.
Qed.

Lemma int_range_one (signed : bool) (n : nat) : 2 <= n -> int_range signed n 1.
Proof.
  intros Hn. apply (int_range_small signed n 1); [lia|].
  unfold width, CHAR_BIT. simpl. lia.
Qed.

(** On two bytes the swap-chars orders coincide with the plain ones. *)
Lemma transform_two_bytes (h : Z) (l : list Z) :
  length l = 2 -> transform (Z.lxor h 3) l = transform h l.
Proof.
  intros Hl. destruct l as [|a [|b [|]]]; try discriminate.
  unfold transform. rewrite !Z.lxor_spec.
  destruct (Z.testbit h 0), (Z.testbit h 1); reflexivity.
Qed.

(** With automatic detection, on a host that stores an integer type in one
    of the four orders, the order the conversions work from is a valid tag
    the type is stored in. *)
Lemma detection_sound (C : config) (signed : bool) (T : ctype Z) (h : Z) :
  NADINE_NATIVE_ENDIAN_INT C = None ->
  valid_endian h -> 2 <= sizeof T -> Nat.even (sizeof T) = true ->
  stored_in_order signed T h ->
  exists native,
    NADINE_I_NATIVE_INT C T = Done native /\ valid_endian native /\
    stored_in_order signed T native.
Proof.
  intros Hcfg Hh Hn Heven Hst.
  rewrite NADINE_I_NATIVE_INT_eq. unfold nadine_endian_native_int. rewrite Hcfg.
  rewrite (Hst 1%Z (int_range_one signed _ Hn)).
  rewrite (probe_cascade C _ (sizeof T) _ _ _ _ _ _ Hn
             (byte_order_one_lookup h _ 0 Heven Hn ltac:(lia))
             (byte_order_one_lookup h _ (sizeof T - 1) Heven Hn ltac:(lia))
             (byte_order_one_lookup h _ 1 Heven Hn ltac:(lia))
             (byte_order_one_lookup h _ (sizeof T - 2) Heven Hn ltac:(lia))).
  rewrite (NADINE_I_INDEX_of_zero _ h Heven Hn Hh).
  assert (Htwo : sizeof T = 2 ->
            stored_in_order signed T (Z.lxor h 3)).
  { intros H2 v Hv. rewrite (Hst v Hv). unfold byte_order. symmetry.
    apply transform_two_bytes. rewrite length_le_bytes. exact H2. }
  assert (Hodd : sizeof T <> 3).
  { intros E. rewrite E in Heven. discriminate. }
  destruct Hh as [->|[->|[->| ->]]];
    unfold NADINE_ENDIAN_LITTLE, NADINE_ENDIAN_BIG, NADINE_ENDIAN_SWAPCHARS in *;
    simpl Z.lor in *; simpl Z.eqb;
    repeat match goal with
    | |- context [decide ?P] => destruct (decide P)
    end; try lia; cbn [Z.eqb negb];
    (eexists; split; [reflexivity|]; split;
      [ first [ left; reflexivity | right; left; reflexivity
              | right; right; left; reflexivity | right; right; right; reflexivity ]
      | first [ exact Hst | apply Htwo; lia ] ]).
Qed.

(** ** Outside the supported sizes

    The supported rows have an even size.  On a span of odd length the pair
    swap leaves the last byte alone, so a transform with both bits set no
    longer undoes itself, and the index function of the shift strategy
    leaves the value. *)

Example transform_twice_three_bytes :
  transform 3 (transform 3 [1; 2; 3]%Z) = [3; 1; 2]%Z.
Proof. reflexivity. Qed.

Example index_three_bytes : NADINE_I_INDEX 3 2 2 = 3.
Proof. reflexivity. Qed.

Example write_shift_three_bytes :
  write_shift 3 2 [0; 0; 0]%Z 0x010203%Z = Undefined.
Proof. reflexivity. Qed.

(** ** The assertions of [nadine_test.c] on the model

    The test program's expectations, evaluated for a little-endian host with
    the shift strategy and for a big-endian host with the copy strategy. *)

Example test_uint16_read :
  nadine_read config_le32 (Unsigned (host_int false 0 2)) NADINE_ENDIAN_BIG [1; 2]%Z
    = Done 0x0102%Z /\
  nadine_read config_le32 (Unsigned (host_int false 0 2)) NADINE_ENDIAN_LITTLE [1; 2]%Z
    = Done 0x0201%Z /\
  nadine_read config_copy (Unsigned (host_int false 1 2)) NADINE_ENDIAN_BIG [1; 2]%Z
    = Done 0x0102%Z /\
  nadine_read config_copy (Unsigned (host_int false 1 2)) NADINE_ENDIAN_LITTLE [1; 2]%Z
    = Done 0x0201%Z.
Proof. repeat split; reflexivity. Qed.

Example test_uint32_convert :
  nadine_endian_native config_le32 (Unsigned (host_int false 0 4))
    = Done NADINE_ENDIAN_LITTLE /\
  nadine_convert config_le32 (Unsigned (host_int false 0 4)) NADINE_ENDIAN_BIG
    0x01020304%Z = Done 0x04030201%Z /\
  nadine_convert config_le32 (Unsigned (host_int false 0 4)) NADINE_ENDIAN_LITTLE
    0x01020304%Z = Done 0x01020304%Z /\
  nadine_endian_native config_copy (Signed (host_int true 1 4) (host_int false 1 4))
    = Done NADINE_ENDIAN_BIG /\
  nadine_convert config_copy (Signed (host_int true 1 4) (host_int false 1 4))
    NADINE_ENDIAN_LITTLE 0x01020304%Z = Done 0x04030201%Z.
Proof. repeat split; reflexivity. Qed.

Example test_uint64_write :
  nadine_write config_le32 (Unsigned (host_int false 0 8)) NADINE_ENDIAN_BIG
    [0; 0; 0; 0; 0; 0; 0; 0]%Z 0x0102030405060708%Z
    = Done [1; 2; 3; 4; 5; 6; 7; 8]%Z /\
  nadine_write config_copy (Unsigned (host_int false 1 8)) NADINE_ENDIAN_LITTLE
    [0; 0; 0; 0; 0; 0; 0; 0]%Z 0x0102030405060708%Z
    = Done [8; 7; 6; 5; 4; 3; 2; 1]%Z.
Proof. repeat split; reflexivity. Qed.

Example test_float_write :
  nadine_endian_native config_le32 (host_binary32 0) = Done NADINE_ENDIAN_LITTLE /\
  nadine_write config_le32 (host_binary32 0) NADINE_ENDIAN_BIG [0; 0; 0; 0]%Z
    0x40E00000%Z = Done [0x40; 0xE0; 0x00; 0x00]%Z /\
  nadine_write config_le32 (host_binary32 0) NADINE_ENDIAN_LITTLE [0; 0; 0; 0]%Z
    0x40E00000%Z = Done [0x00; 0x00; 0xE0; 0x40]%Z /\
  nadine_read config_le32 (host_binary32 0) NADINE_ENDIAN_BIG
    [0x40; 0xE0; 0x00; 0x00]%Z = Done 0x40E00000%Z.
Proof. repeat split; reflexivity. Qed.

(** * Further properties of the header's functions *)

(** ** The byte primitives *)

Lemma memcpy_loop_fault (src : list Z) (n : nat) :
  forall (k : nat) (dst : list Z),
    k <= length dst -> k <= length src ->
    length dst < k + n \/ length src < k + n ->
    memcpy_loop n dst src k = Undefined.
Proof.
  induction n as [|n IH]; intros k dst Hdst Hsrc Hshort; [lia|].
  simpl memcpy_loop. unfold load.
  destruct (src !! k) as [x|] eqn:Hx; [|reflexivity].
  apply lookup_lt_Some in Hx. cbn [bind]. unfold store.
  destruct (decide (k < length dst)) as [Hk|Hk]; [|reflexivity].
  cbn [bind]. apply IH; rewrite ?length_insert; lia.
Qed.

Lemma nadine_i_memcpy_spec_or_fault (dst src : list Z) (n : nat) :
  nadine_i_memcpy dst src n =
    if decide (n <= length dst /\ n <= length src)
    then Done (take n src ++ drop n dst)
    else Undefined.
Proof.
  destruct (decide (n <= length dst /\ n <= length src)) as [[H1 H2]|H].
  - apply nadine_i_memcpy_spec; assumption.
  - apply memcpy_loop_fault; lia.
Qed.

(** [nadine_i_memcpy] returns exactly when both buffers hold at least [n]
    bytes; it then replaces the first [n] bytes of the destination by the
    first [n] bytes of the source and keeps the others.  With a shorter
    buffer it runs off its end. *)
Theorem nadine_i_memcpy_bounds (dst src : list Z) (n : nat) :
  nadine_i_memcpy dst src n =
    if decide (n <= length dst /\ n <= length src)
    then Done (take n src ++ drop n dst)
    else Undefined.
Proof.
  destruct (decide (n <= length dst /\ n <= length src)) as [[Hdst Hsrc]|Hshort].
  - apply nadine_i_memcpy_spec; assumption.
  - apply memcpy_loop_fault; lia.
Qed.

(** Reversing a span twice restores it; bytes after the span are never
    touched. *)
Theorem nadine_i_memrev_involutive (p rest : list Z) (n : nat) :
  length p = n -> 1 <= n ->
  exists q,
    nadine_i_memrev (p ++ rest) n = Done (q ++ rest) /\ length q = n /\
    nadine_i_memrev (q ++ rest) n = Done (p ++ rest).
Proof.
  intros Hlen Hn. exists (reverse p).
  split; [apply nadine_i_memrev_reverse; assumption|].
  split; [rewrite length_reverse; exact Hlen|].
  rewrite nadine_i_memrev_reverse by (rewrite ?length_reverse; assumption).
  rewrite reverse_involutive. reflexivity.
Qed.

Lemma nadine_i_memrev_involutive_witness :
  exists q,
    nadine_i_memrev ([1; 2; 3; 4; 5]%Z ++ [9]%Z) 5 = Done (q ++ [9]%Z) /\
    nadine_i_memrev (q ++ [9]%Z) 5 = Done ([1; 2; 3; 4; 5]%Z ++ [9]%Z).
Proof.
  destruct (nadine_i_memrev_involutive [1; 2; 3; 4; 5]%Z [9]%Z 5 eq_refl
              ltac:(repeat constructor)) as (q & H1 & _ & H2).
  exists q. split; assumption.
Defined.

(** Swapping the pairs of a span twice restores it, for an odd length as
    well as for an even one. *)
Theorem nadine_i_byteswap_involutive (p rest : list Z) (n : nat) :
  length p = n -> 1 <= n ->
  exists q,
    nadine_i_byteswap (p ++ rest) n = Done (q ++ rest) /\ length q = n /\
    nadine_i_byteswap (q ++ rest) n = Done (p ++ rest).
Proof.
  intros Hlen Hn. exists (swap_pairs p).
  split; [apply nadine_i_byteswap_swap_pairs; assumption|].
  split; [rewrite length_swap_pairs; exact Hlen|].
  rewrite nadine_i_byteswap_swap_pairs by (rewrite ?length_swap_pairs; assumption).
  rewrite swap_pairs_involutive. reflexivity.
Qed.

Lemma nadine_i_byteswap_involutive_witness :
  exists q,
    nadine_i_byteswap ([1; 2; 3]%Z ++ [9]%Z) 3 = Done (q ++ [9]%Z) /\
    nadine_i_byteswap (q ++ [9]%Z) 3 = Done ([1; 2; 3]%Z ++ [9]%Z).
Proof.
  destruct (nadine_i_byteswap_involutive [1; 2; 3]%Z [9]%Z 3 eq_refl
              ltac:(repeat constructor)) as (q & H1 & _ & H2).
  exists q. split; assumption.
Defined.

(** On a span of even length, transforming with one code and then with
    another is transforming once with the exclusive or of the codes; in
    particular the order of the two steps does not matter. *)
Theorem nadine_i_xform_compose (p : list Z) (n : nat) (a b : Z) :
  length p = n -> 1 <= n -> Nat.even n = true ->
  (let* q := nadine_i_xform p n a in nadine_i_xform q n b)
  = nadine_i_xform p n (Z.lxor b a).
Proof.
  intros Hlen Hn Heven.
  rewrite !nadine_i_xform_exact by assumption. cbn [bind].
  rewrite nadine_i_xform_exact by (rewrite ?length_transform; assumption).
  rewrite transform_compose by (rewrite Hlen; exact Heven). reflexivity.
Qed.

Lemma nadine_i_xform_compose_witness :
  (let* q := nadine_i_xform [1; 2; 3; 4]%Z 4 1 in nadine_i_xform q 4 2)
  = nadine_i_xform [1; 2; 3; 4]%Z 4 3.
Proof.
  exact (nadine_i_xform_compose [1; 2; 3; 4]%Z 4 1 2 eq_refl
           ltac:(repeat constructor) eq_refl).
Defined.

(** A transform only moves bytes: its result holds the bytes of the span,
    each as often as before, and the bytes after the span stay in place. *)
Theorem nadine_i_xform_permutes (p rest : list Z) (n : nat) (xf : Z) :
  length p = n -> 1 <= n ->
  exists q,
    nadine_i_xform (p ++ rest) n xf = Done (q ++ rest) /\ q ≡ₚ p.
Proof.
  intros Hlen Hn. exists (transform xf p).
  split; [apply nadine_i_xform_transform; assumption|].
  unfold transform.
  destruct (Z.testbit xf 0), (Z.testbit xf 1);
    rewrite ?swap_pairs_Permutation, ?reverse_Permutation; reflexivity.
Qed.

Lemma nadine_i_xform_permutes_witness :
  exists q,
    nadine_i_xform ([1; 2; 3]%Z ++ [9]%Z) 3 3 = Done (q ++ [9]%Z) /\
    q ≡ₚ [1; 2; 3]%Z.
Proof.
  exact (nadine_i_xform_permutes [1; 2; 3]%Z [9]%Z 3 3 eq_refl
           ltac:(repeat constructor)).
Defined.

(** ** Tags outside the four valid ones *)

Lemma nadine_i_xform_low_bits (p : list Z) (n : nat) (xf xf' : Z) :
  Z.testbit xf 0 = Z.testbit xf' 0 -> Z.testbit xf 1 = Z.testbit xf' 1 ->
  nadine_i_xform p n xf = nadine_i_xform p n xf'.
Proof.
  intros H0 H1. unfold nadine_i_xform.
  rewrite !land_1_eqb, !land_2_eqb, H0, H1. reflexivity.
Qed.

Lemma testbit_land_3 (o : Z) :
  Z.testbit (Z.land o 3) 0 = Z.testbit o 0 /\
  Z.testbit (Z.land o 3) 1 = Z.testbit o 1.
Proof. rewrite !Z.land_spec. split; apply andb_true_r. Qed.

Lemma NADINE_I_INDEX_land_3 (n : nat) (o : Z) (i : nat) :
  NADINE_I_INDEX n (Z.land o 3) i = NADINE_I_INDEX n o i.
Proof.
  rewrite !NADINE_I_INDEX_eq.
  destruct (testbit_land_3 o) as [-> ->]. reflexivity.
Qed.

(** The read and write functions do not check their tag: they look at its
    two low bits only, so any tag acts as the valid tag [endian & 3]. *)
Theorem read_write_ignore_high_bits (C : config) (signed : bool) (T : ctype Z)
    (o v : Z) (buf : list Z) :
  nadine_write_int C T o buf v = nadine_write_int C T (Z.land o 3) buf v /\
  nadine_read_int C signed T o buf = nadine_read_int C signed T (Z.land o 3) buf.
Proof.
  assert (Hx : forall native p,
            nadine_i_xform p (sizeof T) (Z.lxor native o)
            = nadine_i_xform p (sizeof T) (Z.lxor native (Z.land o 3))).
  { intros native p. destruct (testbit_land_3 o) as [H0 H1].
    apply nadine_i_xform_low_bits; rewrite !Z.lxor_spec, ?H0, ?H1; reflexivity. }
  unfold nadine_write_int, nadine_read_int.
  destruct (NADINE_I_USE_SHIFT_RW C).
  - split; apply for_loop_ext; intros i s _;
      rewrite NADINE_I_INDEX_land_3; reflexivity.
  - destruct (NADINE_I_NATIVE_INT C T) as [native| |]; cbn [bind];
      try (split; reflexivity).
    unfold write_copy, read_copy. rewrite Hx.
    split; [reflexivity|].
    destruct (nadine_i_memcpy (replicate (sizeof T) 0%Z) buf (sizeof T)) as [p| |];
      cbn [bind]; try reflexivity.
    rewrite Hx. reflexivity.
Qed.

(** ** Native-order detection, continued *)





(** With automatic detection, on a host that stores an integer type of even
    size in one of the four orders, the detector returns a valid tag, never
    the unknown sentinel, and the type is stored in the order of that tag.
    (For a two-byte type the tag is little or big, the swap-chars orders
    being the same layouts.) *)
Theorem int_detector_sound (C : config) (signed : bool) (T : ctype Z) (h : Z) :
  NADINE_NATIVE_ENDIAN_INT C = None ->
  valid_endian h -> 2 <= sizeof T -> Nat.even (sizeof T) = true ->
  stored_in_order signed T h ->
  exists native,
    nadine_endian_native_int C T = Done native /\ valid_endian native /\
    stored_in_order signed T native /\
    (4 <= sizeof T -> native = h).
Proof.
  intros Hcfg Hh Hn Heven Hst.
  destruct (detection_sound C signed T h Hcfg Hh Hn Heven Hst)
    as (native & Hnat & Hvalid & Hst').
  rewrite NADINE_I_NATIVE_INT_eq in Hnat.
  exists native. do 3 (split; [assumption|]).
  intros H4.
  (* both tags describe the bytes of 1, which tell them apart from 4 bytes on *)
  pose proof (Hst 1%Z (int_range_one signed _ Hn)) as H1.
  rewrite (Hst' 1%Z (int_range_one signed _ Hn)) in H1.
  assert (Hidx : NADINE_I_INDEX (sizeof T) native 0 = NADINE_I_INDEX (sizeof T) h 0).
  { pose proof (byte_order_one_lookup native (sizeof T)
                  (NADINE_I_INDEX (sizeof T) native 0) Heven Hn
                  ltac:(apply NADINE_I_INDEX_lt; [assumption|lia])) as Ha.
    pose proof (byte_order_one_lookup h (sizeof T)
                  (NADINE_I_INDEX (sizeof T) native 0) Heven Hn
                  ltac:(apply NADINE_I_INDEX_lt; [assumption|lia])) as Hb.
    rewrite H1 in Ha. rewrite Hb in Ha.
    rewrite (decide_True (P := _ = NADINE_I_INDEX (sizeof T) native 0)) in Ha
      by reflexivity.
    destruct (decide (NADINE_I_INDEX (sizeof T) native 0
                      = NADINE_I_INDEX (sizeof T) h 0)); [assumption|discriminate]. }
  rewrite !NADINE_I_INDEX_of_zero in Hidx by assumption.
  unfold valid_endian, NADINE_ENDIAN_LITTLE, NADINE_ENDIAN_BIG,
    NADINE_ENDIAN_SWAPCHARS in *. simpl Z.lor in *.
  destruct Hvalid as [->|[->|[->| ->]]], Hh as [->|[->|[->| ->]]];
    simpl in Hidx; try reflexivity; lia.
Qed.

Lemma int_detector_sound_witness :
  exists native,
    nadine_endian_native_int config_le32 (host_int true 2 8) = Done native /\
    valid_endian native.
Proof.
  destruct (int_detector_sound config_le32 true (host_int true 2 8) 2)
    as (native & H1 & H2 & _).
  - reflexivity.
  - right. right. left. reflexivity.
  - repeat constructor.
  - reflexivity.
  - intros v _. reflexivity.
  - exists native. split; assumption.
Defined.

Lemma top_byte_lookup (n j : nat) (b : Z) :
  1 <= n -> j < n ->
  (replicate (n - 1) 0%Z ++ [b]) !! j = Some (if decide (j = n - 1) then b else 0%Z).
Proof.
  intros Hn Hj. destruct (decide (j = n - 1)) as [->|Hne].
  - apply list_lookup_middle. rewrite length_replicate. reflexivity.
  - rewrite lookup_app_l by (rewrite length_replicate; lia).
    apply lookup_replicate_2. lia.
Qed.

Lemma NADINE_I_INDEX_of_last (n : nat) (h : Z) :
  Nat.even n = true -> 2 <= n -> valid_endian h ->
  NADINE_I_INDEX n h (n - 1) =
    if (h =? 0)%Z then n - 1 else if (h =? 1)%Z then 0
    else if (h =? 2)%Z then n - 2 else 1.
Proof.
  intros Heven Hn Hh. rewrite NADINE_I_INDEX_eq. cbv zeta.
  pose proof (even_sub_pred n 0 Heven ltac:(lia)) as Hp. simpl in Hp.
  replace (n - 0 - 1) with (n - 1) in Hp by lia.
  replace (n - (n - 1) - 1) with 0 by lia.
  destruct Hh as [->|[->|[->| ->]]]; simpl; try reflexivity.
  rewrite Hp. lia.
Qed.

(** Where the one set byte lies when the top byte alone is set. *)
Lemma transform_top_byte_lookup (h : Z) (n i : nat) (b : Z) :
  Nat.even n = true -> 2 <= n -> i < n ->
  transform h (replicate (n - 1) 0%Z ++ [b]) !! i
  = Some (if decide (i = NADINE_I_INDEX n h (n - 1)) then b else 0%Z).
Proof.
  intros Heven Hn Hi.
  assert (Hlen : length (replicate (n - 1) 0%Z ++ [b]) = n)
    by (rewrite length_app, length_replicate; simpl; lia).
  pose proof (transform_lookup h (replicate (n - 1) 0%Z ++ [b]) i) as Ht.
  rewrite Hlen in Ht. rewrite Ht by assumption.
  pose proof (NADINE_I_INDEX_lt n h i Heven Hi) as Hlt.
  rewrite top_byte_lookup by lia. f_equal.
  assert (Hz : NADINE_I_INDEX n h i = n - 1 <-> i = NADINE_I_INDEX n h (n - 1)).
  { split.
    - intros H. rewrite <- H. symmetry. apply NADINE_I_INDEX_involutive; assumption.
    - intros ->. apply NADINE_I_INDEX_involutive; [assumption|lia]. }
  destruct (decide (NADINE_I_INDEX n h i = n - 1)),
           (decide (i = NADINE_I_INDEX n h (n - 1))); tauto.
Qed.

(** With automatic detection, when only the most significant byte of 2.0 is
    set (IEEE 754) and the host stores the floating type of even size in one
    of the four orders, the macro and the function both return a valid tag
    that denotes the host's order. *)
Theorem float_detector_sound (C : config) {V : Type} (T : ctype V) (two : V)
    (h b : Z) :
  NADINE_NATIVE_ENDIAN_FLOAT C = None ->
  valid_endian h -> 2 <= sizeof T -> Nat.even (sizeof T) = true ->
  b <> 0%Z ->
  type_pun T two = transform h (replicate (sizeof T - 1) 0%Z ++ [b]) ->
  exists native,
    nadine_endian_native_float C T two = Done native /\
    NADINE_I_NATIVE_FLOAT C T two = Done native /\
    valid_endian native /\
    forall l : list Z, length l = sizeof T -> transform native l = transform h l.
Proof.
  intros Hcfg Hh Hn Heven Hb Hpun.
  assert (Hlen : length (type_pun T two) = sizeof T).
  { rewrite Hpun, length_transform, length_app, length_replicate. simpl. lia. }
  assert (Hot : one_hot (type_pun T two)).
  { intros i j x y Hi Hj Hx Hy. rewrite Hpun in Hi, Hj.
    pose proof (lookup_lt_Some _ _ _ Hi) as Hil.
    pose proof (lookup_lt_Some _ _ _ Hj) as Hjl.
    rewrite <- Hpun, Hlen in Hil, Hjl.
    rewrite transform_top_byte_lookup in Hi, Hj by assumption.
    destruct (decide (i = NADINE_I_INDEX (sizeof T) h (sizeof T - 1)));
      [|congruence].
    destruct (decide (j = NADINE_I_INDEX (sizeof T) h (sizeof T - 1)));
      congruence. }
  rewrite (NADINE_I_NATIVE_FLOAT_eq C T two Hlen Hn Hot).
  unfold nadine_endian_native_float. rewrite Hcfg, Hpun.
  rewrite (probe_cascade C _ (sizeof T) _ _ _ _ _ _ Hn
             (transform_top_byte_lookup h _ 0 b Heven Hn ltac:(lia))
             (transform_top_byte_lookup h _ (sizeof T - 1) b Heven Hn ltac:(lia))
             (transform_top_byte_lookup h _ 1 b Heven Hn ltac:(lia))
             (transform_top_byte_lookup h _ (sizeof T - 2) b Heven Hn ltac:(lia))).
  rewrite (NADINE_I_INDEX_of_last _ h Heven Hn Hh).
  assert (Htwo : sizeof T = 2 ->
            forall l : list Z, length l = sizeof T ->
              transform (Z.lxor h 3) l = transform h l).
  { intros H2 l Hl. apply transform_two_bytes. lia. }
  assert (Hodd : sizeof T <> 3).
  { intros E. rewrite E in Heven. discriminate. }
  assert (Hb' : (b =? 0)%Z = false) by (apply Z.eqb_neq; exact Hb).
  destruct Hh as [->|[->|[->| ->]]];
    unfold NADINE_ENDIAN_LITTLE, NADINE_ENDIAN_BIG, NADINE_ENDIAN_SWAPCHARS in *;
    simpl Z.lor in *; simpl Z.eqb;
    repeat match goal with
    | |- context [decide ?P] => destruct (decide P)
    end; try lia; rewrite ?Hb'; cbn [Z.eqb negb];
    (eexists; split; [reflexivity|]; split; [reflexivity|]; split;
      [ first [ left; reflexivity | right; left; reflexivity
              | right; right; left; reflexivity | right; right; right; reflexivity ]
      | first [ reflexivity | apply Htwo; lia ] ]).
Qed.

Lemma float_detector_sound_witness :
  exists native,
    nadine_endian_native_float config_le32 (host_int false 3 8)
      0x4000000000000000%Z = Done native /\
    valid_endian native.
Proof.
  destruct (float_detector_sound config_le32 (host_int false 3 8)
              0x4000000000000000%Z 3 0x40%Z) as (native & H1 & _ & H2 & _).
  - reflexivity.
  - right. right. right. reflexivity.
  - repeat constructor.
  - reflexivity.
  - discriminate.
  - reflexivity.
  - exists native. split; assumption.
Defined.

(** ** What read, write and convert compute *)

Lemma write_int_layout (C : config) (signed : bool) (T : ctype Z) (o native v : Z)
    (d rest : list Z) :
  unpadded T (int_range signed (sizeof T)) ->
  1 <= sizeof T -> Nat.even (sizeof T) = true ->
  NADINE_I_NATIVE_INT C T = Done native ->
  stored_in_order signed T native ->
  int_range signed (sizeof T) v ->
  length d = sizeof T ->
  nadine_write_int C T o (d ++ rest) v = Done (byte_order o (sizeof T) v ++ rest).
Proof.
  intros HT Hn Heven Hnat Hst Hv Hd. unfold nadine_write_int.
  destruct (NADINE_I_USE_SHIFT_RW C).
  - apply write_shift_spec; assumption.
  - rewrite Hnat. cbn [bind].
    rewrite (write_copy_spec T _ native o d rest v HT) by assumption.
    rewrite (Hst v Hv). unfold byte_order.
    rewrite transform_compose by (rewrite length_le_bytes; exact Heven).
    rewrite lxor_cancel_r. reflexivity.
Qed.

Lemma read_int_decode (C : config) (signed : bool) (T : ctype Z) (o native : Z)
    (src : list Z) :
  unpadded T (int_range signed (sizeof T)) ->
  2 <= sizeof T -> Nat.even (sizeof T) = true ->
  NADINE_I_NATIVE_INT C T = Done native ->
  stored_in_order signed T native ->
  sizeof T <= length src -> Forall is_uchar src ->
  nadine_read_int C signed T o src
  = Done (int_cast signed (sizeof T)
            (le_value (transform o (take (sizeof T) src)))).
Proof.
  intros HT Hn Heven Hnat Hst Hsrc Hbytes. unfold nadine_read_int.
  assert (Hlen : length (take (sizeof T) src) = sizeof T)
    by (rewrite length_take; lia).
  assert (Htake : Forall is_uchar (take (sizeof T) src))
    by (apply Forall_take; exact Hbytes).
  destruct (NADINE_I_USE_SHIFT_RW C).
  - apply read_shift_spec; assumption.
  - rewrite Hnat. cbn [bind]. rewrite read_copy_spec by lia. f_equal.
    rewrite (unpun_stored signed T native)
      by (try apply Forall_transform; rewrite ?length_transform;
          try assumption; lia).
    rewrite transform_compose by (rewrite Hlen; exact Heven).
    rewrite lxor_cancel_l. reflexivity.
Qed.

(** Whatever the host's own order and whichever strategy is compiled in,
    writing [v] under tag [o] stores the bytes of [v] in order [o] into the
    first [sizeof(T)] bytes of the destination and keeps the rest. *)
Theorem write_stores_requested_order (C : config) (signed : bool) (T : ctype Z)
    (o native v : Z) (d rest : list Z) :
  unpadded T (int_range signed (sizeof T)) ->
  2 <= sizeof T -> Nat.even (sizeof T) = true ->
  NADINE_I_NATIVE_INT C T = Done native ->
  stored_in_order signed T native ->
  int_range signed (sizeof T) v ->
  length d = sizeof T ->
  nadine_write_int C T o (d ++ rest) v = Done (byte_order o (sizeof T) v ++ rest).
Proof.
  intros HT Hn Heven Hnat Hst Hv Hd.
  apply (write_int_layout C signed T o native); try assumption. lia.
Qed.

Lemma write_stores_requested_order_witness :
  nadine_write_int config_copy (host_int true 1 4) 3 ([0; 0; 0; 0]%Z ++ [7]%Z) (-2)%Z
  = Done ([0xFF; 0xFF; 0xFE; 0xFF]%Z ++ [7]%Z).
Proof.
  apply (write_stores_requested_order config_copy true (host_int true 1 4) 3 1 (-2)%Z
           [0; 0; 0; 0]%Z [7]%Z).
  - apply (host_int_unpadded true 1 4); [repeat constructor|reflexivity].
  - repeat constructor.
  - reflexivity.
  - reflexivity.
  - intros v _. reflexivity.
  - split; [discriminate|reflexivity].
  - reflexivity.
Defined.

(** Whatever the host's own order and whichever strategy is compiled in,
    reading under tag [o] returns the value whose bytes in order [o] are
    the first [sizeof(T)] bytes of the source: bytes written under [o] on one
    host are read back as the same value on any other. *)
Theorem read_decodes_requested_order (C : config) (signed : bool) (T : ctype Z)
    (o native v : Z) (rest : list Z) :
  unpadded T (int_range signed (sizeof T)) ->
  2 <= sizeof T -> Nat.even (sizeof T) = true ->
  NADINE_I_NATIVE_INT C T = Done native ->
  stored_in_order signed T native ->
  int_range signed (sizeof T) v ->
  Forall is_uchar rest ->
  nadine_read_int C signed T o (byte_order o (sizeof T) v ++ rest) = Done v.
Proof.
  intros HT Hn Heven Hnat Hst Hv Hrest.
  assert (Hlen : length (byte_order o (sizeof T) v) = sizeof T)
    by (unfold byte_order; rewrite length_transform; apply length_le_bytes).
  rewrite (read_int_decode C signed T o native); try assumption.
  - rewrite take_app_length' by (symmetry; exact Hlen). unfold byte_order.
    rewrite transform_involutive by (rewrite length_le_bytes; exact Heven).
    rewrite le_value_le_bytes, int_cast_mod_l by lia.
    rewrite int_cast_id by (try assumption; lia). reflexivity.
  - rewrite length_app. lia.
  - apply Forall_app. split; [|exact Hrest].
    apply Forall_transform, le_bytes_uchar.
Qed.

Lemma read_decodes_requested_order_witness :
  nadine_read_int config_copy true (host_int true 1 4) 3
    (byte_order 3 4 (-2)%Z ++ [7]%Z) = Done (-2)%Z.
Proof.
  apply (read_decodes_requested_order config_copy true (host_int true 1 4) 3 1 (-2)%Z
           [7]%Z).
  - apply (host_int_unpadded true 1 4); [repeat constructor|reflexivity].
  - repeat constructor.
  - reflexivity.
  - reflexivity.
  - intros v _. reflexivity.
  - split; [discriminate|reflexivity].
  - repeat constructor; discriminate.
Defined.

(** The unsigned conversion returns the value that the host stores as the
    bytes of [v] in order [o]. *)
Lemma nadine_convert_ui_image (C : config) (T : ctype Z) (o native v : Z) :
  unpadded T (int_range false (sizeof T)) ->
  2 <= sizeof T -> Nat.even (sizeof T) = true ->
  NADINE_I_NATIVE_INT C T = Done native ->
  stored_in_order false T native ->
  int_range false (sizeof T) v ->
  exists w,
    nadine_convert_ui C T o v = Done w /\ int_range false (sizeof T) w /\
    type_pun T w = byte_order o (sizeof T) v.
Proof.
  intros HT Hn Heven Hnat Hst Hv.
  assert (Hgen : exists w,
            convert_xform T (Z.lxor native o) v = Done w /\
            int_range false (sizeof T) w /\
            type_pun T w = byte_order o (sizeof T) v).
  { pose proof (pun_length T _ HT v Hv) as Hlen.
    pose proof (pun_uchar T _ HT v Hv) as Hbytes.
    exists (type_unpun T (transform (Z.lxor native o) (type_pun T v))).
    split; [apply (convert_xform_Done T _ _ v HT); [lia|exact Hv]|].
    split.
    - apply (unpun_ok T _ HT);
        [rewrite length_transform; exact Hlen|apply Forall_transform; exact Hbytes].
    - rewrite (pun_unpun T _ HT)
        by (try apply Forall_transform; rewrite ?length_transform; assumption).
      rewrite (Hst v Hv). unfold byte_order.
      rewrite transform_compose by (rewrite length_le_bytes; exact Heven).
      rewrite lxor_cancel_r. reflexivity. }
  unfold nadine_convert_ui. rewrite Hnat. cbn [bind].
  destruct ((native =? o)%Z || (sizeof T =? 1)) eqn:Eid.
  { exists v. split; [reflexivity|]. split; [exact Hv|].
    apply orb_true_iff in Eid. destruct Eid as [E|E].
    - apply Z.eqb_eq in E. subst o. apply Hst. exact Hv.
    - apply Nat.eqb_eq in E. lia. }
  destruct ((Z.lxor native o =? 1)%Z && (CHAR_BIT =? 8)%Z) eqn:Efast; [|exact Hgen].
  rewrite convert_switch_spec by exact Hv.
  destruct (switch_returns C T); [|exact Hgen].
  exists (word_reverse (sizeof T) v).
  split; [reflexivity|]. split; [apply word_reverse_range|].
  apply andb_true_iff in Efast. destruct Efast as [E _]. apply Z.eqb_eq in E.
  assert (Ho : o = Z.lxor native 1) by (rewrite <- E, lxor_cancel_l; reflexivity).
  rewrite (Hst _ (word_reverse_range _ _)). unfold byte_order, word_reverse.
  rewrite le_bytes_le_value_n
    by first [ rewrite length_reverse; apply length_le_bytes
             | apply Forall_reverse, le_bytes_uchar ].
  change (reverse (le_bytes (sizeof T) v)) with (transform 1 (le_bytes (sizeof T) v)).
  rewrite transform_compose by (rewrite length_le_bytes; exact Heven).
  rewrite Ho. reflexivity.
Qed.

(** In memory, the result of converting [v] to order [o] is [v] laid out in
    order [o]: the bytes the host stores for the converted value are the
    bytes of [v] from least to most significant for little, the reverse for
    big, with adjacent pairs exchanged under swap-chars.  This holds on every
    path of the conversion (early return, word reversal, general block). *)
Theorem convert_image_is_target_order (C : config) (T : ctype Z) (o native v : Z) :
  unpadded T (int_range false (sizeof T)) ->
  2 <= sizeof T -> Nat.even (sizeof T) = true ->
  NADINE_I_NATIVE_INT C T = Done native ->
  stored_in_order false T native ->
  int_range false (sizeof T) v ->
  exists w,
    nadine_convert_ui C T o v = Done w /\ int_range false (sizeof T) w /\
    type_pun T w = byte_order o (sizeof T) v.
Proof. apply nadine_convert_ui_image. Qed.

Lemma convert_image_is_target_order_witness :
  exists w,
    nadine_convert_ui config_le32 (host_int false 0 4) 3 0x01020304%Z = Done w /\
    type_pun (host_int false 0 4) w = [0x02; 0x01; 0x04; 0x03]%Z.
Proof.
  destruct (convert_image_is_target_order config_le32 (host_int false 0 4) 3 0
              0x01020304%Z) as (w & H1 & _ & H2).
  - apply (host_int_unpadded false 0 4); [repeat constructor|reflexivity].
  - repeat constructor.
  - reflexivity.
  - reflexivity.
  - intros v _. reflexivity.
  - split; [discriminate|reflexivity].
  - exists w. split; assumption.
Defined.

Lemma nadine_convert_si_image (C : config) (T TU : ctype Z)
    (o native v : Z) :
  unpadded T (int_range true (sizeof T)) ->
  unpadded TU (int_range false (sizeof TU)) ->
  sizeof TU = sizeof T ->
  2 <= sizeof T -> Nat.even (sizeof T) = true ->
  NADINE_I_NATIVE_INT C TU = Done native ->
  stored_in_order true T native -> stored_in_order false TU native ->
  int_range true (sizeof T) v ->
  exists w,
    nadine_convert_si C T TU o v = Done w /\ int_range true (sizeof T) w /\
    type_pun T w = byte_order o (sizeof T) v.
Proof.
  intros HT HTU Hsize Hn Heven Hnat Hst HstU Hv.
  pose proof (pun_length T _ HT v Hv) as Hlen.
  pose proof (pun_uchar T _ HT v Hv) as Hbytes.
  set (u := type_unpun TU (type_pun T v)).
  assert (Hu : int_range false (sizeof TU) u)
    by (apply (unpun_ok TU _ HTU); [rewrite Hsize|]; assumption).
  assert (Hpu : type_pun TU u = type_pun T v)
    by (apply (pun_unpun TU _ HTU); [rewrite Hsize|]; assumption).
  assert (Hle : le_bytes (sizeof T) u = le_bytes (sizeof T) v).
  { rewrite (HstU u Hu), (Hst v Hv), Hsize in Hpu. unfold byte_order in Hpu.
    apply (f_equal (transform native)) in Hpu.
    rewrite !transform_involutive in Hpu by (rewrite length_le_bytes; exact Heven).
    exact Hpu. }
  destruct (nadine_convert_ui_image C TU o native u HTU) as (w & Hw1 & Hw2 & Hw3);
    try assumption; try (rewrite Hsize; assumption).
  pose proof (pun_length TU _ HTU w Hw2) as Hlenw.
  pose proof (pun_uchar TU _ HTU w Hw2) as Hbytesw.
  rewrite Hsize in Hlenw.
  exists (type_unpun T (type_pun TU w)).
  unfold nadine_convert_si. fold u. rewrite Hw1. cbn [bind].
  split; [reflexivity|]. split; [apply (unpun_ok T _ HT); assumption|].
  rewrite (pun_unpun T _ HT) by assumption.
  rewrite Hw3, Hsize. unfold byte_order. rewrite Hle. reflexivity.
Qed.

(** The signed conversion, which goes through the unsigned type, likewise
    returns the value stored as the bytes of [v] in order [o]; the sign plays
    no part. *)
Theorem convert_si_image_is_target_order (C : config) (T TU : ctype Z)
    (o native v : Z) :
  unpadded T (int_range true (sizeof T)) ->
  unpadded TU (int_range false (sizeof TU)) ->
  sizeof TU = sizeof T ->
  2 <= sizeof T -> Nat.even (sizeof T) = true ->
  NADINE_I_NATIVE_INT C TU = Done native ->
  stored_in_order true T native -> stored_in_order false TU native ->
  int_range true (sizeof T) v ->
  exists w,
    nadine_convert_si C T TU o v = Done w /\ int_range true (sizeof T) w /\
    type_pun T w = byte_order o (sizeof T) v.
Proof.
  intros HT HTU Hsize Hn Heven Hnat Hst HstU Hv.
  apply (nadine_convert_si_image C T TU o native v); assumption.
Qed.

Lemma convert_si_image_is_target_order_witness :
  exists w,
    nadine_convert_si config_le32 (host_int true 0 2) (host_int false 0 2) 1 (-2)%Z
      = Done w /\
    type_pun (host_int true 0 2) w = [0xFF; 0xFE]%Z.
Proof.
  destruct (convert_si_image_is_target_order config_le32 (host_int true 0 2)
              (host_int false 0 2) 1 0 (-2)%Z) as (w & H1 & _ & H2).
  - apply (host_int_unpadded true 0 2); [repeat constructor|reflexivity].
  - apply (host_int_unpadded false 0 2); [repeat constructor|reflexivity].
  - reflexivity.
  - repeat constructor.
  - reflexivity.
  - reflexivity.
  - intros v _. reflexivity.
  - intros v _. reflexivity.
  - split; [discriminate|reflexivity].
  - exists w. split; assumption.
Defined.

(** Writing under a tag is converting to the tag and writing the result in
    the native order; reading under a tag is reading in the native order and
    converting the result. *)
Theorem tagged_access_factors_through_convert (C : config) (T : ctype Z)
    (o native v : Z) (d rest src : list Z) :
  unpadded T (int_range false (sizeof T)) ->
  2 <= sizeof T -> Nat.even (sizeof T) = true ->
  NADINE_I_NATIVE_INT C T = Done native ->
  stored_in_order false T native ->
  int_range false (sizeof T) v ->
  length d = sizeof T ->
  sizeof T <= length src -> Forall is_uchar src ->
  (let* w := nadine_convert_ui C T o v in nadine_write_int C T native (d ++ rest) w)
    = nadine_write_int C T o (d ++ rest) v /\
  (let* r := nadine_read_int C false T native src in nadine_convert_ui C T o r)
    = nadine_read_int C false T o src.
Proof.
  intros HT Hn Heven Hnat Hst Hv Hd Hsrc Hbytes. split.
  - destruct (nadine_convert_ui_image C T o native v) as (w & Hw1 & Hw2 & Hw3);
      try assumption.
    rewrite Hw1. cbn [bind].
    rewrite !(write_int_layout C false T _ native) by (try assumption; lia).
    rewrite <- (Hst w Hw2), Hw3. reflexivity.
  - rewrite !(read_int_decode C false T _ native) by assumption. cbn [bind].
    set (p := take (sizeof T) src).
    assert (Hlen : length p = sizeof T) by (unfold p; rewrite length_take; lia).
    assert (Hp : Forall is_uchar p) by (apply Forall_take; exact Hbytes).
    set (r := int_cast false (sizeof T) (le_value (transform native p))).
    set (t := int_cast false (sizeof T) (le_value (transform o p))).
    assert (Hr : int_range false (sizeof T) r) by (apply int_cast_range; lia).
    assert (Ht : int_range false (sizeof T) t) by (apply int_cast_range; lia).
    destruct (nadine_convert_ui_image C T o native r) as (w & Hw1 & Hw2 & Hw3);
      try assumption.
    rewrite Hw1. f_equal.
    rewrite <- (unpun_pun T _ HT w Hw2), <- (unpun_pun T _ HT t Ht). f_equal.
    rewrite Hw3, (Hst t Ht). unfold byte_order, r, t.
    rewrite !le_bytes_int_cast.
    rewrite !le_bytes_le_value_n
      by (try apply Forall_transform; rewrite ?length_transform; assumption).
    rewrite !transform_compose by (rewrite Hlen; exact Heven).
    rewrite Z.lxor_comm. reflexivity.
Qed.

Lemma tagged_access_factors_through_convert_witness :
  (let* w := nadine_convert_ui config_copy (host_int false 1 4) 2 0x01020304%Z in
   nadine_write_int config_copy (host_int false 1 4) 1 ([0; 0; 0; 0]%Z ++ []) w)
  = nadine_write_int config_copy (host_int false 1 4) 2 ([0; 0; 0; 0]%Z ++ [])
      0x01020304%Z.
Proof.
  apply (tagged_access_factors_through_convert config_copy (host_int false 1 4) 2 1
           0x01020304%Z [0; 0; 0; 0]%Z [] [1; 2; 3; 4]%Z).
  - apply (host_int_unpadded false 1 4); [repeat constructor|reflexivity].
  - repeat constructor.
  - reflexivity.
  - reflexivity.
  - intros v _. reflexivity.
  - split; [discriminate|reflexivity].
  - reflexivity.
  - repeat constructor.
  - repeat constructor; discriminate.
Defined.

(** ** Two-byte types *)

Lemma NADINE_I_INDEX_two_bytes (o : Z) (i : nat) :
  i < 2 -> NADINE_I_INDEX 2 (Z.lxor o 3) i = NADINE_I_INDEX 2 o i.
Proof.
  intros Hi. rewrite !NADINE_I_INDEX_eq, !Z.lxor_spec. cbv zeta.
  change (Z.testbit 3 0) with true. change (Z.testbit 3 1) with true.
  destruct i as [|[|i]]; [| |lia];
    destruct (Z.testbit o 0), (Z.testbit o 1); reflexivity.
Qed.

Lemma nadine_i_xform_two_bytes (p : list Z) (native o : Z) :
  length p = 2 ->
  nadine_i_xform p 2 (Z.lxor native (Z.lxor o 3))
  = nadine_i_xform p 2 (Z.lxor native o).
Proof.
  intros Hp. rewrite !nadine_i_xform_exact by (try assumption; lia).
  rewrite <- Z.lxor_assoc, transform_two_bytes by exact Hp. reflexivity.
Qed.

(** On a two-byte type the swap-chars tags are the plain tags of the other
    order: big with swap-chars reads and writes as little, little with
    swap-chars as big. *)
Theorem two_byte_swapchars_is_other_order (C : config) (signed : bool) (T : ctype Z)
    (o v : Z) (buf : list Z) :
  sizeof T = 2 -> length (type_pun T v) = 2 ->
  nadine_write_int C T (Z.lxor o 3) buf v = nadine_write_int C T o buf v /\
  nadine_read_int C signed T (Z.lxor o 3) buf = nadine_read_int C signed T o buf.
Proof.
  intros Hsize Hpun. unfold nadine_write_int, nadine_read_int. rewrite Hsize.
  destruct (NADINE_I_USE_SHIFT_RW C).
  - split; apply for_loop_ext; intros i s [_ Hi];
      rewrite NADINE_I_INDEX_two_bytes by exact Hi; reflexivity.
  - destruct (NADINE_I_NATIVE_INT C T) as [native| |]; cbn [bind];
      try (split; reflexivity).
    unfold write_copy, read_copy. rewrite Hsize.
    rewrite nadine_i_xform_two_bytes by exact Hpun.
    split; [reflexivity|].
    rewrite nadine_i_memcpy_spec_or_fault.
    destruct (decide (2 <= length (replicate 2 0%Z) /\ 2 <= length buf)) as [[_ H]|H];
      cbn [bind]; [|reflexivity].
    rewrite nadine_i_xform_two_bytes; [reflexivity|].
    rewrite length_app, length_take, length_drop, length_replicate. lia.
Qed.

Lemma two_byte_swapchars_is_other_order_witness :
  nadine_write_int config_copy (host_int false 0 2) (Z.lxor 0 3) [0; 0]%Z 0x0102%Z
  = nadine_write_int config_copy (host_int false 0 2) 0 [0; 0]%Z 0x0102%Z.
Proof.
  exact (proj1 (two_byte_swapchars_is_other_order config_copy false
                  (host_int false 0 2) 0 0x0102%Z [0; 0]%Z eq_refl eq_refl)).
Defined.

(** ** The test program on a conforming host *)

Lemma nadine_convert_ui_value (C : config) (T : ctype Z) (o native v : Z) :
  unpadded T (int_range false (sizeof T)) ->
  2 <= sizeof T -> Nat.even (sizeof T) = true ->
  NADINE_I_NATIVE_INT C T = Done native ->
  stored_in_order false T native ->
  int_range false (sizeof T) v ->
  nadine_convert_ui C T o v
  = Done (int_cast false (sizeof T)
            (le_value (transform native (byte_order o (sizeof T) v)))).
Proof.
  intros HT Hn Heven Hnat Hst Hv.
  destruct (nadine_convert_ui_image C T o native v) as (w & Hw1 & Hw2 & Hw3);
    try assumption.
  rewrite Hw1. f_equal.
  rewrite <- (unpun_pun T _ HT w Hw2), Hw3.
  apply (unpun_stored false); try assumption; try lia.
  - unfold byte_order. rewrite length_transform. apply length_le_bytes.
  - apply Forall_transform, le_bytes_uchar.
Qed.

Lemma nadine_convert_si_value (C : config) (T TU : ctype Z) (o native v : Z) :
  unpadded T (int_range true (sizeof T)) ->
  unpadded TU (int_range false (sizeof TU)) ->
  sizeof TU = sizeof T ->
  2 <= sizeof T -> Nat.even (sizeof T) = true ->
  NADINE_I_NATIVE_INT C TU = Done native ->
  stored_in_order true T native -> stored_in_order false TU native ->
  int_range true (sizeof T) v ->
  nadine_convert_si C T TU o v
  = Done (int_cast true (sizeof T)
            (le_value (transform native (byte_order o (sizeof T) v)))).
Proof.
  intros HT HTU Hsize Hn Heven Hnat Hst HstU Hv.
  destruct (nadine_convert_si_image C T TU o native v) as (w & Hw1 & Hw2 & Hw3);
    try assumption.
  rewrite Hw1. f_equal.
  rewrite <- (unpun_pun T _ HT w Hw2), Hw3.
  apply (unpun_stored true); try assumption; try lia.
  - unfold byte_order. rewrite length_transform. apply length_le_bytes.
  - apply Forall_transform, le_bytes_uchar.
Qed.

Lemma read_int_whole (C : config) (signed : bool) (T : ctype Z) (o native : Z)
    (p : list Z) :
  unpadded T (int_range signed (sizeof T)) ->
  2 <= sizeof T -> Nat.even (sizeof T) = true ->
  NADINE_I_NATIVE_INT C T = Done native ->
  stored_in_order signed T native ->
  length p = sizeof T -> Forall is_uchar p ->
  nadine_read_int C signed T o p
  = Done (int_cast signed (sizeof T) (le_value (transform o p))).
Proof.
  intros HT Hn Heven Hnat Hst Hlen Hp.
  rewrite (read_int_decode C signed T o native) by (try assumption; lia).
  rewrite <- Hlen, firstn_all. reflexivity.
Qed.

Lemma write_int_whole (C : config) (signed : bool) (T : ctype Z) (o native v : Z)
    (d : list Z) :
  unpadded T (int_range signed (sizeof T)) ->
  2 <= sizeof T -> Nat.even (sizeof T) = true ->
  NADINE_I_NATIVE_INT C T = Done native ->
  stored_in_order signed T native ->
  int_range signed (sizeof T) v ->
  length d = sizeof T ->
  nadine_write_int C T o d v = Done (byte_order o (sizeof T) v).
Proof.
  intros HT Hn Heven Hnat Hst Hv Hd.
  rewrite <- (app_nil_r d), <- (app_nil_r (byte_order _ _ _)).
  apply (write_int_layout C signed T o native); try assumption. lia.
Qed.

Lemma read_f_whole (C : config) (T : ctype Z) (two o native : Z) (p : list Z) :
  unpadded T (int_range false (sizeof T)) ->
  2 <= sizeof T -> Nat.even (sizeof T) = true ->
  NADINE_I_NATIVE_FLOAT C T two = Done native ->
  stored_in_order false T native ->
  length p = sizeof T -> Forall is_uchar p ->
  nadine_read_f C T two o p
  = Done (int_cast false (sizeof T) (le_value (transform o p))).
Proof.
  intros HT Hn Heven Hnat Hst Hlen Hp.
  unfold nadine_read_f. rewrite Hnat. cbn [bind].
  rewrite read_copy_spec by lia. f_equal.
  rewrite <- Hlen, firstn_all.
  rewrite (unpun_stored false T native)
    by (try assumption; try lia; rewrite ?length_transform;
        try apply Forall_transform; assumption).
  rewrite transform_compose by (rewrite Hlen; exact Heven).
  rewrite lxor_cancel_l, Hlen. reflexivity.
Qed.

Lemma write_f_whole (C : config) (T : ctype Z) (two o native v : Z) (d : list Z) :
  unpadded T (int_range false (sizeof T)) ->
  2 <= sizeof T -> Nat.even (sizeof T) = true ->
  NADINE_I_NATIVE_FLOAT C T two = Done native ->
  stored_in_order false T native ->
  int_range false (sizeof T) v ->
  length d = sizeof T ->
  nadine_write_f C T two o d v = Done (byte_order o (sizeof T) v).
Proof.
  intros HT Hn Heven Hnat Hst Hv Hd.
  unfold nadine_write_f. rewrite Hnat. cbn [bind].
  rewrite <- (app_nil_r d).
  rewrite (write_copy_spec T _ native o d [] v HT Hv) by (try assumption; lia).
  rewrite app_nil_r, (Hst v Hv). unfold byte_order.
  rewrite transform_compose by (rewrite length_le_bytes; exact Heven).
  rewrite lxor_cancel_r. reflexivity.
Qed.

(** What the calls of a test return, for a type of known size and order. *)
Lemma unsigned_calls (C : config) (T : ctype Z) (n : nat) (native : Z) :
  exact_width false T n native -> 2 <= n -> Nat.even n = true ->
  nadine_endian_native_int C T = Done native ->
  (forall o v, int_range false n v ->
     nadine_convert_ui C T o v
     = Done (int_cast false n (le_value (transform native (byte_order o n v))))) /\
  (forall o p, length p = n -> Forall is_uchar p ->
     nadine_read_int C false T o p
     = Done (int_cast false n (le_value (transform o p)))) /\
  (forall o v p, int_range false n v -> length p = n ->
     nadine_write_int C T o p v = Done (byte_order o n v)).
Proof.
  intros (Hsize & HT & Hst) Hn Heven Hfun. subst n.
  assert (Hnat : NADINE_I_NATIVE_INT C T = Done native)
    by (rewrite NADINE_I_NATIVE_INT_eq; exact Hfun).
  repeat split.
  - intros o v Hv. apply nadine_convert_ui_value; assumption.
  - intros o p Hlen Hp. apply (read_int_whole C false T o native); assumption.
  - intros o v p Hv Hlen. apply (write_int_whole C false T o native); assumption.
Qed.

Lemma signed_calls (C : config) (T TU : ctype Z) (n : nat) (native : Z) :
  exact_width true T n native -> exact_width false TU n native ->
  2 <= n -> Nat.even n = true ->
  nadine_endian_native_int C T = Done native ->
  nadine_endian_native_int C TU = Done native ->
  (forall o v, int_range true n v ->
     nadine_convert_si C T TU o v
     = Done (int_cast true n (le_value (transform native (byte_order o n v))))) /\
  (forall o p, length p = n -> Forall is_uchar p ->
     nadine_read_int C true T o p
     = Done (int_cast true n (le_value (transform o p)))) /\
  (forall o v p, int_range true n v -> length p = n ->
     nadine_write_int C T o p v = Done (byte_order o n v)).
Proof.
  intros (Hsize & HT & Hst) (HsizeU & HTU & HstU) Hn Heven Hfun HfunU. subst n.
  assert (Hnat : NADINE_I_NATIVE_INT C T = Done native)
    by (rewrite NADINE_I_NATIVE_INT_eq; exact Hfun).
  assert (HnatU : NADINE_I_NATIVE_INT C TU = Done native)
    by (rewrite NADINE_I_NATIVE_INT_eq; exact HfunU).
  assert (HTU' : unpadded TU (int_range false (sizeof TU)))
    by (rewrite HsizeU; exact HTU).
  repeat split.
  - intros o v Hv. apply nadine_convert_si_value; assumption.
  - intros o p Hlen Hp. apply (read_int_whole C true T o native); assumption.
  - intros o v p Hv Hlen. apply (write_int_whole C true T o native); assumption.
Qed.

Lemma float_calls (C : config) (T : ctype Z) (n : nat) (two native : Z) :
  exact_width false T n native -> 2 <= n -> Nat.even n = true ->
  NADINE_I_NATIVE_FLOAT C T two = Done native ->
  (forall o p, length p = n -> Forall is_uchar p ->
     nadine_read_f C T two o p
     = Done (int_cast false n (le_value (transform o p)))) /\
  (forall o v p, int_range false n v -> length p = n ->
     nadine_write_f C T two o p v = Done (byte_order o n v)).
Proof.
  intros (Hsize & HT & Hst) Hn Heven Hnat. subst n.
  split.
  - intros o p Hlen Hp. apply (read_f_whole C T two o native); assumption.
  - intros o v p Hv Hlen. apply (write_f_whole C T two o native); assumption.
Qed.

(** Evaluates the calls on closed arguments at the head of a sequence. *)
Ltac run_call t := let r := eval vm_compute in t in change t with r.

Ltac closed_fact :=
  solve [ reflexivity
        | repeat first [ discriminate | reflexivity | split | constructor ] ].

Ltac run_head :=
  match goal with
  | |- context [bind (Done (byte_order ?o ?n ?v)) _] => run_call (byte_order o n v)
  | |- context [bind (nadine_i_memcpy ?d ?s ?n) _] => run_call (nadine_i_memcpy d s n)
  | |- context [bind (load ?p ?i) _] => run_call (load p i)
  | |- context [bind (store_bytes ?p ?i ?x) _] => run_call (store_bytes p i x)
  | |- context [bind (bytes_equal ?p ?i ?x) _] => run_call (bytes_equal p i x)
  | |- context [bind (if ?b then _ else _) _] => progress run_call b
  end.

Ltac run_test Hrd Hwr :=
  repeat first
    [ run_head
    | rewrite Hrd by closed_fact
    | rewrite Hwr by closed_fact
    | progress cbn [bind] ].

Ltac four_orders H := destruct H as [-> | [-> | [-> | ->]]].

Lemma test_uint16_native (C : config) (T : ctype Z) (native : Z) :
  exact_width false T 2 native -> valid_endian native ->
  nadine_endian_native_int C T = Done native ->
  test_uint16 C T = Done (if native =? 3 then 1 else 0)%Z.
Proof.
  intros HT Hvalid Hfun.
  destruct (unsigned_calls C T 2 native HT) as (Hcvt & Hrd & Hwr);
    [repeat constructor | reflexivity | exact Hfun |].
  destruct HT as (Hsize & _ & Hst).
  unfold test_uint16.
  rewrite Hfun, Hsize, Hst by (rewrite Hsize; closed_fact).
  rewrite !Hcvt by closed_fact. rewrite Hsize.
  four_orders Hvalid; run_test Hrd Hwr; reflexivity.
Qed.

Lemma test_int16_native (C : config) (T TU : ctype Z) (native : Z) :
  exact_width true T 2 native -> exact_width false TU 2 native ->
  valid_endian native ->
  nadine_endian_native_int C T = Done native ->
  nadine_endian_native_int C TU = Done native ->
  test_int16 C T TU = Done (if (native =? 2) || (native =? 3) then 1 else 0)%Z.
Proof.
  intros HT HTU Hvalid Hfun HfunU.
  destruct (signed_calls C T TU 2 native HT HTU) as (Hcvt & Hrd & Hwr);
    [repeat constructor | reflexivity | exact Hfun | exact HfunU |].
  destruct HT as (Hsize & _ & Hst).
  unfold test_int16.
  rewrite Hfun, Hsize, Hst by (rewrite Hsize; closed_fact).
  rewrite !Hcvt by closed_fact. rewrite Hsize.
  four_orders Hvalid; run_test Hrd Hwr; reflexivity.
Qed.

Lemma test_uint32_native (C : config) (T : ctype Z) (native : Z) :
  exact_width false T 4 native -> valid_endian native ->
  nadine_endian_native_int C T = Done native ->
  test_uint32 C T = Done 0%Z.
Proof.
  intros HT Hvalid Hfun.
  destruct (unsigned_calls C T 4 native HT) as (Hcvt & Hrd & Hwr);
    [repeat constructor | reflexivity | exact Hfun |].
  destruct HT as (Hsize & _ & Hst).
  unfold test_uint32.
  rewrite Hfun, Hsize, Hst by (rewrite Hsize; closed_fact).
  rewrite !Hcvt by closed_fact. rewrite Hsize.
  four_orders Hvalid; run_test Hrd Hwr; reflexivity.
Qed.

Lemma test_int32_native (C : config) (T TU : ctype Z) (native : Z) :
  exact_width true T 4 native -> exact_width false TU 4 native ->
  valid_endian native ->
  nadine_endian_native_int C T = Done native ->
  nadine_endian_native_int C TU = Done native ->
  test_int32 C T TU = Done 0%Z.
Proof.
  intros HT HTU Hvalid Hfun HfunU.
  destruct (signed_calls C T TU 4 native HT HTU) as (Hcvt & Hrd & Hwr);
    [repeat constructor | reflexivity | exact Hfun | exact HfunU |].
  destruct HT as (Hsize & _ & Hst).
  unfold test_int32.
  rewrite Hfun, Hsize, Hst by (rewrite Hsize; closed_fact).
  rewrite !Hcvt by closed_fact. rewrite Hsize.
  four_orders Hvalid; run_test Hrd Hwr; reflexivity.
Qed.

Lemma test_uint64_native (C : config) (T : ctype Z) (native : Z) :
  exact_width false T 8 native -> valid_endian native ->
  nadine_endian_native_int C T = Done native ->
  test_uint64 C T = Done 0%Z.
Proof.
  intros HT Hvalid Hfun.
  destruct (unsigned_calls C T 8 native HT) as (Hcvt & Hrd & Hwr);
    [repeat constructor | reflexivity | exact Hfun |].
  destruct HT as (Hsize & _ & Hst).
  unfold test_uint64.
  rewrite Hfun, Hsize, Hst by (rewrite Hsize; closed_fact).
  rewrite !Hcvt by closed_fact. rewrite Hsize.
  four_orders Hvalid; run_test Hrd Hwr; reflexivity.
Qed.

Lemma test_int64_native (C : config) (T TU : ctype Z) (native : Z) :
  exact_width true T 8 native -> exact_width false TU 8 native ->
  valid_endian native ->
  nadine_endian_native_int C T = Done native ->
  nadine_endian_native_int C TU = Done native ->
  test_int64 C T TU = Done 0%Z.
Proof.
  intros HT HTU Hvalid Hfun HfunU.
  destruct (signed_calls C T TU 8 native HT HTU) as (Hcvt & Hrd & Hwr);
    [repeat constructor | reflexivity | exact Hfun | exact HfunU |].
  destruct HT as (Hsize & _ & Hst).
  unfold test_int64.
  rewrite Hfun, Hsize, Hst by (rewrite Hsize; closed_fact).
  rewrite !Hcvt by closed_fact. rewrite Hsize.
  four_orders Hvalid; run_test Hrd Hwr; reflexivity.
Qed.

Lemma test_float_native (C : config) (T : ctype Z) (native : Z) :
  exact_width false T 4 native -> valid_endian native ->
  nadine_endian_native_float C T 0x40000000%Z = Done native ->
  NADINE_I_NATIVE_FLOAT C T 0x40000000%Z = Done native ->
  test_float C T = Done 0%Z.
Proof.
  intros HT Hvalid Hfun Hnat.
  destruct (float_calls C T 4 0x40000000%Z native HT) as (Hrd & Hwr);
    [repeat constructor | reflexivity | exact Hnat |].
  destruct HT as (Hsize & _ & Hst).
  unfold test_float.
  rewrite Hfun, Hst by (rewrite Hsize; closed_fact). rewrite Hsize.
  four_orders Hvalid; run_test Hrd Hwr; reflexivity.
Qed.

Lemma test_double_native (C : config) (T : ctype Z) (native : Z) :
  exact_width false T 8 native -> valid_endian native ->
  nadine_endian_native_float C T 0x4000000000000000%Z = Done native ->
  NADINE_I_NATIVE_FLOAT C T 0x4000000000000000%Z = Done native ->
  test_double C T = Done 0%Z.
Proof.
  intros HT Hvalid Hfun Hnat.
  destruct (float_calls C T 8 0x4000000000000000%Z native HT) as (Hrd & Hwr);
    [repeat constructor | reflexivity | exact Hnat |].
  destruct HT as (Hsize & _ & Hst).
  unfold test_double.
  rewrite Hfun, Hst by (rewrite Hsize; closed_fact). rewrite Hsize.
  four_orders Hvalid; run_test Hrd Hwr; reflexivity.
Qed.

(** The native order the functions see on a conforming host. *)
Lemma native_int_wide (C : config) (signed : bool) (T : ctype Z) (n : nat) (h : Z) :
  exact_width signed T n h -> n = 4 \/ n = 8 -> valid_endian h ->
  int_order_auto_or C h ->
  nadine_endian_native_int C T = Done h.
Proof.
  intros (Hsize & _ & Hst) Hn Hvalid Hcfg. unfold nadine_endian_native_int.
  destruct Hcfg as [-> | ->]; [|reflexivity].
  rewrite (Hst 1%Z) by (apply int_range_one; lia).
  rewrite Hsize. destruct Hn as [-> | ->]; four_orders Hvalid; reflexivity.
Qed.

Lemma stored_two_bytes (signed : bool) (T : ctype Z) (h : Z) :
  sizeof T = 2 -> stored_in_order signed T (Z.lxor h 3) -> stored_in_order signed T h.
Proof.
  intros Hsize Hst v Hv. rewrite (Hst v Hv). unfold byte_order.
  apply transform_two_bytes. rewrite Hsize. apply length_le_bytes.
Qed.

Lemma native_int_two (C : config) (signed : bool) (T : ctype Z) (h : Z) :
  exact_width signed T 2 h -> valid_endian h -> int_order_auto_or C h ->
  exists native,
    nadine_endian_native_int C T = Done native /\
    exact_width signed T 2 native /\ valid_endian native /\
    native = match NADINE_NATIVE_ENDIAN_INT C with
             | Some e => e
             | None => if Bool.eqb (Z.testbit h 0) (Z.testbit h 1)
                       then NADINE_ENDIAN_LITTLE else NADINE_ENDIAN_BIG
             end.
Proof.
  intros (Hsize & HT & Hst) Hvalid Hcfg. unfold nadine_endian_native_int.
  destruct Hcfg as [-> | ->].
  - rewrite (Hst 1%Z) by (apply int_range_one; lia). rewrite Hsize.
    four_orders Hvalid;
      [exists 0%Z | exists 1%Z | exists 1%Z | exists 0%Z];
      (split; [reflexivity|]);
      (split; [|split; [unfold valid_endian; auto | reflexivity]]);
      (split; [exact Hsize|]); (split; [exact HT|]);
      first [exact Hst | apply stored_two_bytes; assumption].
  - exists h. split; [reflexivity|].
    split; [exact (conj Hsize (conj HT Hst))|].
    split; [exact Hvalid | reflexivity].
Qed.

Lemma native_float_wide (C : config) (T : ctype Z) (n : nat) (two h : Z) :
  exact_width false T n h ->
  (n = 4 /\ two = 0x40000000%Z) \/ (n = 8 /\ two = 0x4000000000000000%Z) ->
  valid_endian h -> float_order_auto_or C h ->
  nadine_endian_native_float C T two = Done h /\
  NADINE_I_NATIVE_FLOAT C T two = Done h.
Proof.
  intros (Hsize & _ & Hst) Hn Hvalid Hcfg.
  unfold NADINE_I_NATIVE_FLOAT, nadine_endian_native_float.
  destruct Hcfg as [-> | ->]; [|split; reflexivity].
  rewrite (Hst two)
    by (rewrite Hsize; destruct Hn as [[-> ->] | [-> ->]]; closed_fact).
  rewrite Hsize.
  destruct (NADINE_I_C99 C), Hn as [[-> ->] | [-> ->]];
    four_orders Hvalid; split; reflexivity.
Qed.

Lemma host_int_exact_width (signed : bool) (h : Z) (n : nat) :
  1 <= n -> Nat.even n = true -> exact_width signed (host_int signed h n) n h.
Proof.
  intros Hn Heven. split; [reflexivity|]. split.
  - apply host_int_unpadded; assumption.
  - intros v _. reflexivity.
Qed.

Lemma host_platform_conforming (hi hf : Z) : conforming (host_platform hi hf) hi hf.
Proof.
  unfold conforming, host_platform. cbn.
  repeat match goal with |- _ /\ _ => split end;
    apply host_int_exact_width; first [lia | reflexivity].
Qed.

(** On a host that stores [uint16_t] in one of the four orders, under
    automatic detection or with that order configured, [test_uint16] counts
    no failed assertion, except when the configured order is big with
    swap-chars (the header's PDP-11 row): the host's two bytes are then in
    little-endian order, the [host=LE] branch is taken, and its assertion
    that the native order is [NADINE_ENDIAN_LITTLE] fails, alone. *)
Theorem test_uint16_verdict (C : config) (T : ctype Z) (h : Z) :
  exact_width false T 2 h -> valid_endian h -> int_order_auto_or C h ->
  test_uint16 C T =
    Done (if decide (NADINE_NATIVE_ENDIAN_INT C
                     = Some (Z.lor NADINE_ENDIAN_BIG NADINE_ENDIAN_SWAPCHARS))
          then 1 else 0)%Z.
Proof.
  intros HT Hvalid Hcfg.
  destruct (native_int_two C false T h HT Hvalid Hcfg)
    as (native & Hfun & HT' & Hvalid' & Hnative).
  rewrite (test_uint16_native C T native HT' Hvalid' Hfun). subst native.
  destruct Hcfg as [-> | ->].
  - rewrite decide_False by discriminate.
    destruct (Bool.eqb (Z.testbit h 0) (Z.testbit h 1)); reflexivity.
  - four_orders Hvalid; reflexivity.
Qed.

Lemma test_uint16_verdict_witness :
  test_uint16 config_pdp (host_int false 3 2) = Done 1%Z /\
  test_uint16 config_le32 (host_int false 3 2) = Done 0%Z.
Proof.
  split.
  - apply (test_uint16_verdict config_pdp (host_int false 3 2) 3).
    + apply host_int_exact_width; [lia|reflexivity].
    + right; right; right; reflexivity.
    + right; reflexivity.
  - apply (test_uint16_verdict config_le32 (host_int false 3 2) 3).
    + apply host_int_exact_width; [lia|reflexivity].
    + right; right; right; reflexivity.
    + left; reflexivity.
Defined.

(** [test_int16] asserts the native order in both branches: with a
    configured order it counts one failure exactly when that order has the
    swap-chars flag, and none under automatic detection, which reports a
    two-byte type as little or big. *)
Theorem test_int16_verdict (C : config) (T TU : ctype Z) (h : Z) :
  exact_width true T 2 h -> exact_width false TU 2 h ->
  valid_endian h -> int_order_auto_or C h ->
  test_int16 C T TU =
    Done (match NADINE_NATIVE_ENDIAN_INT C with
          | Some e => if Z.land e NADINE_ENDIAN_SWAPCHARS =? 0 then 0 else 1
          | None => 0
          end)%Z.
Proof.
  intros HT HTU Hvalid Hcfg.
  destruct (native_int_two C true T h HT Hvalid Hcfg)
    as (native & Hfun & HT' & Hvalid' & Hnative).
  destruct (native_int_two C false TU h HTU Hvalid Hcfg)
    as (nativeU & HfunU & HTU' & _ & HnativeU).
  rewrite <- Hnative in HnativeU. subst nativeU.
  rewrite (test_int16_native C T TU native HT' HTU' Hvalid' Hfun HfunU).
  subst native.
  destruct Hcfg as [-> | ->].
  - destruct (Bool.eqb (Z.testbit h 0) (Z.testbit h 1)); reflexivity.
  - four_orders Hvalid; reflexivity.
Qed.

Lemma test_int16_verdict_witness :
  test_int16 config_pdp (host_int true 3 2) (host_int false 3 2) = Done 1%Z.
Proof.
  apply (test_int16_verdict config_pdp (host_int true 3 2) (host_int false 3 2) 3).
  - apply host_int_exact_width; [lia|reflexivity].
  - apply host_int_exact_width; [lia|reflexivity].
  - right; right; right; reflexivity.
  - right; reflexivity.
Defined.

(** On a host that stores its 32-bit and 64-bit integer types in any of the
    four orders, under automatic detection or with that order configured,
    and with either read/write strategy, every assertion of [test_uint32],
    [test_int32], [test_uint64] and [test_int64] holds: each returns 0.  On
    the two swap-chars orders the tests take their [host=mixed] branch. *)
Theorem wide_integer_tests_pass (C : config) (U32 I32 U64 I64 : ctype Z) (h : Z) :
  exact_width false U32 4 h -> exact_width true I32 4 h ->
  exact_width false U64 8 h -> exact_width true I64 8 h ->
  valid_endian h -> int_order_auto_or C h ->
  test_uint32 C U32 = Done 0%Z /\ test_int32 C I32 U32 = Done 0%Z /\
  test_uint64 C U64 = Done 0%Z /\ test_int64 C I64 U64 = Done 0%Z.
Proof.
  intros Hu32 Hi32 Hu64 Hi64 Hvalid Hcfg.
  pose proof (native_int_wide C false _ 4 h Hu32 (or_introl eq_refl) Hvalid Hcfg) as Nu32.
  pose proof (native_int_wide C true _ 4 h Hi32 (or_introl eq_refl) Hvalid Hcfg) as Ni32.
  pose proof (native_int_wide C false _ 8 h Hu64 (or_intror eq_refl) Hvalid Hcfg) as Nu64.
  pose proof (native_int_wide C true _ 8 h Hi64 (or_intror eq_refl) Hvalid Hcfg) as Ni64.
  split; [|split; [|split]].
  - apply (test_uint32_native C U32 h); assumption.
  - apply (test_int32_native C I32 U32 h); assumption.
  - apply (test_uint64_native C U64 h); assumption.
  - apply (test_int64_native C I64 U64 h); assumption.
Qed.

Lemma wide_integer_tests_pass_witness :
  test_uint32 config_copy (host_int false 2 4) = Done 0%Z /\
  test_int32 config_copy (host_int true 2 4) (host_int false 2 4) = Done 0%Z /\
  test_uint64 config_copy (host_int false 2 8) = Done 0%Z /\
  test_int64 config_copy (host_int true 2 8) (host_int false 2 8) = Done 0%Z.
Proof.
  apply (wide_integer_tests_pass config_copy (host_int false 2 4) (host_int true 2 4)
           (host_int false 2 8) (host_int true 2 8) 2).
  - apply host_int_exact_width; [lia|reflexivity].
  - apply host_int_exact_width; [lia|reflexivity].
  - apply host_int_exact_width; [lia|reflexivity].
  - apply host_int_exact_width; [lia|reflexivity].
  - right; right; left; reflexivity.
  - left; reflexivity.
Defined.

(** On a host that stores [float] and [double] as IEEE 754 patterns in any of
    the four orders, under automatic detection or with that order
    configured, every assertion of [test_float] and [test_double] holds. *)
Theorem float_tests_pass (C : config) (F D : ctype Z) (h : Z) :
  exact_width false F 4 h -> exact_width false D 8 h ->
  valid_endian h -> float_order_auto_or C h ->
  test_float C F = Done 0%Z /\ test_double C D = Done 0%Z.
Proof.
  intros HF HD Hvalid Hcfg.
  destruct (native_float_wide C F 4 0x40000000%Z h HF
              (or_introl (conj eq_refl eq_refl)) Hvalid Hcfg) as (Hfun & Hnat).
  destruct (native_float_wide C D 8 0x4000000000000000%Z h HD
              (or_intror (conj eq_refl eq_refl)) Hvalid Hcfg) as (HfunD & HnatD).
  split.
  - apply (test_float_native C F h HF Hvalid Hfun Hnat).
  - apply (test_double_native C D h HD Hvalid HfunD HnatD).
Qed.

Lemma float_tests_pass_witness :
  test_float config_le32 (host_int false 1 4) = Done 0%Z /\
  test_double config_le32 (host_int false 1 8) = Done 0%Z.
Proof.
  apply (float_tests_pass config_le32 (host_int false 1 4) (host_int false 1 8) 1).
  - apply host_int_exact_width; [lia|reflexivity].
  - apply host_int_exact_width; [lia|reflexivity].
  - right; left; reflexivity.
  - left; reflexivity.
Defined.

(** The whole test program, on a platform that stores its six integer types
    in one of the four orders and its two floating-point types in one of
    them: [main] returns [EXIT_SUCCESS] under automatic detection and with a
    configured little or big order, and [EXIT_FAILURE] when the configured
    integer order has the swap-chars flag, because of the 16-bit tests. *)
Theorem main_verdict (C : config) (P : platform) (NADINE_FLOAT : bool) (hi hf : Z) :
  conforming P hi hf -> valid_endian hi -> valid_endian hf ->
  int_order_auto_or C hi -> float_order_auto_or C hf ->
  main C P NADINE_FLOAT =
    Done (match NADINE_NATIVE_ENDIAN_INT C with
          | Some e =>
              if (Z.land e NADINE_ENDIAN_SWAPCHARS =? 0)%Z
              then EXIT_SUCCESS else EXIT_FAILURE
          | None => EXIT_SUCCESS
          end).
Proof.
  intros (Hu16 & Hi16 & Hu32 & Hi32 & Hu64 & Hi64 & Hf32 & Hf64) Hvi Hvf Hci Hcf.
  destruct (native_int_two C false _ hi Hu16 Hvi Hci)
    as (n16 & Nu16 & Hu16' & Hv16 & Hn16).
  destruct (native_int_two C true _ hi Hi16 Hvi Hci)
    as (n16' & Ni16 & Hi16' & _ & Hn16').
  rewrite <- Hn16 in Hn16'. subst n16'.
  pose proof (native_int_wide C false _ 4 hi Hu32 (or_introl eq_refl) Hvi Hci) as Nu32.
  pose proof (native_int_wide C true _ 4 hi Hi32 (or_introl eq_refl) Hvi Hci) as Ni32.
  pose proof (native_int_wide C false _ 8 hi Hu64 (or_intror eq_refl) Hvi Hci) as Nu64.
  pose proof (native_int_wide C true _ 8 hi Hi64 (or_intror eq_refl) Hvi Hci) as Ni64.
  destruct (native_float_wide C _ 4 _ hf Hf32 (or_introl (conj eq_refl eq_refl)) Hvf Hcf)
    as (Ff32 & Nf32).
  destruct (native_float_wide C _ 8 _ hf Hf64 (or_intror (conj eq_refl eq_refl)) Hvf Hcf)
    as (Ff64 & Nf64).
  unfold main.
  rewrite (test_uint16_native C _ n16 Hu16' Hv16 Nu16).
  rewrite (test_int16_native C _ _ n16 Hi16' Hu16' Hv16 Ni16 Nu16).
  rewrite (test_uint32_native C _ hi Hu32 Hvi Nu32).
  rewrite (test_int32_native C _ _ hi Hi32 Hu32 Hvi Ni32 Nu32).
  rewrite (test_uint64_native C _ hi Hu64 Hvi Nu64).
  rewrite (test_int64_native C _ _ hi Hi64 Hu64 Hvi Ni64 Nu64).
  rewrite (test_float_native C _ hf Hf32 Hvf Ff32 Nf32).
  rewrite (test_double_native C _ hf Hf64 Hvf Ff64 Nf64).
  cbn [bind]. subst n16.
  destruct Hci as [-> | ->].
  - destruct (Bool.eqb (Z.testbit hi 0) (Z.testbit hi 1)), NADINE_FLOAT; reflexivity.
  - four_orders Hvi; destruct NADINE_FLOAT; reflexivity.
Qed.

Lemma main_verdict_witness :
  main config_le32 (host_platform 0 0) true = Done EXIT_SUCCESS /\
  main config_pdp (host_platform 3 0) true = Done EXIT_FAILURE.
Proof.
  split.
  - apply (main_verdict config_le32 (host_platform 0 0) true 0 0).
    + apply host_platform_conforming.
    + left; reflexivity.
    + left; reflexivity.
    + left; reflexivity.
    + left; reflexivity.
  - apply (main_verdict config_pdp (host_platform 3 0) true 3 0).
    + apply host_platform_conforming.
    + right; right; right; reflexivity.
    + left; reflexivity.
    + right; reflexivity.
    + left; reflexivity.
Defined.

(** ** Floating-point values in memory *)

(** With [bits x] the bytes of the encoding of [x] from least to most
    significant, on a host that stores the floating type in the order the
    header detects, writing [v] under tag [o] stores the encoding of [v] in
    order [o] and keeps the rest of the destination, and reading those bytes
    under [o] returns [v]. *)
Theorem float_access_requested_order (C : config) {V : Type} (T : ctype V)
    (two : V) (ok : V -> Prop) (bits : V -> list Z) (o native : Z) (v : V)
    (d rest : list Z) :
  unpadded T ok ->
  2 <= sizeof T -> Nat.even (sizeof T) = true ->
  NADINE_I_NATIVE_FLOAT C T two = Done native ->
  (forall x, ok x -> type_pun T x = transform native (bits x)) ->
  ok v -> length d = sizeof T ->
  nadine_write_f C T two o (d ++ rest) v = Done (transform o (bits v) ++ rest) /\
  nadine_read_f C T two o (transform o (bits v) ++ rest) = Done v.
Proof.
  intros HT Hn Heven Hnat Hst Hv Hd.
  assert (Hlen : length (bits v) = sizeof T).
  { rewrite <- (pun_length T ok HT v Hv), (Hst v Hv), length_transform. reflexivity. }
  assert (Hevenb : Nat.even (length (bits v)) = true) by (rewrite Hlen; exact Heven).
  unfold nadine_write_f, nadine_read_f. rewrite Hnat. cbn [bind].
  unfold write_copy, read_copy. split.
  - rewrite nadine_i_xform_exact
      by (try lia; apply (pun_length T ok HT); exact Hv).
    cbn [bind]. rewrite nadine_i_memcpy_spec
      by (rewrite ?length_app, ?length_transform, ?(pun_length T ok HT v Hv); lia).
    rewrite (Hst v Hv), transform_compose by exact Hevenb.
    rewrite lxor_cancel_r.
    rewrite take_ge by (rewrite length_transform; lia).
    rewrite drop_app_length' by (symmetry; exact Hd). reflexivity.
  - rewrite nadine_i_memcpy_spec
      by (rewrite ?length_app, ?length_transform, ?length_replicate; lia).
    cbn [bind].
    rewrite take_app_length' by (rewrite length_transform; symmetry; exact Hlen).
    rewrite drop_ge by (rewrite length_replicate; lia).
    rewrite app_nil_r.
    rewrite nadine_i_xform_exact by (rewrite ?length_transform; lia).
    cbn [bind]. f_equal.
    rewrite transform_compose by exact Hevenb.
    rewrite Z.lxor_assoc, Z.lxor_nilpotent, Z.lxor_0_r, <- (Hst v Hv).
    apply (unpun_pun T ok HT v Hv).
Qed.

Lemma float_access_requested_order_witness :
  nadine_write_f config_le32 (host_int false 0 4) 0x40000000%Z NADINE_ENDIAN_BIG
      ([0; 0; 0; 0]%Z ++ [9]%Z) 0x40E00000%Z
    = Done ([0x40; 0xE0; 0x00; 0x00]%Z ++ [9]%Z) /\
  nadine_read_f config_le32 (host_int false 0 4) 0x40000000%Z NADINE_ENDIAN_BIG
      ([0x40; 0xE0; 0x00; 0x00]%Z ++ [9]%Z)
    = Done 0x40E00000%Z.
Proof.
  apply (float_access_requested_order config_le32 (host_int false 0 4) 0x40000000%Z
           (int_range false 4) (le_bytes 4) NADINE_ENDIAN_BIG 0 0x40E00000%Z
           [0; 0; 0; 0]%Z [9]%Z).
  - apply (host_int_unpadded false 0 4); [repeat constructor|reflexivity].
  - repeat constructor.
  - reflexivity.
  - reflexivity.
  - intros x _. reflexivity.
  - split; [discriminate|reflexivity].
  - reflexivity.
Defined.

(** ** When the native order is unknown *)

Lemma swap_words_involutive (p : list Z) :
  length p = 8 -> swap_words (swap_words p) = p.
Proof.
  intros Hp.
  destruct p as [|a [|b [|c [|d [|e [|f [|g [|h [|]]]]]]]]]; try discriminate.
  reflexivity.
Qed.

Lemma length_swap_words (p : list Z) : length (swap_words p) = length p.
Proof.
  unfold swap_words. rewrite length_app, length_drop, length_take. lia.
Qed.

Lemma host_words64_unpadded : unpadded host_words64 (int_range false 8).
Proof.
  constructor; cbn [host_words64 sizeof type_pun type_unpun].
  - intros v _. rewrite length_swap_words. apply length_le_bytes.
  - intros v _. unfold swap_words. apply Forall_app.
    split; [apply Forall_drop | apply Forall_take]; apply le_bytes_uchar.
  - intros p _ _. apply int_cast_range. lia.
  - intros v Hv.
    rewrite swap_words_involutive by apply length_le_bytes.
    rewrite le_value_le_bytes, int_cast_mod_l by lia.
    apply int_cast_id; [lia | exact Hv].
  - intros p Hlen Hp.
    rewrite le_bytes_int_cast.
    rewrite le_bytes_le_value_n.
    + apply swap_words_involutive. exact Hlen.
    + rewrite length_swap_words. exact Hlen.
    + unfold swap_words. apply Forall_app.
      split; [apply Forall_drop | apply Forall_take]; exact Hp.
Qed.

Lemma testbit_UINT_MAX (k i : Z) :
  (0 <= i < k)%Z -> Z.testbit (2 ^ k - 1) i = true.
Proof.
  intros Hi. replace (2 ^ k - 1)%Z with (Z.ones k).
  - apply Z.ones_spec_low. exact Hi.
  - rewrite Z.ones_equiv. lia.
Qed.

(** When the type's native order is [NADINE_ENDIAN_UNKNOWN], a conversion to
    one of the four tags reports nothing: it returns the value with its bytes
    rearranged as if the host were big-endian with swap-chars, because both
    low bits of [UINT_MAX] are set. *)
Theorem convert_unknown_native (C : config) (T : ctype Z) (k o v : Z) :
  unpadded T (int_range false (sizeof T)) -> 2 <= sizeof T ->
  (16 <= k)%Z -> UINT_MAX C = (2 ^ k - 1)%Z ->
  NADINE_I_NATIVE_INT C T = Done (NADINE_ENDIAN_UNKNOWN C) ->
  valid_endian o -> int_range false (sizeof T) v ->
  nadine_convert_ui C T o v
  = Done (type_unpun T
            (transform (Z.lxor (Z.lor NADINE_ENDIAN_BIG NADINE_ENDIAN_SWAPCHARS) o)
               (type_pun T v))).
Proof.
  intros HT Hn Hk Hmax Hnat Ho Hv.
  unfold nadine_convert_ui. rewrite Hnat. cbn [bind].
  unfold NADINE_ENDIAN_UNKNOWN. rewrite Hmax.
  assert (Hbit : forall i, (0 <= i < 3)%Z ->
            Z.testbit (Z.lxor (2 ^ k - 1) o) i = negb (Z.testbit o i)).
  { intros i Hi. rewrite Z.lxor_spec, testbit_UINT_MAX by lia. reflexivity. }
  assert (H2 : Z.testbit (Z.lxor (2 ^ k - 1) o) 2 = true).
  { rewrite Hbit by lia.
    destruct Ho as [-> | [-> | [-> | ->]]]; reflexivity. }
  assert (Hne : (2 ^ k - 1 =? o)%Z = false).
  { apply Z.eqb_neq. intros Heq.
    rewrite Heq, Z.lxor_nilpotent in H2. discriminate. }
  assert (Hne1 : (Z.lxor (2 ^ k - 1) o =? 1)%Z = false).
  { apply Z.eqb_neq. intros Heq. rewrite Heq in H2. discriminate. }
  assert (Hsz : (sizeof T =? 1) = false) by (apply Nat.eqb_neq; lia).
  rewrite Hne, Hne1, Hsz. cbn [orb andb].
  rewrite (convert_xform_Done T _ _ v HT) by (try assumption; lia).
  do 2 f_equal. unfold transform.
  rewrite !Hbit, !Z.lxor_spec by lia. reflexivity.
Qed.

Lemma convert_unknown_native_witness :
  nadine_endian_native_int config_le32 host_words64
    = Done (NADINE_ENDIAN_UNKNOWN config_le32) /\
  nadine_convert_ui config_le32 host_words64 NADINE_ENDIAN_LITTLE 0x0102030405060708%Z
    = Done 0x0708050603040102%Z.
Proof.
  split; [reflexivity|].
  apply (convert_unknown_native config_le32 host_words64 32 NADINE_ENDIAN_LITTLE
           0x0102030405060708%Z).
  - exact host_words64_unpadded.
  - repeat constructor.
  - discriminate.
  - reflexivity.
  - reflexivity.
  - left; reflexivity.
  - split; [discriminate|reflexivity].
Defined.

(** ** From one host to another *)

Lemma le_bytes_decode (signed : bool) (n : nat) (p : list Z) :
  length p = n -> Forall is_uchar p ->
  le_bytes n (int_cast signed n (le_value p)) = p.
Proof.
  intros Hlen Hp. rewrite le_bytes_int_cast. apply le_bytes_le_value_n; assumption.
Qed.

Lemma decode_le_bytes (signed : bool) (n : nat) (v : Z) :
  1 <= n -> int_range signed n v ->
  int_cast signed n (le_value (le_bytes n v)) = v.
Proof.
  intros Hn Hv. rewrite le_value_le_bytes, int_cast_mod_l by exact Hn.
  apply int_cast_id; assumption.
Qed.

(** A value leaves host A and arrives on host B, whose type of the same size
    may be stored in another order, in either of the two ways the header
    offers: A converts to the agreed tag and ships the object's bytes, B
    adopts the bytes and converts from the tag; or A writes under the tag
    and B reads under it.  Both deliver the value. *)
Theorem cross_host_transfer (CA CB : config) (TA TB : ctype Z) (n : nat)
    (a b o v : Z) (d : list Z) :
  exact_width false TA n a -> exact_width false TB n b ->
  2 <= n -> Nat.even n = true ->
  nadine_endian_native_int CA TA = Done a ->
  nadine_endian_native_int CB TB = Done b ->
  int_range false n v -> length d = n ->
  (let* w := nadine_convert_to CA (Unsigned TA) o v in
   nadine_convert_from CB (Unsigned TB) o (type_unpun TB (type_pun TA w))) = Done v /\
  (let* buf := nadine_write CA (Unsigned TA) o d v in
   nadine_read CB (Unsigned TB) o buf) = Done v.
Proof.
  intros HA HB Hn Heven HfA HfB Hv Hd.
  destruct (unsigned_calls CA TA n a HA Hn Heven HfA) as (HcvtA & _ & HwrA).
  destruct (unsigned_calls CB TB n b HB Hn Heven HfB) as (HcvtB & HrdB & _).
  destruct HA as (HsA & HTA & HstA). destruct HB as (HsB & HTB & HstB).
  assert (Hlen : forall x y, length (transform x (byte_order y n v)) = n).
  { intros x y. unfold byte_order. rewrite !length_transform. apply length_le_bytes. }
  assert (Hbytes : forall x y, Forall is_uchar (transform x (byte_order y n v))).
  { intros x y. unfold byte_order. apply Forall_transform, Forall_transform.
    apply le_bytes_uchar. }
  assert (Hevenl : Nat.even (length (le_bytes n v)) = true)
    by (rewrite length_le_bytes; exact Heven).
  unfold nadine_convert_to, nadine_convert_from, nadine_convert, nadine_write,
    nadine_read.
  split.
  - rewrite (HcvtA o v Hv). cbn [bind].
    set (w := int_cast false n (le_value (transform a (byte_order o n v)))).
    assert (Hw : int_range false n w) by (apply int_cast_range; lia).
    assert (Hpun : type_pun TA w = byte_order o n v).
    { rewrite HstA by (rewrite HsA; exact Hw). rewrite HsA. unfold byte_order at 1, w.
      rewrite le_bytes_decode by auto.
      unfold byte_order. apply transform_involutive.
      rewrite length_transform. exact Hevenl. }
    rewrite Hpun.
    rewrite (unpun_stored false TB b)
      by (rewrite ?HsB; try assumption; try lia;
          first [apply (Hlen 0%Z) | apply (Hbytes 0%Z)]).
    rewrite HsB.
    set (u := int_cast false n (le_value (transform b (byte_order o n v)))).
    assert (Hu : int_range false n u) by (apply int_cast_range; lia).
    rewrite (HcvtB o u Hu). f_equal.
    unfold byte_order at 1, u. rewrite le_bytes_decode by auto.
    unfold byte_order.
    rewrite !(transform_compose b o) by (rewrite ?length_transform; exact Hevenl).
    rewrite transform_involutive by exact Hevenl.
    apply decode_le_bytes; [lia | exact Hv].
  - rewrite (HwrA o v d Hv Hd). cbn [bind].
    rewrite HrdB by first [apply (Hlen 0%Z) | apply (Hbytes 0%Z)].
    f_equal. unfold byte_order.
    rewrite transform_involutive by exact Hevenl.
    apply decode_le_bytes; [lia | exact Hv].
Qed.

Lemma cross_host_transfer_witness :
  (let* w := nadine_convert_to config_le32 (Unsigned (host_int false 0 4)) 3 0x01020304%Z in
   nadine_convert_from config_copy (Unsigned (host_int false 1 4)) 3
     (type_unpun (host_int false 1 4) (type_pun (host_int false 0 4) w)))
  = Done 0x01020304%Z.
Proof.
  apply (cross_host_transfer config_le32 config_copy (host_int false 0 4)
           (host_int false 1 4) 4 0 1 3 0x01020304%Z [0; 0; 0; 0]%Z).
  - apply host_int_exact_width; [lia|reflexivity].
  - apply host_int_exact_width; [lia|reflexivity].
  - lia.
  - reflexivity.
  - reflexivity.
  - reflexivity.
  - split; [discriminate|reflexivity].
  - reflexivity.
Defined.
